(** * SEMNANSolver: a shallow embedding of [semnan_cuda.cpp]

    The host-side solver of u-semnan compiles a boolean structure matrix
    into a layered sparse representation ([make_structures]), owns the
    weight and covariance buffers ([init_parameters]) and evaluates the
    Gaussian Kullback-Leibler loss against a sample covariance.

    Conventions of the embedding.
    - [int32_t] values are [Z]; the narrowing conversions of
      [init_parameters] are written out with [to_int32].  Loop counters
      of [make_structures] range over tensor extents and are kept exact.
    - Floating-point scalars are idealised as real numbers ([R]).
    - A C++ exception, and an access outside a [std::vector] (undefined
      behaviour in C++), end the computation with an [error]. *)

From Stdlib Require Import String ZArith List Lia Bool Reals Lra Sorted.
Import ListNotations.
Open Scope Z_scope.

(** ** Errors and the error monad *)

Inductive error : Type :=
| CheckFailed (msg : string)   (* TORCH_CHECK failure: c10::Error *)
| IndexError (i : Z)           (* checked tensor indexing: c10::IndexError *)
| OutOfBounds (i : Z)          (* std::vector access outside [0, size) *)
| LinAlgError.                 (* torch::inverse of a singular matrix *)

Inductive result (A : Type) : Type :=
| Ok (a : A)
| Err (e : error).
Arguments Ok {A} a.
Arguments Err {A} e.

Definition bind {A B : Type} (m : result A) (k : A -> result B) : result B :=
  match m with
  | Ok a => k a
  | Err e => Err e
  end.

Notation "x <- m ;; k" := (bind m (fun x => k))
  (at level 100, m at next level, right associativity).
Notation "' pat <- m ;; k" := (bind m (fun x => match x with pat => k end))
  (at level 100, pat pattern, m at next level, right associativity).

Fixpoint foldM {S X : Type} (f : S -> X -> result S) (xs : list X) (s : S)
  : result S :=
  match xs with
  | [] => Ok s
  | x :: xs' => s' <- f s x ;; foldM f xs' s'
  end.

(** [for (i = lo; i < hi; i++)] visits [zrange lo hi]. *)
Definition zrange (lo hi : Z) : list Z :=
  map (fun i => lo + Z.of_nat i) (seq 0 (Z.to_nat (hi - lo))).

Definition zlength {A : Type} (l : list A) : Z := Z.of_nat (length l).

Fixpoint list_set {A : Type} (l : list A) (n : nat) (x : A) : list A :=
  match l, n with
  | [], _ => []
  | _ :: t, O => x :: t
  | h :: t, S n' => h :: list_set t n' x
  end.

(** ** [std::vector]: unchecked [operator[]], [back()] *)

Definition vec_get {A : Type} (v : list A) (i : Z) : result A :=
  if (0 <=? i) && (i <? zlength v) then
    match nth_error v (Z.to_nat i) with
    | Some a => Ok a
    | None => Err (OutOfBounds i)
    end
  else Err (OutOfBounds i).

Definition vec_modify {A : Type} (v : list A) (i : Z) (f : A -> A)
  : result (list A) :=
  a <- vec_get v i ;; Ok (list_set v (Z.to_nat i) (f a)).

Definition vec_back {A : Type} (v : list A) : result A :=
  vec_get v (zlength v - 1).

Definition vec_modify_back {A : Type} (v : list A) (f : A -> A)
  : result (list A) :=
  vec_modify v (zlength v - 1) f.

(** ** Tensors held by value

    A tensor whose storage is shared with nothing the solver mutates is
    modelled by its extents and its elements in row-major order.
    Indexing is checked and a negative index counts from the end, as
    [at::Tensor::operator[]] does. *)

Inductive Device : Type :=
| CPU
| CUDA (index : Z).

Record Tensor (A : Type) : Type := mkTensor {
  sizes : list Z;
  data : list A;
  device : Device
}.
Arguments mkTensor {A} sizes data device.
Arguments sizes {A} t.
Arguments data {A} t.
Arguments device {A} t.

Definition numel_of (szs : list Z) : Z := fold_right Z.mul 1 szs.
Definition numel {A : Type} (t : Tensor A) : Z := numel_of (sizes t).
Definition dim {A : Type} (t : Tensor A) : Z := zlength (sizes t).

Definition is_cuda {A : Type} (t : Tensor A) : bool :=
  match device t with
  | CUDA _ => true
  | CPU => false
  end.

(** [t.size(d)] for [d >= 0]: raises when [d] is not a dimension. *)
Definition size {A : Type} (t : Tensor A) (d : Z) : result Z :=
  if (0 <=? d) && (d <? dim t) then
    match nth_error (sizes t) (Z.to_nat d) with
    | Some n => Ok n
    | None => Err (IndexError d)
    end
  else Err (IndexError d).

(** The position an index [i] denotes in a dimension of extent [n]. *)
Definition wrap_index (n i : Z) : result Z :=
  if (- n <=? i) && (i <? n) then Ok (if i <? 0 then i + n else i)
  else Err (IndexError i).

(** [t[r][c].item()] on a 2-dimensional tensor. *)
Definition item2 {A : Type} (t : Tensor A) (r c : Z) : result A :=
  match sizes t with
  | [n0; n1] =>
      r' <- wrap_index n0 r ;;
      c' <- wrap_index n1 c ;;
      match nth_error (data t) (Z.to_nat (r' * n1 + c')) with
      | Some a => Ok a
      | None => Err (IndexError (r' * n1 + c'))
      end
  | _ => Err (IndexError r)
  end.

(** One-dimensional tensors of [int32] ([parents], [parents_bases], ...)
    are lists; [t[i] = x] is checked. *)
Definition tensor_get {A : Type} (t : list A) (i : Z) : result A :=
  i' <- wrap_index (zlength t) i ;;
  match nth_error t (Z.to_nat i') with
  | Some a => Ok a
  | None => Err (IndexError i)
  end.

Definition tensor_set {A : Type} (t : list A) (i : Z) (x : A)
  : result (list A) :=
  i' <- wrap_index (zlength t) i ;; Ok (list_set t (Z.to_nat i') x).

(** [t.index_put_({r, c}, x)] on a 2-dimensional tensor stored by rows. *)
Definition tensor_set2 {A : Type} (t : list (list A)) (r c : Z) (x : A)
  : result (list (list A)) :=
  row <- tensor_get t r ;;
  row' <- tensor_set row c x ;;
  tensor_set t r row'.

(** [torch::zeros(n)] *)
Definition zeros (n : Z) : list Z := repeat 0 (Z.to_nat n).

(** ** Layer records

    Modelled from the spec: [SEMNANLayerData] is declared in
    [device_data.h], which is not part of the sources.  The spec gives a
    layer an index, a count of assigned visible nodes and a latent width;
    the two-argument constructor used by [make_structures] receives the
    index and the first visible node of the layer.  Layer 0 is the
    default-constructed sentinel. *)

Record SEMNANLayerData : Type := mkLayer {
  idx : Z;
  base : Z;
  num : Z;
  lat_width : Z
}.

Definition SEMNANLayerData_new (i b : Z) : SEMNANLayerData :=
  {| idx := i; base := b; num := 0; lat_width := 0 |}.

Definition SEMNANLayerData_default : SEMNANLayerData :=
  SEMNANLayerData_new 0 0.

Definition incr_num (l : SEMNANLayerData) : SEMNANLayerData :=
  {| idx := idx l; base := base l; num := num l + 1; lat_width := lat_width l |}.

Definition set_lat_width (w : Z) (l : SEMNANLayerData) : SEMNANLayerData :=
  {| idx := idx l; base := base l; num := num l; lat_width := w |}.

(** ** [make_structures]: the graph compiler

    Nodes are numbered as in the source: latent nodes [-latent_size .. -1],
    visible nodes [0 .. visible_size - 1]; row [p + latent_size] of
    [structure] holds the outgoing edges of node [p]. *)

(** The locals of [make_structures] and the two members it fills while
    it scans the edges (lines 122-159). *)
Record Scan : Type := mkScan {
  edge_count : Z;
  parents_vec : list (list Z);
  children_vec : list (list (list Z));
  scan_ranges : list (Z * Z);            (* this->latent_presence_range *)
  scan_layers : list SEMNANLayerData;    (* this->layers_vec *)
  layer_max : Z
}.

(** The members [make_structures] leaves behind. *)
Record Structures : Type := mkStructures {
  parents : list Z;
  parents_bases : list Z;
  children : list Z;
  children_bases : list (list Z);
  latent_neighbors : list Z;
  latent_neighbors_bases : list Z;
  latent_presence_range : list (Z * Z);
  layers_vec : list SEMNANLayerData
}.

Section MakeStructures.

Variable structure : Tensor bool.
Variables latent_size visible_size : Z.

Definition total_size : Z := latent_size + visible_size.

(** Lines 122-127. *)
Definition scan_init : Scan :=
  {| edge_count := 0;
     parents_vec := repeat [] (Z.to_nat visible_size);
     children_vec := [repeat [] (Z.to_nat total_size)];
     scan_ranges := repeat (-1, -1) (Z.to_nat latent_size);
     scan_layers := [SEMNANLayerData_default; SEMNANLayerData_new 1 0];
     layer_max := -1 |}.

(** Lines 131-142: the body of the first loop over [p]. *)
Definition scan_parent (c : Z) (s : Scan) (p : Z) : result Scan :=
  e <- item2 structure (p + latent_size) c ;;
  if e : bool then
    pv <- vec_modify (parents_vec s) c (fun ps => ps ++ [p]) ;;
    let '(lm, ls, cv) :=
      if p >=? layer_max s then
        (c,
         scan_layers s ++ [SEMNANLayerData_new (zlength (scan_layers s)) c],
         children_vec s ++ [repeat [] (Z.to_nat total_size)])
      else (layer_max s, scan_layers s, children_vec s) in
    Ok {| edge_count := edge_count s + 1;
          parents_vec := pv;
          children_vec := cv;
          scan_ranges := scan_ranges s;
          scan_layers := ls;
          layer_max := lm |}
  else Ok s.

(** Lines 147-151: [this_latent.index_put_({Slice(lo == -1 ? 0 : 1, 2)}, l)]. *)
Definition extend_range (this_latent : Z * Z) (l : Z) : Z * Z :=
  if fst this_latent =? -1 then (l, l) else (fst this_latent, l).

(** Lines 145-155: the body of the second loop over [p]. *)
Definition link_parent (c : Z) (s : Scan) (p : Z) : result Scan :=
  e <- item2 structure (p + latent_size) c ;;
  if e : bool then
    rs <- (if p <? 0 then
             this_latent <- tensor_get (scan_ranges s) (p + latent_size) ;;
             last_layer <- vec_back (scan_layers s) ;;
             tensor_set (scan_ranges s) (p + latent_size)
               (extend_range this_latent (idx last_layer - 1))
           else Ok (scan_ranges s)) ;;
    bucket <- vec_back (children_vec s) ;;
    bucket' <- vec_modify bucket (p + latent_size) (fun cs => cs ++ [c]) ;;
    cv <- vec_modify_back (children_vec s) (fun _ => bucket') ;;
    Ok {| edge_count := edge_count s;
          parents_vec := parents_vec s;
          children_vec := cv;
          scan_ranges := rs;
          scan_layers := scan_layers s;
          layer_max := layer_max s |}
  else Ok s.

(** Lines 129-159: the body of the loop over the visible nodes [c]. *)
Definition scan_child (s : Scan) (c : Z) : result Scan :=
  s1 <- foldM (scan_parent c) (zrange (- latent_size) visible_size) s ;;
  s2 <- foldM (link_parent c) (zrange (- latent_size) visible_size) s1 ;;
  ls <- vec_modify_back (scan_layers s2) incr_num ;;
  Ok {| edge_count := edge_count s2;
        parents_vec := parents_vec s2;
        children_vec := children_vec s2;
        scan_ranges := scan_ranges s2;
        scan_layers := ls;
        layer_max := layer_max s2 |}.

Definition scan_edges : result Scan :=
  foldM scan_child (zrange 0 visible_size) scan_init.

(** Writing a run of values at [idx], [idx + 1], ...:
    [for (x : xs) buffer[idx++] = x;] *)
Definition write_run (st : list Z * Z) (xs : list Z) : result (list Z * Z) :=
  foldM (fun '(buf, i) x => buf' <- tensor_set buf i x ;; Ok (buf', i + 1))
        xs st.

(** Lines 161-170: the parents in CSR form. *)
Definition make_parents (s : Scan) : result (list Z * list Z) :=
  '(ps, bases, _) <-
    foldM (fun '(ps, bases, i) c =>
             pv <- vec_get (parents_vec s) c ;;
             '(ps', i') <- write_run (ps, i) pv ;;
             bases' <- tensor_set bases (c + 1) i' ;;
             Ok (ps', bases', i'))
          (zrange 0 visible_size)
          (zeros (edge_count s), zeros (visible_size + 1), 0) ;;
  Ok (ps, bases).

(** Lines 179-184: the buckets of one parent row, layer by layer. *)
Definition make_children_row (s : Scan) (p : Z)
  (st : list Z * list (list Z) * Z) : result (list Z * list (list Z) * Z) :=
  foldM (fun '(cs, bases, i) l =>
           bucket <- vec_get (children_vec s) l ;;
           row <- vec_get bucket (p + latent_size) ;;
           '(cs', i') <- write_run (cs, i) row ;;
           bases' <- tensor_set2 bases (p + latent_size) (l + 1) i' ;;
           Ok (cs', bases', i'))
        (zrange 0 (zlength (children_vec s))) st.

(** Lines 172-185: the children in CSR form, bucketed per layer. *)
Definition make_children (s : Scan) (num_layers : Z)
  : result (list Z * list (list Z)) :=
  '(cs, bases, _) <-
    foldM (fun '(cs, bases, i) p =>
             bases0 <- tensor_set2 bases (p + latent_size) 0 i ;;
             make_children_row s p (cs, bases0, i))
          (zrange (- latent_size) visible_size)
          (zeros (edge_count s),
           repeat (zeros num_layers) (Z.to_nat total_size), 0) ;;
  Ok (cs, bases).

(** Lines 190-197: each latent is entered in the neighbour list of every
    layer of its presence range. *)
Definition spread_latent (ranges : list (Z * Z))
  (st : list (list Z) * Z) (v : Z) : result (list (list Z) * Z) :=
  this_latent <- tensor_get ranges (v + latent_size) ;;
  foldM (fun '(nv, count) l =>
           nv' <- vec_modify nv l (fun vs => vs ++ [v]) ;;
           Ok (nv', count + 1))
        (zrange (fst this_latent) (snd this_latent + 1)) st.

(** Lines 199-209: the latent neighbours in CSR form, and the latent
    width of every layer. *)
Definition make_latent_neighbors (latent_neighbors_vec : list (list Z))
  (latent_neighbors_count : Z) (layers : list SEMNANLayerData)
  : result (list Z * list Z * list SEMNANLayerData) :=
  '(ns, bases, ls, _) <-
    foldM (fun '(ns, bases, ls, i) l =>
             nv <- vec_get latent_neighbors_vec l ;;
             '(ns', i') <- write_run (ns, i) nv ;;
             ls' <- vec_modify ls l (set_lat_width (zlength nv)) ;;
             bases' <- tensor_set bases (l + 1) i' ;;
             Ok (ns', bases', ls', i'))
          (zrange 0 (zlength latent_neighbors_vec))
          (zeros latent_neighbors_count,
           zeros (zlength latent_neighbors_vec + 1), layers, 0) ;;
  Ok (ns, bases, ls).

Definition make_structures : result Structures :=
  s <- scan_edges ;;
  let num_layers := zlength (scan_layers s) in
  '(ps, pbases) <- make_parents s ;;
  '(cs, cbases) <- make_children s num_layers ;;
  '(latent_neighbors_vec, latent_neighbors_count) <-
    foldM (spread_latent (scan_ranges s)) (zrange (- latent_size) 0)
          (repeat [] (Z.to_nat num_layers), 0) ;;
  '(ns, nbases, ls) <-
    make_latent_neighbors latent_neighbors_vec latent_neighbors_count
                          (scan_layers s) ;;
  Ok {| parents := ps;
        parents_bases := pbases;
        children := cs;
        children_bases := cbases;
        latent_neighbors := ns;
        latent_neighbors_bases := nbases;
        latent_presence_range := scan_ranges s;
        layers_vec := ls |}.

End MakeStructures.

Definition bools (rows : list (list bool)) (ncols : Z) : Tensor bool :=
  {| sizes := [zlength rows; ncols]; data := concat rows; device := CUDA 0 |}.


(** * Tensors that share storage

    [weights], [lambda], [covariance] and the gradient buffers are
    written in place, and [visible_covariance] is a view of
    [covariance]: such a tensor is a reference into a store of buffers,
    with an offset, extents and strides. *)

Record TensorRef : Type := mkRef {
  storage : nat;
  storage_offset : Z;
  ref_sizes : list Z;
  strides : list Z
}.

(** A default-constructed [torch::Tensor]: no element. *)
Definition undefined_ref : TensorRef :=
  {| storage := 0; storage_offset := 0; ref_sizes := [0]; strides := [1] |}.

Definition Store : Type := list (list R).

Fixpoint contiguous_strides (szs : list Z) : list Z :=
  match szs with
  | [] => []
  | _ :: rest => numel_of rest :: contiguous_strides rest
  end.

(** A fresh buffer holding [init], seen as a contiguous tensor. *)
Definition alloc (mem : Store) (szs : list Z) (init : list R) : TensorRef * Store :=
  ({| storage := length mem; storage_offset := 0;
      ref_sizes := szs; strides := contiguous_strides szs |},
   mem ++ [init]).

(** [torch::zeros(szs)], [torch::zeros_like]. *)
Definition alloc_zeros (mem : Store) (szs : list Z) : TensorRef * Store :=
  alloc mem szs (repeat 0%R (Z.to_nat (numel_of szs))).

(** Where [Slice(start, None)] begins in a dimension of extent [n]. *)
Definition slice_start (n start : Z) : Z :=
  Z.max 0 (Z.min n (if start <? 0 then start + n else start)).

(** [t.index({..., Slice(start, None), ...})] in dimension [d]: a view. *)
Definition slice_from (t : TensorRef) (d : nat) (start : Z) : TensorRef :=
  match nth_error (ref_sizes t) d, nth_error (strides t) d with
  | Some n, Some sd =>
      let s := slice_start n start in
      {| storage := storage t;
         storage_offset := storage_offset t + s * sd;
         ref_sizes := list_set (ref_sizes t) d (n - s);
         strides := strides t |}
  | _, _ => t
  end.

(** [t[k]]: a view of the [k]-th slice of the first dimension. *)
Definition select (t : TensorRef) (k : Z) : result TensorRef :=
  match ref_sizes t, strides t with
  | n :: szs, sd :: sds =>
      k' <- wrap_index n k ;;
      Ok {| storage := storage t;
            storage_offset := storage_offset t + k' * sd;
            ref_sizes := szs;
            strides := sds |}
  | _, _ => Err (IndexError k)
  end.

(** The position in its buffer of the element of [t] at index [ix]. *)
Fixpoint dot (ix sds : list Z) : Z :=
  match ix, sds with
  | i :: ix', sd :: sds' => i * sd + dot ix' sds'
  | _, _ => 0
  end.

Definition address (t : TensorRef) (ix : list Z) : Z :=
  storage_offset t + dot ix (strides t).

(** The indices of a tensor of extents [szs], in row-major order. *)
Fixpoint indices (szs : list Z) : list (list Z) :=
  match szs with
  | [] => [[]]
  | n :: rest => flat_map (fun i => map (cons i) (indices rest)) (zrange 0 n)
  end.

Definition buffer (mem : Store) (t : TensorRef) : list R := nth (storage t) mem [].

Definition read_at (mem : Store) (t : TensorRef) (ix : list Z) : R :=
  nth (Z.to_nat (address t ix)) (buffer mem t) 0%R.

Definition write_at (mem : Store) (t : TensorRef) (ix : list Z) (x : R) : Store :=
  list_set mem (storage t) (list_set (buffer mem t) (Z.to_nat (address t ix)) x).

(** The elements a reference denotes, as a tensor held by value. *)
Definition to_value (mem : Store) (t : TensorRef) (dev : Device) : Tensor R :=
  {| sizes := ref_sizes t;
     data := map (read_at mem t) (indices (ref_sizes t));
     device := dev |}.

(** [t.copy_(src)] and [t.subtract_(src)] for [src] of the extents of [t]. *)
Definition copy_ (mem : Store) (t : TensorRef) (src : Tensor R) : Store :=
  fold_left (fun m '(ix, x) => write_at m t ix x)
            (combine (indices (ref_sizes t)) (data src)) mem.

Definition subtract_ (mem : Store) (t : TensorRef) (src : Tensor R) : Store :=
  fold_left (fun m '(ix, x) => write_at m t ix (read_at m t ix - x)%R)
            (combine (indices (ref_sizes t)) (data src)) mem.

(** * The solver *)

Inductive Dtype : Type :=
| kFloat | kDouble | kHalf | kBFloat16 | kInt32 | kInt64 | kBool.

Definition is_floating (d : Dtype) : bool :=
  match d with
  | kFloat | kDouble => true
  | _ => false
  end.

(** The value an [int64_t] takes when stored in an [int32_t]. *)
Definition to_int32 (z : Z) : Z := (z + 2 ^ 31) mod 2 ^ 32 - 2 ^ 31.

(** The members of [SEMNANSolver], and [mem], the buffers its tensor
    members refer to.  The members filled by [make_structures] are kept
    together in [structures]; [data], the bundle of raw pointers handed to
    the kernels, is not modelled. *)
Record Solver : Type := mkSolver {
  structure : Tensor bool;
  lambda : TensorRef;
  weights : TensorRef;
  weights_grad : TensorRef;              (* weights.mutable_grad() *)
  covariance : TensorRef;
  covariance_grad : TensorRef;           (* covariance.mutable_grad() *)
  visible_covariance : TensorRef;
  visible_covariance_grad : TensorRef;   (* visible_covariance.mutable_grad() *)
  sample_covariance : Tensor R;
  sample_covariance_inv : Tensor R;
  sample_covariance_logdet : Tensor R;
  structures : Structures;
  visible_size : Z;
  latent_size : Z;
  cuda_device_number : Z;
  dtype : Dtype;
  mem : Store
}.

(** A default-constructed tensor held by value. *)
Definition undefined (A : Type) : Tensor A :=
  {| sizes := [0]; data := []; device := CPU |}.

Definition no_structures : Structures :=
  {| parents := []; parents_bases := []; children := []; children_bases := [];
     latent_neighbors := []; latent_neighbors_bases := [];
     latent_presence_range := []; layers_vec := [] |}.

(** The object before the constructor body runs.  The scalar members have
    no initialiser in the source; their initial values are parameters. *)
Definition fresh_solver (vs ls dev : Z) (dt : Dtype) (m : Store) : Solver :=
  {| structure := undefined bool;
     lambda := undefined_ref;
     weights := undefined_ref;
     weights_grad := undefined_ref;
     covariance := undefined_ref;
     covariance_grad := undefined_ref;
     visible_covariance := undefined_ref;
     visible_covariance_grad := undefined_ref;
     sample_covariance := undefined R;
     sample_covariance_inv := undefined R;
     sample_covariance_logdet := undefined R;
     structures := no_structures;
     visible_size := vs;
     latent_size := ls;
     cuda_device_number := dev;
     dtype := dt;
     mem := m |}.

Definition num_layers (this : Solver) : Z := zlength (layers_vec (structures this)).

(** ** Methods: state and exceptions

    A method is a function from the object to an outcome and the object
    it leaves behind; an exception keeps the writes made before it. *)

Definition M (A : Type) : Type := Solver -> result A * Solver.

Definition ret {A : Type} (a : A) : M A := fun this => (Ok a, this).

Definition bindM {A B : Type} (m : M A) (k : A -> M B) : M B :=
  fun this =>
    match m this with
    | (Ok a, this') => k a this'
    | (Err e, this') => (Err e, this')
    end.

Notation "x <~ m ;; k" := (bindM m (fun x => k))
  (at level 100, m at next level, right associativity).
Notation "m ;;; k" := (bindM m (fun _ => k))
  (at level 100, right associativity).

Definition lift {A : Type} (r : result A) : M A := fun this => (r, this).

Definition TORCH_CHECK (cond : bool) (msg : string) : M unit :=
  fun this => if cond then (Ok tt, this) else (Err (CheckFailed msg), this).

Definition modify (f : Solver -> Solver) : M unit := fun this => (Ok tt, f this).

Definition get {A : Type} (f : Solver -> A) : M A := fun this => (Ok (f this), this).

(** Assignments to the members. *)
Definition put_structure (x : Tensor bool) (this : Solver) : Solver :=
  {| structure := x; lambda := lambda this; weights := weights this;
     weights_grad := weights_grad this; covariance := covariance this;
     covariance_grad := covariance_grad this;
     visible_covariance := visible_covariance this;
     visible_covariance_grad := visible_covariance_grad this;
     sample_covariance := sample_covariance this;
     sample_covariance_inv := sample_covariance_inv this;
     sample_covariance_logdet := sample_covariance_logdet this;
     structures := structures this; visible_size := visible_size this;
     latent_size := latent_size this;
     cuda_device_number := cuda_device_number this; dtype := dtype this;
     mem := mem this |}.

Definition put_lambda (x : TensorRef) (this : Solver) : Solver :=
  {| structure := structure this; lambda := x; weights := weights this;
     weights_grad := weights_grad this; covariance := covariance this;
     covariance_grad := covariance_grad this;
     visible_covariance := visible_covariance this;
     visible_covariance_grad := visible_covariance_grad this;
     sample_covariance := sample_covariance this;
     sample_covariance_inv := sample_covariance_inv this;
     sample_covariance_logdet := sample_covariance_logdet this;
     structures := structures this; visible_size := visible_size this;
     latent_size := latent_size this;
     cuda_device_number := cuda_device_number this; dtype := dtype this;
     mem := mem this |}.

Definition put_weights (x : TensorRef) (this : Solver) : Solver :=
  {| structure := structure this; lambda := lambda this; weights := x;
     weights_grad := weights_grad this; covariance := covariance this;
     covariance_grad := covariance_grad this;
     visible_covariance := visible_covariance this;
     visible_covariance_grad := visible_covariance_grad this;
     sample_covariance := sample_covariance this;
     sample_covariance_inv := sample_covariance_inv this;
     sample_covariance_logdet := sample_covariance_logdet this;
     structures := structures this; visible_size := visible_size this;
     latent_size := latent_size this;
     cuda_device_number := cuda_device_number this; dtype := dtype this;
     mem := mem this |}.

Definition put_weights_grad (x : TensorRef) (this : Solver) : Solver :=
  {| structure := structure this; lambda := lambda this;
     weights := weights this; weights_grad := x;
     covariance := covariance this; covariance_grad := covariance_grad this;
     visible_covariance := visible_covariance this;
     visible_covariance_grad := visible_covariance_grad this;
     sample_covariance := sample_covariance this;
     sample_covariance_inv := sample_covariance_inv this;
     sample_covariance_logdet := sample_covariance_logdet this;
     structures := structures this; visible_size := visible_size this;
     latent_size := latent_size this;
     cuda_device_number := cuda_device_number this; dtype := dtype this;
     mem := mem this |}.

Definition put_covariance (x : TensorRef) (this : Solver) : Solver :=
  {| structure := structure this; lambda := lambda this;
     weights := weights this; weights_grad := weights_grad this;
     covariance := x; covariance_grad := covariance_grad this;
     visible_covariance := visible_covariance this;
     visible_covariance_grad := visible_covariance_grad this;
     sample_covariance := sample_covariance this;
     sample_covariance_inv := sample_covariance_inv this;
     sample_covariance_logdet := sample_covariance_logdet this;
     structures := structures this; visible_size := visible_size this;
     latent_size := latent_size this;
     cuda_device_number := cuda_device_number this; dtype := dtype this;
     mem := mem this |}.

Definition put_covariance_grad (x : TensorRef) (this : Solver) : Solver :=
  {| structure := structure this; lambda := lambda this;
     weights := weights this; weights_grad := weights_grad this;
     covariance := covariance this; covariance_grad := x;
     visible_covariance := visible_covariance this;
     visible_covariance_grad := visible_covariance_grad this;
     sample_covariance := sample_covariance this;
     sample_covariance_inv := sample_covariance_inv this;
     sample_covariance_logdet := sample_covariance_logdet this;
     structures := structures this; visible_size := visible_size this;
     latent_size := latent_size this;
     cuda_device_number := cuda_device_number this; dtype := dtype this;
     mem := mem this |}.

Definition put_visible_covariance (x : TensorRef) (this : Solver) : Solver :=
  {| structure := structure this; lambda := lambda this;
     weights := weights this; weights_grad := weights_grad this;
     covariance := covariance this; covariance_grad := covariance_grad this;
     visible_covariance := x;
     visible_covariance_grad := visible_covariance_grad this;
     sample_covariance := sample_covariance this;
     sample_covariance_inv := sample_covariance_inv this;
     sample_covariance_logdet := sample_covariance_logdet this;
     structures := structures this; visible_size := visible_size this;
     latent_size := latent_size this;
     cuda_device_number := cuda_device_number this; dtype := dtype this;
     mem := mem this |}.

Definition put_visible_covariance_grad (x : TensorRef) (this : Solver) : Solver :=
  {| structure := structure this; lambda := lambda this;
     weights := weights this; weights_grad := weights_grad this;
     covariance := covariance this; covariance_grad := covariance_grad this;
     visible_covariance := visible_covariance this;
     visible_covariance_grad := x;
     sample_covariance := sample_covariance this;
     sample_covariance_inv := sample_covariance_inv this;
     sample_covariance_logdet := sample_covariance_logdet this;
     structures := structures this; visible_size := visible_size this;
     latent_size := latent_size this;
     cuda_device_number := cuda_device_number this; dtype := dtype this;
     mem := mem this |}.

Definition put_sample_covariance (x : Tensor R) (this : Solver) : Solver :=
  {| structure := structure this; lambda := lambda this;
     weights := weights this; weights_grad := weights_grad this;
     covariance := covariance this; covariance_grad := covariance_grad this;
     visible_covariance := visible_covariance this;
     visible_covariance_grad := visible_covariance_grad this;
     sample_covariance := x;
     sample_covariance_inv := sample_covariance_inv this;
     sample_covariance_logdet := sample_covariance_logdet this;
     structures := structures this; visible_size := visible_size this;
     latent_size := latent_size this;
     cuda_device_number := cuda_device_number this; dtype := dtype this;
     mem := mem this |}.

Definition put_sample_covariance_inv (x : Tensor R) (this : Solver) : Solver :=
  {| structure := structure this; lambda := lambda this;
     weights := weights this; weights_grad := weights_grad this;
     covariance := covariance this; covariance_grad := covariance_grad this;
     visible_covariance := visible_covariance this;
     visible_covariance_grad := visible_covariance_grad this;
     sample_covariance := sample_covariance this; sample_covariance_inv := x;
     sample_covariance_logdet := sample_covariance_logdet this;
     structures := structures this; visible_size := visible_size this;
     latent_size := latent_size this;
     cuda_device_number := cuda_device_number this; dtype := dtype this;
     mem := mem this |}.

Definition put_sample_covariance_logdet (x : Tensor R) (this : Solver) : Solver :=
  {| structure := structure this; lambda := lambda this;
     weights := weights this; weights_grad := weights_grad this;
     covariance := covariance this; covariance_grad := covariance_grad this;
     visible_covariance := visible_covariance this;
     visible_covariance_grad := visible_covariance_grad this;
     sample_covariance := sample_covariance this;
     sample_covariance_inv := sample_covariance_inv this;
     sample_covariance_logdet := x; structures := structures this;
     visible_size := visible_size this; latent_size := latent_size this;
     cuda_device_number := cuda_device_number this; dtype := dtype this;
     mem := mem this |}.

Definition put_structures (x : Structures) (this : Solver) : Solver :=
  {| structure := structure this; lambda := lambda this;
     weights := weights this; weights_grad := weights_grad this;
     covariance := covariance this; covariance_grad := covariance_grad this;
     visible_covariance := visible_covariance this;
     visible_covariance_grad := visible_covariance_grad this;
     sample_covariance := sample_covariance this;
     sample_covariance_inv := sample_covariance_inv this;
     sample_covariance_logdet := sample_covariance_logdet this;
     structures := x; visible_size := visible_size this;
     latent_size := latent_size this;
     cuda_device_number := cuda_device_number this; dtype := dtype this;
     mem := mem this |}.

Definition put_visible_size (x : Z) (this : Solver) : Solver :=
  {| structure := structure this; lambda := lambda this;
     weights := weights this; weights_grad := weights_grad this;
     covariance := covariance this; covariance_grad := covariance_grad this;
     visible_covariance := visible_covariance this;
     visible_covariance_grad := visible_covariance_grad this;
     sample_covariance := sample_covariance this;
     sample_covariance_inv := sample_covariance_inv this;
     sample_covariance_logdet := sample_covariance_logdet this;
     structures := structures this; visible_size := x;
     latent_size := latent_size this;
     cuda_device_number := cuda_device_number this; dtype := dtype this;
     mem := mem this |}.

Definition put_latent_size (x : Z) (this : Solver) : Solver :=
  {| structure := structure this; lambda := lambda this;
     weights := weights this; weights_grad := weights_grad this;
     covariance := covariance this; covariance_grad := covariance_grad this;
     visible_covariance := visible_covariance this;
     visible_covariance_grad := visible_covariance_grad this;
     sample_covariance := sample_covariance this;
     sample_covariance_inv := sample_covariance_inv this;
     sample_covariance_logdet := sample_covariance_logdet this;
     structures := structures this; visible_size := visible_size this;
     latent_size := x; cuda_device_number := cuda_device_number this;
     dtype := dtype this; mem := mem this |}.

Definition put_cuda_device_number (x : Z) (this : Solver) : Solver :=
  {| structure := structure this; lambda := lambda this;
     weights := weights this; weights_grad := weights_grad this;
     covariance := covariance this; covariance_grad := covariance_grad this;
     visible_covariance := visible_covariance this;
     visible_covariance_grad := visible_covariance_grad this;
     sample_covariance := sample_covariance this;
     sample_covariance_inv := sample_covariance_inv this;
     sample_covariance_logdet := sample_covariance_logdet this;
     structures := structures this; visible_size := visible_size this;
     latent_size := latent_size this; cuda_device_number := x;
     dtype := dtype this; mem := mem this |}.

Definition put_dtype (x : Dtype) (this : Solver) : Solver :=
  {| structure := structure this; lambda := lambda this;
     weights := weights this; weights_grad := weights_grad this;
     covariance := covariance this; covariance_grad := covariance_grad this;
     visible_covariance := visible_covariance this;
     visible_covariance_grad := visible_covariance_grad this;
     sample_covariance := sample_covariance this;
     sample_covariance_inv := sample_covariance_inv this;
     sample_covariance_logdet := sample_covariance_logdet this;
     structures := structures this; visible_size := visible_size this;
     latent_size := latent_size this;
     cuda_device_number := cuda_device_number this; dtype := x;
     mem := mem this |}.

Definition put_mem (x : Store) (this : Solver) : Solver :=
  {| structure := structure this; lambda := lambda this;
     weights := weights this; weights_grad := weights_grad this;
     covariance := covariance this; covariance_grad := covariance_grad this;
     visible_covariance := visible_covariance this;
     visible_covariance_grad := visible_covariance_grad this;
     sample_covariance := sample_covariance this;
     sample_covariance_inv := sample_covariance_inv this;
     sample_covariance_logdet := sample_covariance_logdet this;
     structures := structures this; visible_size := visible_size this;
     latent_size := latent_size this;
     cuda_device_number := cuda_device_number this; dtype := dtype this;
     mem := x |}.

(** ** [init_parameters] (lines 66-112) *)

Definition bool_to_R (b : bool) : R := if b then 1%R else 0%R.

Definition sizes_eqb (a b : list Z) : bool :=
  if list_eq_dec Z.eq_dec a b then true else false.

Fixpoint map2 {A B C : Type} (f : A -> B -> C) (l1 : list A) (l2 : list B) : list C :=
  match l1, l2 with
  | a :: l1', b :: l2' => f a b :: map2 f l1' l2'
  | _, _ => []
  end.

(** [t *= src] *)
Definition mul_ (mem : Store) (t : TensorRef) (src : list R) : Store :=
  fold_left (fun m '(ix, x) => write_at m t ix (read_at m t ix * x)%R)
            (combine (indices (ref_sizes t)) src) mem.

(** Allocation by a method: the new buffer is appended to [mem]. *)
Definition new_tensor (szs : list Z) (init : list R) : M TensorRef :=
  fun this =>
    let '(t, m) := alloc (mem this) szs init in (Ok t, put_mem m this).

Definition new_zeros (szs : list Z) : M TensorRef :=
  new_tensor szs (repeat 0%R (Z.to_nat (numel_of szs))).

Section Construction.

(** [torch::randn_like]: the values drawn for a tensor of given extents. *)
Variable randn_like : list Z -> list R.

Definition init_parameters (structure_arg : Tensor bool) (parameters : Tensor R)
  (dtype_arg : Dtype) : M unit :=
  n1 <~ lift (size structure_arg 1) ;;
  modify (put_visible_size (to_int32 n1)) ;;;
  n0 <~ lift (size structure_arg 0) ;;
  vs <~ get visible_size ;;
  modify (put_latent_size (to_int32 (n0 - vs))) ;;;
  modify (put_structure structure_arg) ;;;
  modify (put_dtype dtype_arg) ;;;
  ls <~ get latent_size ;;
  TORCH_CHECK (is_cuda structure_arg)
    "`structure` must be a CUDA tensor." ;;;
  TORCH_CHECK (dim structure_arg =? 2)
    "`structure` must be 2-dimensional." ;;;
  TORCH_CHECK (numel structure_arg >? 0)
    "`structure` needs at least one element." ;;;
  TORCH_CHECK (ls >=? 0)
    "`structure` must be a vertical-rectangular matrix." ;;;
  TORCH_CHECK (is_floating dtype_arg)
    "`dtype` must be either float or double." ;;;
  TORCH_CHECK ((numel parameters =? 0)
               || sizes_eqb (sizes parameters) (sizes structure_arg))
    "`parameters` must have the same size as `structure`." ;;;
  let parameters_exist := numel parameters >? 0 in
  let base_sizes := if parameters_exist then sizes parameters
                    else sizes structure_arg in
  let base_values := if parameters_exist then data parameters
                     else map bool_to_R (data structure_arg) in
  let base_device := if parameters_exist then device parameters
                     else device structure_arg in
  modify (put_cuda_device_number
            match base_device with CUDA i => i | CPU => -1 end) ;;;
  w <~ new_tensor base_sizes base_values ;;
  modify (put_weights w) ;;;
  modify (fun this =>
            put_mem (mul_ (mem this) w
                       (if parameters_exist
                        then map bool_to_R (data (structure this))
                        else randn_like base_sizes)) this) ;;;
  cov <~ new_zeros (ref_sizes w) ;;
  modify (put_covariance cov) ;;;
  lam <~ new_zeros (ref_sizes w) ;;
  modify (put_lambda lam) ;;;
  modify (fun this =>
            put_visible_covariance
              (slice_from (covariance this) 0 (latent_size this)) this) ;;;
  wg <~ new_zeros (ref_sizes w) ;;
  modify (put_weights_grad wg) ;;;
  c0 <~ lift (match ref_sizes cov with
              | [c0; _] => Ok c0 | _ => Err (IndexError 0) end) ;;
  c1 <~ lift (match ref_sizes cov with
              | [_; c1] => Ok c1 | _ => Err (IndexError 1) end) ;;
  cg <~ new_zeros [2; c0; c1] ;;
  modify (put_covariance_grad cg) ;;;
  modify (fun this =>
            put_visible_covariance_grad
              (slice_from (covariance_grad this) 1 (latent_size this)) this).

(** [make_structures], as the method that fills the members. *)
Definition make_structures_method : M unit :=
  fun this =>
    match make_structures (structure this) (latent_size this) (visible_size this) with
    | Ok out => (Ok tt, put_structures out this)
    | Err e => (Err e, this)
    end.

(** The constructor (lines 213-248): an exception leaves no object. *)
Definition SEMNANSolver_new (structure_arg : Tensor bool) (parameters : Tensor R)
  (dtype_arg : Dtype) (this0 : Solver) : result Solver :=
  match (init_parameters structure_arg parameters dtype_arg ;;;
         make_structures_method) this0 with
  | (Ok _, this) => Ok this
  | (Err e, _) => Err e
  end.

End Construction.

(** ** The loss (lines 250-301)

    The dense linear algebra is the tensor library's.  Products and traces
    are written out; the inverse and the log-determinant of a square
    matrix are parameters: [inverse_values n d] is the inverse of the
    [n] x [n] matrix with elements [d], if it has one, and
    [logdet_value n d] its log-determinant. *)

Definition matrix_at (n m : Z) (d : list R) (i j : Z) : R :=
  nth (Z.to_nat (i * m + j)) d 0%R.

Definition rsum (f : Z -> R) (n : Z) : R :=
  fold_right (fun i a => (f i + a)%R) 0%R (zrange 0 n).

(** [torch::mm] *)
Definition torch_mm (a b : Tensor R) : result (Tensor R) :=
  match sizes a, sizes b with
  | [n; k], [k'; m] =>
      if k =? k' then
        Ok {| sizes := [n; m];
              data := flat_map
                        (fun i => map (fun j =>
                           rsum (fun l => (matrix_at n k (data a) i l
                                           * matrix_at k m (data b) l j)%R) k)
                           (zrange 0 m))
                        (zrange 0 n);
              device := device a |}
      else Err (CheckFailed "mat1 and mat2 shapes cannot be multiplied")
  | _, _ => Err (CheckFailed "mat1 and mat2 must be matrices")
  end.

(** [torch::trace] *)
Definition torch_trace (a : Tensor R) : result R :=
  match sizes a with
  | [n; m] => Ok (rsum (fun i => matrix_at n m (data a) i i) (Z.min n m))
  | _ => Err (CheckFailed "trace: expected a matrix")
  end.

(** A zero-dimensional tensor and its value. *)
Definition scalar_tensor (x : R) (dev : Device) : Tensor R :=
  {| sizes := []; data := [x]; device := dev |}.

Definition item (t : Tensor R) : R := hd 0%R (data t).

Section Loss.

Variable inverse_values : Z -> list R -> option (list R).
Variable logdet_value : Z -> list R -> R.

(** [torch::inverse] *)
Definition torch_inverse (a : Tensor R) : result (Tensor R) :=
  match sizes a with
  | [n; m] =>
      if n =? m then
        match inverse_values n (data a) with
        | Some d => Ok {| sizes := [n; m]; data := d; device := device a |}
        | None => Err LinAlgError
        end
      else Err (CheckFailed "inverse: A must be batches of square matrices")
  | _ => Err (CheckFailed "inverse: A must have at least 2 dimensions")
  end.

(** [torch::logdet] *)
Definition torch_logdet (a : Tensor R) : result (Tensor R) :=
  match sizes a with
  | [n; m] =>
      if n =? m then Ok (scalar_tensor (logdet_value n (data a)) (device a))
      else Err (CheckFailed "logdet: A must be batches of square matrices")
  | _ => Err (CheckFailed "logdet: A must have at least 2 dimensions")
  end.

(** [visible_covariance], read through the view. *)
Definition visible_covariance_value (this : Solver) : Tensor R :=
  to_value (mem this) (visible_covariance this) (CUDA (cuda_device_number this)).

(** Lines 277-285.  [.to(this->weights.options())] keeps the elements. *)
Definition set_sample_covariance (sample_covariance_arg : Tensor R) : M unit :=
  TORCH_CHECK (dim sample_covariance_arg =? 2)
    "`sample_covariance` must be 2-dimensional." ;;;
  n0 <~ lift (size sample_covariance_arg 0) ;;
  n1 <~ lift (size sample_covariance_arg 1) ;;
  TORCH_CHECK (n0 =? n1)
    "`sample_covariance` must be a square matrix." ;;;
  vs <~ get visible_size ;;
  TORCH_CHECK (n0 =? vs)
    "`sample_covariance` has the wrong size." ;;;
  modify (fun this =>
            put_sample_covariance
              {| sizes := sizes sample_covariance_arg;
                 data := data sample_covariance_arg;
                 device := CUDA (cuda_device_number this) |} this).

(** Lines 288-293. *)
Definition get_sample_covariance_inv : M (Tensor R) :=
  fun this =>
    if numel (sample_covariance_inv this) =? 0 then
      match torch_inverse (sample_covariance this) with
      | Ok inv => (Ok inv, put_sample_covariance_inv inv this)
      | Err e => (Err e, this)
      end
    else (Ok (sample_covariance_inv this), this).

(** Lines 296-301. *)
Definition get_sample_covariance_logdet : M (Tensor R) :=
  fun this =>
    if numel (sample_covariance_logdet this) =? 0 then
      match torch_logdet (sample_covariance this) with
      | Ok ld => (Ok ld, put_sample_covariance_logdet ld this)
      | Err e => (Err e, this)
      end
    else (Ok (sample_covariance_logdet this), this).

(** Lines 251-256. *)
Definition kullback_leibler_proxy_loss : M R :=
  inv <~ get_sample_covariance_inv ;;
  vc <~ get visible_covariance_value ;;
  prod <~ lift (torch_mm inv vc) ;;
  tr <~ lift (torch_trace prod) ;;
  ld <~ lift (torch_logdet vc) ;;
  ret (tr - item ld)%R.

(** Lines 259-266. *)
Definition kullback_leibler_loss : M R :=
  proxy <~ kullback_leibler_proxy_loss ;;
  vs <~ get visible_size ;;
  ld <~ get_sample_covariance_logdet ;;
  ret ((proxy - IZR vs + item ld) / 2)%R.

(** Lines 269-274. *)
Definition kullback_leibler_loss_backward : M unit :=
  grad <~ (fun this =>
             (select (visible_covariance_grad this)
                     (Z.rem (num_layers this + 1) 2), this)) ;;
  inv <~ get_sample_covariance_inv ;;
  modify (fun this => put_mem (copy_ (mem this) grad inv) this) ;;;
  vc <~ get visible_covariance_value ;;
  vinv <~ lift (torch_inverse vc) ;;
  modify (fun this => put_mem (subtract_ (mem this) grad vinv) this).

(** The kernels of [semnan_cuda_forward] and [semnan_cuda_backward] are
    declared in the source and defined elsewhere: they rewrite the
    buffers. *)
Variable semnan_cuda_forward : list SEMNANLayerData -> Solver -> Store.
Variable semnan_cuda_backward : list SEMNANLayerData -> Solver -> Store.

(** Lines 304-310. *)
Definition forward : M unit :=
  dt <~ get dtype ;;
  TORCH_CHECK (is_floating dt) "forward: not implemented for this dtype" ;;;
  modify (fun this =>
            put_mem (semnan_cuda_forward (layers_vec (structures this)) this) this).

(** Lines 313-320. *)
Definition backward : M unit :=
  dt <~ get dtype ;;
  TORCH_CHECK (is_floating dt) "backward: not implemented for this dtype" ;;;
  kullback_leibler_loss_backward ;;;
  modify (fun this =>
            put_mem (semnan_cuda_backward (layers_vec (structures this)) this) this).

End Loss.

(** Lines 323-340: the accessors return the members themselves. *)
Definition get_weights : M TensorRef := get weights.
Definition get_covariance : M TensorRef := get covariance.
Definition get_visible_covariance : M TensorRef := get visible_covariance.
Definition get_lambda : M TensorRef := get lambda.

(** * Basic facts: ranges, vectors, folds *)

Lemma zrange_nil lo hi : hi <= lo -> zrange lo hi = [].
Proof.
  intros H. unfold zrange.
  replace (Z.to_nat (hi - lo)) with 0%nat by lia. reflexivity.
Qed.

Lemma zrange_cons lo hi : lo < hi -> zrange lo hi = lo :: zrange (lo + 1) hi.
Proof.
  intros H. unfold zrange.
  replace (Z.to_nat (hi - lo)) with (S (Z.to_nat (hi - (lo + 1)))) by lia.
  simpl. f_equal; [lia|].
  rewrite <- seq_shift, map_map. apply map_ext. intros; lia.
Qed.

Lemma zrange_snoc lo hi : lo <= hi -> zrange lo (hi + 1) = zrange lo hi ++ [hi].
Proof.
  intros H. unfold zrange.
  replace (Z.to_nat (hi + 1 - lo)) with (Z.to_nat (hi - lo) + 1)%nat by lia.
  rewrite seq_app, map_app. simpl. do 2 f_equal. lia.
Qed.

Lemma in_zrange lo hi x : In x (zrange lo hi) <-> lo <= x < hi.
Proof.
  unfold zrange. rewrite in_map_iff. split.
  - intros (i & <- & Hi). apply in_seq in Hi. lia.
  - intros H. exists (Z.to_nat (x - lo)). split; [lia|]. apply in_seq. lia.
Qed.

Lemma zrange_NoDup lo hi : NoDup (zrange lo hi).
Proof.
  unfold zrange. generalize (Z.to_nat (hi - lo)). intros n.
  assert (G : forall k, NoDup (map (fun i => lo + Z.of_nat i) (seq k n))).
  { induction n as [|n IH]; intros k; simpl; constructor; auto.
    rewrite in_map_iff. intros (i & Hi & Hin). apply in_seq in Hin. lia. }
  apply G.
Qed.

Lemma zrange_length lo hi : length (zrange lo hi) = Z.to_nat (hi - lo).
Proof. unfold zrange. now rewrite length_map, length_seq. Qed.

Lemma foldM_app {S X} (f : S -> X -> result S) xs ys s :
  foldM f (xs ++ ys) s = (s' <- foldM f xs s ;; foldM f ys s').
Proof.
  revert s. induction xs as [|x xs IH]; intros s; simpl; [reflexivity|].
  destruct (f s x); simpl; auto.
Qed.

(** The loop rule: an invariant indexed by the next index to visit. *)
Lemma foldM_zrange_inv {S} (f : S -> Z -> result S) (P : Z -> S -> Prop) lo hi s :
  lo <= hi ->
  P lo s ->
  (forall k t, lo <= k < hi -> P k t -> exists t', f t k = Ok t' /\ P (k + 1) t') ->
  exists s', foldM f (zrange lo hi) s = Ok s' /\ P hi s'.
Proof.
  intros Hle H0 Hstep.
  remember (Z.to_nat (hi - lo)) as n eqn:Hn.
  revert lo s Hle H0 Hstep Hn.
  induction n as [|n IH]; intros lo s Hle H0 Hstep Hn.
  - assert (lo = hi) by lia. subst. rewrite zrange_nil by lia. simpl. eauto.
  - rewrite zrange_cons by lia. simpl.
    destruct (Hstep lo s ltac:(lia) H0) as (t' & -> & Ht'). simpl.
    apply IH; try lia; auto.
    intros k t Hk. apply Hstep. lia.
Qed.

(** The same rule over the elements of a list, with the visited prefix. *)
Lemma foldM_list_inv {S X} (f : S -> X -> result S) (P : list X -> S -> Prop) xs s :
  P [] s ->
  (forall pre x post t, xs = pre ++ x :: post -> P pre t ->
     exists t', f t x = Ok t' /\ P (pre ++ [x]) t') ->
  exists s', foldM f xs s = Ok s' /\ P xs s'.
Proof.
  intros H0 Hstep.
  assert (G : forall post pre t, xs = pre ++ post -> P pre t ->
                exists s', foldM f post t = Ok s' /\ P xs s').
  { induction post as [|x post IH]; intros pre t Hxs Hp.
    - rewrite app_nil_r in Hxs. subst. simpl. eauto.
    - destruct (Hstep pre x post t Hxs Hp) as (t' & Ht' & Hp'). simpl.
      rewrite Ht'. simpl. apply (IH (pre ++ [x])); auto.
      rewrite <- app_assoc. exact Hxs. }
  apply (G xs [] s); auto.
Qed.

Lemma list_set_length {A} (l : list A) n x : length (list_set l n x) = length l.
Proof.
  revert n. induction l as [|h t IH]; intros [|n]; simpl; auto.
Qed.

Lemma nth_error_list_set_eq {A} (l : list A) n x :
  (n < length l)%nat -> nth_error (list_set l n x) n = Some x.
Proof.
  revert n. induction l as [|h t IH]; intros [|n] H; simpl in *; try lia; auto.
  apply IH. lia.
Qed.

Lemma nth_error_list_set_neq {A} (l : list A) n m x :
  n <> m -> nth_error (list_set l n x) m = nth_error l m.
Proof.
  revert n m. induction l as [|h t IH]; intros [|n] [|m] H; simpl; auto.
  congruence.
Qed.

Lemma nth_error_list_set {A} (l : list A) n m x :
  nth_error (list_set l n x) m =
  if Nat.eqb n m then option_map (fun _ => x) (nth_error l m) else nth_error l m.
Proof.
  destruct (Nat.eqb_spec n m) as [->|Hne].
  - destruct (Nat.lt_ge_cases m (length l)) as [Hlt|Hge].
    + rewrite nth_error_list_set_eq by auto.
      destruct (nth_error l m) eqn:E; [reflexivity|].
      apply nth_error_None in E. lia.
    + assert (E : nth_error l m = None) by (apply nth_error_None; lia).
      rewrite E. apply nth_error_None. rewrite list_set_length. lia.
  - apply nth_error_list_set_neq; auto.
Qed.

Lemma list_set_app_last {A} (l : list A) a x :
  list_set (l ++ [a]) (length l) x = l ++ [x].
Proof. induction l as [|h t IH]; simpl; [reflexivity|]. now rewrite IH. Qed.

Lemma zlength_app {A} (l1 l2 : list A) : zlength (l1 ++ l2) = zlength l1 + zlength l2.
Proof. unfold zlength. rewrite length_app. lia. Qed.

Lemma zlength_nonneg {A} (l : list A) : 0 <= zlength l.
Proof. unfold zlength. lia. Qed.

Lemma vec_get_ok {A} (v : list A) i :
  0 <= i < zlength v ->
  exists a, nth_error v (Z.to_nat i) = Some a /\ vec_get v i = Ok a.
Proof.
  intros H. unfold vec_get.
  destruct (Z.leb_spec 0 i); [|lia]. destruct (Z.ltb_spec i (zlength v)); [|lia].
  simpl. destruct (nth_error v (Z.to_nat i)) eqn:E; eauto.
  apply nth_error_None in E. unfold zlength in *. lia.
Qed.

Lemma vec_get_inv {A} (v : list A) i a :
  vec_get v i = Ok a -> 0 <= i < zlength v /\ nth_error v (Z.to_nat i) = Some a.
Proof.
  unfold vec_get.
  destruct (Z.leb_spec 0 i); simpl; [|discriminate].
  destruct (Z.ltb_spec i (zlength v)); simpl; [|discriminate].
  destruct (nth_error v (Z.to_nat i)); [|discriminate].
  intros [= ->]. auto.
Qed.

Lemma vec_get_oob {A} (v : list A) i :
  ~ (0 <= i < zlength v) -> vec_get v i = Err (OutOfBounds i).
Proof.
  intros H. unfold vec_get.
  destruct (Z.leb_spec 0 i); simpl; auto.
  destruct (Z.ltb_spec i (zlength v)); simpl; auto. lia.
Qed.

Lemma vec_modify_ok {A} (v : list A) i f :
  0 <= i < zlength v ->
  exists a, nth_error v (Z.to_nat i) = Some a /\
            vec_modify v i f = Ok (list_set v (Z.to_nat i) (f a)).
Proof.
  intros H. destruct (vec_get_ok v i H) as (a & Ha & Hg).
  exists a. split; auto. unfold vec_modify. now rewrite Hg.
Qed.

Lemma wrap_index_ok n i : 0 <= i < n -> wrap_index n i = Ok i.
Proof.
  intros H. unfold wrap_index.
  destruct (Z.leb_spec (- n) i); [|lia]. destruct (Z.ltb_spec i n); [|lia].
  simpl. destruct (Z.ltb_spec i 0); [lia|reflexivity].
Qed.

Lemma tensor_get_ok {A} (t : list A) i :
  0 <= i < zlength t ->
  exists a, nth_error t (Z.to_nat i) = Some a /\ tensor_get t i = Ok a.
Proof.
  intros H. unfold tensor_get. rewrite wrap_index_ok by auto. simpl.
  destruct (nth_error t (Z.to_nat i)) eqn:E; eauto.
  apply nth_error_None in E. unfold zlength in *. lia.
Qed.

Lemma tensor_set_ok {A} (t : list A) i x :
  0 <= i < zlength t -> tensor_set t i x = Ok (list_set t (Z.to_nat i) x).
Proof. intros H. unfold tensor_set. now rewrite wrap_index_ok. Qed.

Lemma zlength_list_set {A} (l : list A) n x : zlength (list_set l n x) = zlength l.
Proof. unfold zlength. now rewrite list_set_length. Qed.

Lemma zlength_repeat {A} (a : A) n : zlength (repeat a n) = Z.of_nat n.
Proof. unfold zlength. now rewrite repeat_length. Qed.

(** * Specification-level notions *)

(** The offsets of a list of runs laid out one after another from [b]. *)
Fixpoint offsets_from (b : Z) (xss : list (list Z)) : list Z :=
  b :: match xss with
       | [] => []
       | xs :: rest => offsets_from (b + zlength xs) rest
       end.

Lemma offsets_from_length b xss : length (offsets_from b xss) = S (length xss).
Proof.
  revert b. induction xss as [|xs r IH]; intros b; simpl; auto.
Qed.

Lemma offsets_from_snoc b xss xs :
  offsets_from b (xss ++ [xs]) =
  offsets_from b xss ++ [b + zlength (concat (xss ++ [xs]))].
Proof.
  revert b. induction xss as [|ys r IH]; intros b; simpl.
  - rewrite app_nil_r. reflexivity.
  - rewrite IH. simpl. rewrite (zlength_app ys). do 3 f_equal. lia.
Qed.

Lemma offsets_from_lower b xss : Forall (fun x => b <= x) (offsets_from b xss).
Proof.
  revert b. induction xss as [|xs r IH]; intros b; simpl.
  - constructor; [lia|constructor].
  - constructor; [lia|].
    eapply Forall_impl; [|apply IH]. simpl. intros a Ha.
    pose proof (zlength_nonneg xs). lia.
Qed.

Lemma offsets_from_upper b xss :
  Forall (fun x => x <= b + zlength (concat xss)) (offsets_from b xss).
Proof.
  revert b. induction xss as [|xs r IH]; intros b; simpl.
  - constructor; [unfold zlength; simpl; lia|constructor].
  - rewrite zlength_app. constructor.
    + pose proof (zlength_nonneg xs). pose proof (zlength_nonneg (concat r)). lia.
    + eapply Forall_impl; [|apply IH]. simpl. intros a Ha. lia.
Qed.

Lemma offsets_from_sorted b xss : StronglySorted Z.le (offsets_from b xss).
Proof.
  revert b. induction xss as [|xs r IH]; intros b; simpl.
  - constructor; constructor.
  - constructor; [apply IH|].
    eapply Forall_impl; [|apply offsets_from_lower]. simpl. intros a Ha.
    pose proof (zlength_nonneg xs). lia.
Qed.

Lemma offsets_from_last b xss :
  last (offsets_from b xss) 0 = b + zlength (concat xss).
Proof.
  revert b. induction xss as [|xs r IH]; intros b.
  - simpl. unfold zlength. simpl. lia.
  - change (offsets_from b (xs :: r)) with (b :: offsets_from (b + zlength xs) r).
    assert (E : offsets_from (b + zlength xs) r <> []).
    { destruct r; simpl; discriminate. }
    destruct (offsets_from (b + zlength xs) r) eqn:Eo; [congruence|].
    change (last (b :: z :: l) 0) with (last (z :: l) 0).
    rewrite <- Eo, IH. simpl. rewrite zlength_app. lia.
Qed.

(** * Writing runs into a zero-initialised buffer *)

Lemma list_set_app_mid {A} (pre : list A) r rest x :
  list_set (pre ++ r :: rest) (length pre) x = pre ++ x :: rest.
Proof. induction pre as [|h t IH]; simpl; [reflexivity|]. now rewrite IH. Qed.

Lemma list_set_app_at {A} (pre : list A) r rest n x :
  length pre = n -> list_set (pre ++ r :: rest) n x = pre ++ x :: rest.
Proof. intros <-. apply list_set_app_mid. Qed.

Lemma write_run_ok xs : forall pre rest i,
  zlength pre = i -> (length xs <= length rest)%nat ->
  write_run (pre ++ rest, i) xs =
  Ok (pre ++ xs ++ skipn (length xs) rest, i + zlength xs).
Proof.
  unfold write_run.
  induction xs as [|x xs IH]; intros pre rest i Hi Hlen.
  - simpl. do 2 f_equal. unfold zlength. simpl. lia.
  - destruct rest as [|r rest]; [simpl in Hlen; lia|].
    simpl foldM.
    rewrite tensor_set_ok.
    2:{ rewrite zlength_app. unfold zlength in *. simpl. lia. }
    simpl bind.
    replace (Z.to_nat i) with (length pre) by (unfold zlength in Hi; lia).
    rewrite list_set_app_mid.
    replace (pre ++ x :: rest) with ((pre ++ [x]) ++ rest)
      by (rewrite <- app_assoc; reflexivity).
    rewrite IH.
    + rewrite <- app_assoc. simpl. do 2 f_equal.
      unfold zlength. simpl length. lia.
    + rewrite zlength_app. unfold zlength in *. simpl. lia.
    + simpl in Hlen. lia.
Qed.

Lemma skipn_repeat {A} (a : A) n m : skipn n (repeat a m) = repeat a (m - n).
Proof.
  revert m. induction n as [|n IH]; intros m; simpl.
  - now rewrite Nat.sub_0_r.
  - destruct m; simpl; auto.
Qed.

Lemma write_run_zeros xs pre n i :
  zlength pre = i -> zlength xs <= n ->
  write_run (pre ++ zeros n, i) xs =
  Ok ((pre ++ xs) ++ zeros (n - zlength xs), i + zlength xs).
Proof.
  intros Hi Hn. rewrite write_run_ok; auto.
  - unfold zeros. rewrite skipn_repeat, <- app_assoc.
    replace (Z.to_nat n - length xs)%nat with (Z.to_nat (n - zlength xs))
      by (unfold zlength in *; lia).
    reflexivity.
  - unfold zeros. rewrite repeat_length. unfold zlength in Hn. lia.
Qed.

Lemma zeros_cons n : 0 < n -> zeros n = 0 :: zeros (n - 1).
Proof.
  intros H. unfold zeros.
  replace (Z.to_nat n) with (S (Z.to_nat (n - 1))) by lia. reflexivity.
Qed.

Lemma zlength_zeros n : 0 <= n -> zlength (zeros n) = n.
Proof. intros H. unfold zeros. rewrite zlength_repeat. lia. Qed.

(** Storing the next offset after the offsets written so far. *)
Lemma tensor_set_next (offs : list Z) n k x :
  zlength offs = k -> 0 < n -> 0 <= k ->
  tensor_set (offs ++ zeros n) k x = Ok ((offs ++ [x]) ++ zeros (n - 1)).
Proof.
  intros Hk Hn Hk0.
  rewrite tensor_set_ok.
  2:{ rewrite zlength_app, zlength_zeros by lia. lia. }
  f_equal. rewrite (zeros_cons n) by lia.
  replace (Z.to_nat k) with (length offs) by (unfold zlength in Hk; lia).
  rewrite list_set_app_mid, <- app_assoc. reflexivity.
Qed.

Lemma firstn_succ_nth_error {A} (l : list A) n x :
  nth_error l n = Some x -> firstn (S n) l = firstn n l ++ [x].
Proof.
  revert n. induction l as [|h t IH]; intros [|n] H; simpl in *; try discriminate.
  - now inversion H.
  - f_equal. auto.
Qed.

Lemma concat_firstn_le {A} (l : list (list A)) n x :
  nth_error l n = Some x ->
  zlength (concat (firstn n l)) + zlength x <= zlength (concat l).
Proof.
  intros H. destruct (nth_error_split l n H) as (l1 & l2 & -> & <-).
  rewrite firstn_app, Nat.sub_diag, firstn_all. simpl. rewrite app_nil_r.
  rewrite concat_app. simpl. rewrite !zlength_app.
  pose proof (zlength_nonneg (concat l2)). lia.
Qed.

Lemma concat_snoc {A} (l : list (list A)) x : concat (l ++ [x]) = concat l ++ x.
Proof. rewrite concat_app. simpl. now rewrite app_nil_r. Qed.

(** ** The parents in CSR form *)

Lemma make_parents_ok V (s : Scan) :
  0 <= V ->
  zlength (parents_vec s) = V ->
  edge_count s = zlength (concat (parents_vec s)) ->
  make_parents V s =
  Ok (concat (parents_vec s), offsets_from 0 (parents_vec s)).
Proof.
  intros HV Hlen Hcount. unfold make_parents.
  set (pvs := parents_vec s) in *.
  set (step := fun '(ps, bases, i) c => _).
  pose (P := fun (k : Z) (st : list Z * list Z * Z) =>
          let done := firstn (Z.to_nat k) pvs in
          st = (concat done ++ zeros (edge_count s - zlength (concat done)),
                offsets_from 0 done ++ zeros (V - k),
                zlength (concat done))).
  destruct (foldM_zrange_inv step P 0 V
              (zeros (edge_count s), zeros (V + 1), 0)) as (st & -> & Hst); auto.
  - unfold P. simpl. rewrite Z.sub_0_r.
    change (zlength (@nil Z)) with 0. rewrite Z.sub_0_r.
    rewrite (zeros_cons (V + 1)) by lia.
    replace (V + 1 - 1) with V by lia. reflexivity.
  - intros k t Hk Ht. unfold P in Ht. simpl in Ht. subst t.
    destruct (vec_get_ok pvs k) as (pv & Hpv & Hget); [lia|].
    unfold step. rewrite Hget. simpl bind.
    pose proof (concat_firstn_le _ _ _ Hpv) as Hroom.
    rewrite write_run_zeros; [|reflexivity|lia]. simpl bind.
    rewrite tensor_set_next.
    2:{ unfold zlength. rewrite offsets_from_length, length_firstn.
        unfold zlength in Hlen. lia. }
    2:lia. 2:lia.
    simpl bind. eexists; split; [reflexivity|].
    unfold P. simpl.
    replace (Z.to_nat (k + 1)) with (S (Z.to_nat k)) by lia.
    rewrite (firstn_succ_nth_error _ _ _ Hpv).
    rewrite offsets_from_snoc, concat_snoc, zlength_app.
    rewrite !Z.sub_add_distr, Z.add_0_l. reflexivity.
  - unfold P in Hst. simpl in Hst. subst st. simpl.
    replace (Z.to_nat V) with (length pvs) by (unfold zlength in Hlen; lia).
    rewrite firstn_all, <- Hcount, !Z.sub_diag. unfold zeros. simpl.
    now rewrite !app_nil_r.
Qed.

(** ** The children in CSR form *)

(** The buckets of row [r], one per layer. *)
Definition row_buckets (cv : list (list (list Z))) (r : nat) : list (list Z) :=
  map (fun bucket => nth r bucket []) cv.

Definition children_flat (cv : list (list (list Z))) (rows : list nat) : list Z :=
  concat (map (fun r => concat (row_buckets cv r)) rows).

Fixpoint children_rows (b : Z) (cv : list (list (list Z))) (rows : list nat)
  : list (list Z) :=
  match rows with
  | [] => []
  | r :: rest =>
      offsets_from b (row_buckets cv r)
      :: children_rows (b + zlength (concat (row_buckets cv r))) cv rest
  end.

Lemma children_flat_snoc cv rows r :
  children_flat cv (rows ++ [r]) = children_flat cv rows ++ concat (row_buckets cv r).
Proof.
  unfold children_flat. rewrite map_app.
  change (map (fun r0 => concat (row_buckets cv r0)) [r])
    with [concat (row_buckets cv r)].
  apply concat_snoc.
Qed.

Lemma children_rows_snoc b cv rows r :
  children_rows b cv (rows ++ [r]) =
  children_rows b cv rows ++
  [offsets_from (b + zlength (children_flat cv rows)) (row_buckets cv r)].
Proof.
  revert b. induction rows as [|r0 rows IH]; intros b; simpl.
  - unfold children_flat. simpl. change (zlength (@nil Z)) with 0.
    now rewrite Z.add_0_r.
  - rewrite IH. unfold children_flat. simpl. rewrite zlength_app.
    now rewrite Z.add_assoc.
Qed.

Lemma children_rows_length b cv rows : length (children_rows b cv rows) = length rows.
Proof. revert b. induction rows; intros b; simpl; auto. Qed.

Lemma list_set_twice {A} (l : list A) n x y :
  list_set (list_set l n x) n y = list_set l n y.
Proof.
  revert n. induction l as [|h t IH]; intros [|n]; simpl; auto.
  now rewrite IH.
Qed.

Lemma tensor_set2_ok {A} (t : list (list A)) r c x row :
  0 <= r < zlength t -> nth_error t (Z.to_nat r) = Some row ->
  0 <= c < zlength row ->
  tensor_set2 t r c x =
  Ok (list_set t (Z.to_nat r) (list_set row (Z.to_nat c) x)).
Proof.
  intros Hr Hrow Hc. unfold tensor_set2.
  destruct (tensor_get_ok t r Hr) as (row' & Hrow' & ->).
  assert (row' = row) by congruence. subst row'. simpl.
  rewrite tensor_set_ok by auto. simpl. now rewrite tensor_set_ok.
Qed.

Lemma make_children_row_ok L (s : Scan) n p pre m bases :
  let r := Z.to_nat (p + L) in
  let bs := row_buckets (children_vec s) r in
  0 <= p + L ->
  zlength (children_vec s) = n - 1 ->
  Forall (fun b => p + L < zlength b) (children_vec s) ->
  zlength (concat bs) <= m ->
  (r < length bases)%nat ->
  make_children_row L s p
    (pre ++ zeros m, list_set bases r (zlength pre :: zeros (n - 1)), zlength pre) =
  Ok ((pre ++ concat bs) ++ zeros (m - zlength (concat bs)),
      list_set bases r (offsets_from (zlength pre) bs),
      zlength pre + zlength (concat bs)).
Proof.
  intros r bs Hr Hn Hshape Hroom Hrb. unfold make_children_row.
  set (cv := children_vec s) in *.
  set (step := fun '(cs, bases, i) l => _).
  pose (P := fun (k : Z) (st : list Z * list (list Z) * Z) =>
          let done := firstn (Z.to_nat k) bs in
          st = ((pre ++ concat done) ++ zeros (m - zlength (concat done)),
                list_set bases r
                  (offsets_from (zlength pre) done ++ zeros (n - 1 - k)),
                zlength pre + zlength (concat done))).
  pose proof (zlength_nonneg cv) as Hcv0.
  destruct (foldM_zrange_inv step P 0 (zlength cv)
              (pre ++ zeros m, list_set bases r (zlength pre :: zeros (n - 1)),
               zlength pre)) as (st & -> & Hst); auto.
  - unfold P. simpl. change (zlength (@nil Z)) with 0.
    rewrite app_nil_r, !Z.sub_0_r, Z.add_0_r. reflexivity.
  - intros k t Hk Ht. unfold P in Ht. simpl in Ht. subst t.
    destruct (vec_get_ok cv k) as (bucket & Hbucket & Hget); [lia|].
    unfold step. rewrite Hget. simpl bind.
    assert (Hb : p + L < zlength bucket).
    { rewrite Forall_forall in Hshape. apply Hshape.
      eapply nth_error_In; eauto. }
    destruct (vec_get_ok bucket (p + L)) as (row & Hrow & Hget'); [lia|].
    rewrite Hget'. simpl bind.
    assert (Hbs : nth_error bs (Z.to_nat k) = Some row).
    { unfold bs, row_buckets. rewrite nth_error_map, Hbucket. simpl.
      f_equal. apply nth_error_nth. exact Hrow. }
    pose proof (concat_firstn_le _ _ _ Hbs) as Hle.
    rewrite write_run_zeros; [|now rewrite zlength_app|lia]. simpl bind.
    assert (Hoffs : zlength (offsets_from (zlength pre) (firstn (Z.to_nat k) bs)) = k + 1).
    { unfold zlength. rewrite offsets_from_length, length_firstn.
      assert (length bs = length cv) by (unfold bs, row_buckets; apply length_map).
      unfold zlength in Hk. lia. }
    erewrite tensor_set2_ok.
    2:{ rewrite zlength_list_set. unfold zlength. lia. }
    2:{ replace (Z.to_nat (p + L)) with r by reflexivity.
        apply nth_error_list_set_eq. exact Hrb. }
    2:{ rewrite zlength_app, Hoffs, zlength_zeros by lia. lia. }
    simpl bind. eexists; split; [reflexivity|].
    unfold P. simpl.
    replace (Z.to_nat (k + 1)) with (S (Z.to_nat k)) by lia.
    rewrite (firstn_succ_nth_error _ _ _ Hbs).
    rewrite offsets_from_snoc, !concat_snoc, !zlength_app.
    replace (Z.to_nat (p + L)) with r by reflexivity.
    rewrite list_set_twice.
    replace (S (Z.to_nat k)) with (length (offsets_from (zlength pre) (firstn (Z.to_nat k) bs))).
    2:{ clear - Hoffs Hk. unfold zlength in *. lia. }
    rewrite (zeros_cons (n - 1 - k)) by lia.
    rewrite list_set_app_mid.
    rewrite <- !app_assoc. simpl.
    rewrite !Z.sub_add_distr, !Z.add_assoc. reflexivity.
  - unfold P in Hst. simpl in Hst. subst st.
    replace (Z.to_nat (zlength cv)) with (length bs).
    2:{ unfold bs, row_buckets. rewrite length_map. unfold zlength. lia. }
    rewrite firstn_all.
    replace (n - 1 - zlength cv) with 0 by lia.
    unfold zeros at 2. simpl. rewrite app_nil_r. reflexivity.
Qed.

Lemma children_flat_app cv rows1 rows2 :
  children_flat cv (rows1 ++ rows2) = children_flat cv rows1 ++ children_flat cv rows2.
Proof. unfold children_flat. now rewrite map_app, concat_app. Qed.

Lemma children_flat_room cv r n :
  (r < n)%nat ->
  zlength (children_flat cv (seq 0 r)) + zlength (concat (row_buckets cv r))
  <= zlength (children_flat cv (seq 0 n)).
Proof.
  intros H.
  replace n with (S r + (n - S r))%nat by lia.
  rewrite seq_app, seq_S, children_flat_app, children_flat_snoc, !zlength_app.
  simpl. pose proof (zlength_nonneg (children_flat cv (seq (S r) (n - S r)))). lia.
Qed.

Lemma repeat_cons_pos {A} (a : A) n : (0 < n)%nat -> repeat a n = a :: repeat a (n - 1).
Proof. destruct n; [lia|]. simpl. now rewrite Nat.sub_0_r. Qed.

Lemma make_children_ok L V (s : Scan) n :
  let cv := children_vec s in
  let rows := seq 0 (Z.to_nat (L + V)) in
  0 <= L -> 0 <= V -> 1 <= n ->
  zlength cv = n - 1 ->
  Forall (fun b => zlength b = L + V) cv ->
  edge_count s = zlength (children_flat cv rows) ->
  make_children L V s n = Ok (children_flat cv rows, children_rows 0 cv rows).
Proof.
  intros cv rows HL HV Hn Hcv Hshape Hcount. unfold make_children.
  set (step := fun '(cs, bases, i) p => _).
  pose (P := fun (k : Z) (st : list Z * list (list Z) * Z) =>
          let done := seq 0 (Z.to_nat (k + L)) in
          st = (children_flat cv done
                  ++ zeros (edge_count s - zlength (children_flat cv done)),
                children_rows 0 cv done ++ repeat (zeros n) (Z.to_nat (V - k)),
                zlength (children_flat cv done))).
  destruct (foldM_zrange_inv step P (- L) V
              (zeros (edge_count s),
               repeat (zeros n) (Z.to_nat (total_size L V)), 0))
    as (st & -> & Hst); try lia.
  - unfold P, total_size. simpl.
    replace (- L + L) with 0 by lia. simpl.
    unfold children_flat. simpl. change (zlength (@nil Z)) with 0.
    rewrite Z.sub_0_r. do 3 f_equal. lia.
  - intros k t Hk Ht. unfold P in Ht. simpl in Ht. subst t.
    set (r := Z.to_nat (k + L)).
    set (done := seq 0 r).
    unfold step.
    assert (Hlen : length (children_rows 0 cv done) = r).
    { rewrite children_rows_length. unfold done. apply length_seq. }
    rewrite (repeat_cons_pos _ (Z.to_nat (V - k))) by lia.
    erewrite tensor_set2_ok.
    2:{ rewrite zlength_app. unfold zlength. simpl length. lia. }
    2:{ rewrite nth_error_app2 by (fold r; lia).
        fold r. rewrite Hlen, Nat.sub_diag. reflexivity. }
    2:{ rewrite zlength_zeros; lia. }
    simpl bind. fold r.
    replace (list_set (zeros n) 0 (zlength (children_flat cv done)))
      with (zlength (children_flat cv done) :: zeros (n - 1))
      by (rewrite (zeros_cons n) by lia; reflexivity).
    pose proof (children_flat_room cv r (Z.to_nat (L + V)) ltac:(lia)) as Hroom.
    fold rows in Hroom. fold done in Hroom.
    rewrite (make_children_row_ok L s n k (children_flat cv done)); auto; try lia.
    + eexists; split; [reflexivity|].
      unfold P. simpl.
      replace (Z.to_nat (k + 1 + L)) with (S r) by (unfold r; lia).
      rewrite seq_S. simpl. fold done.
      rewrite children_flat_snoc, children_rows_snoc, zlength_app.
      fold cv. fold r. rewrite (list_set_app_at _ _ _ _ _ Hlen).
      rewrite <- !app_assoc. simpl.
      replace (Z.to_nat (V - (k + 1))) with (Z.to_nat (V - k) - 1)%nat by lia.
      rewrite !Z.sub_add_distr. reflexivity.
    + eapply Forall_impl; [|exact Hshape]. simpl. intros b Hb. lia.
    + fold cv. fold r. rewrite Hcount. lia.
    + fold r. rewrite length_app. simpl. lia.
  - unfold P in Hst. simpl in Hst. subst st. simpl.
    replace (Z.to_nat (V + L)) with (Z.to_nat (L + V)) by lia. fold rows.
    rewrite <- Hcount, Z.sub_diag, Z.sub_diag. unfold zeros. simpl.
    now rewrite !app_nil_r.
Qed.

(** ** The latent neighbours *)

(** A presence range [(lo, hi)] covers the layers [lo .. hi]. *)
Definition covers (r : Z * Z) (l : Z) : bool := (fst r <=? l) && (l <=? snd r).

(** The presence range of latent [v] ([-L <= v < 0]). *)
Definition range_of (ranges : list (Z * Z)) (L v : Z) : Z * Z :=
  nth (Z.to_nat (v + L)) ranges (-1, -1).

(** The latents below [hi] whose presence range covers layer [l]. *)
Definition neighbors_of (ranges : list (Z * Z)) (L hi l : Z) : list Z :=
  filter (fun v => covers (range_of ranges L v) l) (zrange (- L) hi).

(** Every layer record with the latent width taken from its neighbour list. *)
Definition with_lat_width (layers : list SEMNANLayerData) (nv : list (list Z))
  : list SEMNANLayerData :=
  map (fun '(ly, vs) => set_lat_width (zlength vs) ly) (combine layers nv).

Lemma nth_error_zrange lo hi j :
  nth_error (zrange lo hi) j =
  if (j <? Z.to_nat (hi - lo))%nat then Some (lo + Z.of_nat j) else None.
Proof.
  unfold zrange. rewrite nth_error_map, nth_error_seq.
  destruct (j <? Z.to_nat (hi - lo))%nat; reflexivity.
Qed.

Lemma list_set_map_zrange {A} (g : Z -> A) n k x :
  0 <= k ->
  list_set (map g (zrange 0 n)) (Z.to_nat k) x =
  map (fun i => if i =? k then x else g i) (zrange 0 n).
Proof.
  intros Hk. apply nth_error_ext. intros j.
  rewrite nth_error_list_set, !nth_error_map, nth_error_zrange.
  destruct (j <? Z.to_nat (n - 0))%nat; simpl.
  - destruct (Nat.eqb_spec (Z.to_nat k) j) as [E|E];
      destruct (Z.eqb_spec (Z.of_nat j) k); try reflexivity; lia.
  - destruct (Nat.eqb (Z.to_nat k) j); reflexivity.
Qed.

Lemma list_as_map_zrange {A} (l : list A) (d : A) :
  l = map (fun i => nth (Z.to_nat i) l d) (zrange 0 (zlength l)).
Proof.
  apply nth_error_ext. intros j.
  rewrite nth_error_map, nth_error_zrange.
  replace (Z.to_nat (zlength l - 0)) with (length l) by (unfold zlength; lia).
  destruct (Nat.ltb_spec j (length l)) as [H|H]; simpl.
  - replace (Z.to_nat (Z.of_nat j)) with j by lia.
    apply nth_error_nth'. exact H.
  - apply nth_error_None. exact H.
Qed.

Lemma concat_list_set_length {A} (l : list (list A)) n a b :
  nth_error l n = Some a ->
  zlength (concat (list_set l n b)) = zlength (concat l) - zlength a + zlength b.
Proof.
  intros H. destruct (nth_error_split l n H) as (l1 & l2 & -> & <-).
  rewrite list_set_app_mid, !concat_app. simpl. rewrite !zlength_app. lia.
Qed.

Lemma spread_range_ok v (g : Z -> list Z) n lo hi count :
  0 <= lo <= hi -> hi <= n ->
  exists nv',
    foldM (fun '(nv, count) l =>
             nv' <- vec_modify nv l (fun vs => vs ++ [v]) ;;
             Ok (nv', count + 1))
          (zrange lo hi) (map g (zrange 0 n), count) = Ok (nv', count + (hi - lo))
    /\ nv' = map (fun i => if (lo <=? i) && (i <? hi) then g i ++ [v] else g i)
                 (zrange 0 n)
    /\ zlength (concat nv') = zlength (concat (map g (zrange 0 n))) + (hi - lo).
Proof.
  intros Hlo Hhi.
  set (step := fun '(nv, count) l => _).
  pose (P := fun (k : Z) (st : list (list Z) * Z) =>
          fst st = map (fun i => if (lo <=? i) && (i <? k) then g i ++ [v] else g i)
                       (zrange 0 n)
          /\ snd st = count + (k - lo)
          /\ zlength (concat (fst st)) =
             zlength (concat (map g (zrange 0 n))) + (k - lo)).
  destruct (foldM_zrange_inv step P lo hi (map g (zrange 0 n), count))
    as ([nv' c'] & Hrun & Hnv & Hc & Hsz); try lia.
  - unfold P. simpl. repeat split; try lia.
    apply map_ext. intros i.
    destruct (Z.leb_spec lo i), (Z.ltb_spec i lo); simpl; auto; lia.
  - intros k [nv c] Hk (Hnv & Hc & Hsz). simpl in Hnv, Hc, Hsz. subst nv c.
    unfold step.
    set (gk := fun i => if (lo <=? i) && (i <? k) then g i ++ [v] else g i) in *.
    destruct (vec_modify_ok (map gk (zrange 0 n)) k (fun vs => vs ++ [v]))
      as (a & Ha & ->).
    { unfold zlength. rewrite length_map, zrange_length. lia. }
    simpl bind. eexists; split; [reflexivity|].
    assert (a = g k).
    { rewrite nth_error_map, nth_error_zrange in Ha.
      destruct (Nat.ltb_spec (Z.to_nat k) (Z.to_nat (n - 0))); [|lia].
      simpl in Ha. inversion Ha. unfold gk.
      replace (Z.of_nat (Z.to_nat k)) with k by lia.
      destruct (Z.ltb_spec k k); [lia|]. now rewrite andb_false_r. }
    subst a. unfold P. simpl. split; [|split; [lia|]].
    + rewrite list_set_map_zrange by lia. apply map_ext. intros i. unfold gk.
      destruct (Z.eqb_spec i k) as [->|Hne].
      * destruct (Z.leb_spec lo k), (Z.ltb_spec k (k + 1)); simpl; auto; lia.
      * destruct (Z.leb_spec lo i), (Z.ltb_spec i k), (Z.ltb_spec i (k + 1));
          simpl; auto; lia.
    + rewrite (concat_list_set_length _ _ _ _ Ha), zlength_app, Hsz.
      change (zlength [v]) with 1. lia.
  - simpl in Hnv, Hc, Hsz. subst c'. exists nv'. auto.
Qed.

Lemma neighbors_of_snoc ranges L k l :
  - L <= k ->
  neighbors_of ranges L (k + 1) l =
  if covers (range_of ranges L k) l
  then neighbors_of ranges L k l ++ [k] else neighbors_of ranges L k l.
Proof.
  intros Hk. unfold neighbors_of.
  rewrite zrange_snoc by lia. rewrite filter_app. simpl.
  destruct (covers (range_of ranges L k) l); [reflexivity|apply app_nil_r].
Qed.

Lemma repeat_as_map {A} (a : A) n :
  0 <= n -> repeat a (Z.to_nat n) = map (fun _ => a) (zrange 0 n).
Proof.
  intros Hn. unfold zrange. rewrite map_map, Z.sub_0_r.
  induction (Z.to_nat n) as [|m IH]; simpl; [reflexivity|].
  f_equal. rewrite <- seq_shift, map_map. exact IH.
Qed.

Lemma range_of_get ranges L v :
  0 <= v + L < zlength ranges ->
  tensor_get ranges (v + L) = Ok (range_of ranges L v).
Proof.
  intros H. destruct (tensor_get_ok ranges (v + L) H) as (a & Ha & ->).
  f_equal. unfold range_of. symmetry. now apply nth_error_nth.
Qed.

Definition range_valid (n : Z) (r : Z * Z) : Prop := 0 <= fst r <= snd r /\ snd r < n.

Lemma spread_latent_ok L ranges n g count v :
  0 <= v + L < zlength ranges ->
  range_valid n (range_of ranges L v) ->
  exists nv',
    spread_latent L ranges (map g (zrange 0 n), count) v =
      Ok (nv', count + (snd (range_of ranges L v) - fst (range_of ranges L v) + 1))
    /\ nv' = map (fun i => if covers (range_of ranges L v) i then g i ++ [v] else g i)
                 (zrange 0 n)
    /\ zlength (concat nv') =
       zlength (concat (map g (zrange 0 n)))
       + (snd (range_of ranges L v) - fst (range_of ranges L v) + 1).
Proof.
  intros Hv [Hr1 Hr2]. unfold spread_latent.
  rewrite range_of_get by auto. simpl bind.
  set (lo := fst (range_of ranges L v)) in *.
  set (hi := snd (range_of ranges L v)) in *.
  destruct (spread_range_ok v g n lo (hi + 1) count) as (nv' & Hrun & Hnv & Hsz);
    try lia.
  exists nv'. replace (hi - lo + 1) with (hi + 1 - lo) by lia.
  split; [exact Hrun|]. split; [|exact Hsz].
  rewrite Hnv. apply map_ext. intros i. unfold covers. fold lo hi.
  destruct (Z.leb_spec lo i), (Z.ltb_spec i (hi + 1)), (Z.leb_spec i hi);
    simpl; auto; lia.
Qed.

Lemma spread_latent_unset L ranges st v :
  0 <= v + L < zlength ranges ->
  range_of ranges L v = (-1, -1) ->
  spread_latent L ranges st v = Err (OutOfBounds (-1)).
Proof.
  intros Hv Hr. unfold spread_latent.
  rewrite range_of_get by auto. rewrite Hr. simpl bind.
  destruct st as [nv count]. simpl fst. simpl snd.
  change (zrange (-1) (-1 + 1)) with [-1]. cbn [foldM].
  unfold vec_modify. rewrite vec_get_oob by lia. reflexivity.
Qed.

Lemma spread_all_ok L ranges n :
  0 <= L -> 0 <= n -> zlength ranges = L ->
  (forall v, - L <= v < 0 -> range_valid n (range_of ranges L v)) ->
  let nv := map (neighbors_of ranges L 0) (zrange 0 n) in
  foldM (spread_latent L ranges) (zrange (- L) 0) (repeat [] (Z.to_nat n), 0) =
  Ok (nv, zlength (concat nv)).
Proof.
  intros HL Hn Hlen Hvalid nv.
  pose (P := fun (k : Z) (st : list (list Z) * Z) =>
          fst st = map (neighbors_of ranges L k) (zrange 0 n)
          /\ snd st = zlength (concat (fst st))).
  destruct (foldM_zrange_inv (spread_latent L ranges) P (- L) 0
              (repeat [] (Z.to_nat n), 0)) as ([nv' c'] & Hrun & Hnv & Hc); try lia.
  - unfold P. simpl. rewrite repeat_as_map by lia. split.
    + apply map_ext. intros i. unfold neighbors_of. now rewrite zrange_nil by lia.
    + induction (zrange 0 n); simpl; auto.
  - intros k [nv0 c0] Hk [Hnv Hc]. simpl in Hnv, Hc. subst nv0.
    destruct (spread_latent_ok L ranges n (neighbors_of ranges L k) c0 k)
      as (nv' & Hrun & Hnv' & Hsz); try lia.
    { apply Hvalid. lia. }
    rewrite Hrun. eexists; split; [reflexivity|]. unfold P. simpl. split.
    + rewrite Hnv'. apply map_ext. intros i. now rewrite neighbors_of_snoc by lia.
    + lia.
  - simpl in Hnv, Hc. subst nv' c'. exact Hrun.
Qed.

(** A fold fails with [e] when one of its steps does and the others either
    succeed or fail with [e] too. *)
Lemma foldM_err {S X} (f : S -> X -> result S) (I : S -> Prop) e xs :
  (forall x s, In x xs -> I s -> (exists s', f s x = Ok s' /\ I s') \/ f s x = Err e) ->
  (exists x, In x xs /\ forall s, I s -> f s x = Err e) ->
  forall s, I s -> foldM f xs s = Err e.
Proof.
  induction xs as [|x xs IH]; intros Hstep (x0 & Hin & Hbad) s Hs.
  - destruct Hin.
  - simpl. destruct Hin as [->|Hin].
    + now rewrite (Hbad s Hs).
    + destruct (Hstep x s (or_introl eq_refl) Hs) as [(s' & -> & Hs')| ->];
        [|reflexivity].
      simpl. apply IH; auto.
      * intros y t Hy. apply Hstep. now right.
      * exists x0. auto.
Qed.

Lemma spread_all_unset L ranges n :
  0 <= L -> 0 <= n -> zlength ranges = L ->
  (forall v, - L <= v < 0 ->
     range_valid n (range_of ranges L v) \/ range_of ranges L v = (-1, -1)) ->
  (exists v, - L <= v < 0 /\ range_of ranges L v = (-1, -1)) ->
  foldM (spread_latent L ranges) (zrange (- L) 0) (repeat [] (Z.to_nat n), 0) =
  Err (OutOfBounds (-1)).
Proof.
  intros HL Hn Hlen Hall (v0 & Hv0 & Hbad).
  apply (foldM_err _ (fun st => zlength (fst st) = n)).
  - intros v [nv c] Hv Hs. apply in_zrange in Hv. simpl in Hs.
    destruct (Hall v Hv) as [Hok|Hun].
    + left. rewrite (list_as_map_zrange nv []), Hs.
      destruct (spread_latent_ok L ranges n (fun i => nth (Z.to_nat i) nv []) c v)
        as (nv' & Hrun & Hnv' & _); auto; try lia.
      rewrite Hrun. eexists; split; [reflexivity|]. simpl. rewrite Hnv'.
      unfold zlength. rewrite length_map, zrange_length. lia.
    + right. apply spread_latent_unset; auto. lia.
  - exists v0. split; [apply in_zrange; lia|].
    intros st _. apply spread_latent_unset; auto. lia.
  - simpl. rewrite zlength_repeat. lia.
Qed.

Lemma combine_snoc {A B} (l1 : list A) (l2 : list B) a b :
  length l1 = length l2 ->
  combine (l1 ++ [a]) (l2 ++ [b]) = combine l1 l2 ++ [(a, b)].
Proof.
  revert l2. induction l1 as [|x l1 IH]; intros [|y l2] H; simpl in *;
    try discriminate; auto.
  f_equal. apply IH. lia.
Qed.

Lemma with_lat_width_snoc layers nv ly vs :
  length layers = length nv ->
  with_lat_width (layers ++ [ly]) (nv ++ [vs]) =
  with_lat_width layers nv ++ [set_lat_width (zlength vs) ly].
Proof.
  intros H. unfold with_lat_width. rewrite combine_snoc by auto.
  now rewrite map_app.
Qed.

Lemma with_lat_width_length layers nv :
  length layers = length nv -> length (with_lat_width layers nv) = length layers.
Proof.
  intros H. unfold with_lat_width. rewrite length_map, length_combine. lia.
Qed.

Lemma skipn_nth_error_cons {A} (l : list A) n x :
  nth_error l n = Some x -> skipn n l = x :: skipn (S n) l.
Proof.
  revert n. induction l as [|h t IH]; intros [|n] H; simpl in *; try discriminate.
  - now inversion H.
  - now apply IH.
Qed.

Lemma make_latent_neighbors_ok (nv : list (list Z)) count layers :
  zlength nv = zlength layers ->
  count = zlength (concat nv) ->
  make_latent_neighbors nv count layers =
  Ok (concat nv, offsets_from 0 nv, with_lat_width layers nv).
Proof.
  intros Hlen Hcount. unfold make_latent_neighbors.
  set (step := fun '(ns, bases, ls, i) l => _).
  set (n := zlength nv) in *.
  pose proof (zlength_nonneg nv) as Hn0. fold n in Hn0.
  pose (P := fun (k : Z) (st : list Z * list Z * list SEMNANLayerData * Z) =>
          let done := firstn (Z.to_nat k) nv in
          st = (concat done ++ zeros (count - zlength (concat done)),
                offsets_from 0 done ++ zeros (n - k),
                with_lat_width (firstn (Z.to_nat k) layers) done
                  ++ skipn (Z.to_nat k) layers,
                zlength (concat done))).
  destruct (foldM_zrange_inv step P 0 n (zeros count, zeros (n + 1), layers, 0))
    as (st & -> & Hst); auto.
  - unfold P. simpl. rewrite Z.sub_0_r. change (zlength (@nil Z)) with 0.
    rewrite Z.sub_0_r, (zeros_cons (n + 1)) by lia.
    replace (n + 1 - 1) with n by lia. reflexivity.
  - intros k t Hk Ht. unfold P in Ht. simpl in Ht. subst t.
    destruct (vec_get_ok nv k) as (vs & Hvs & Hget); [lia|].
    unfold step. rewrite Hget. simpl bind.
    pose proof (concat_firstn_le _ _ _ Hvs) as Hroom.
    rewrite write_run_zeros; [|reflexivity|lia]. simpl bind.
    destruct (vec_get_ok layers k) as (ly & Hly & _); [lia|].
    assert (Hdone : length (with_lat_width (firstn (Z.to_nat k) layers)
                                           (firstn (Z.to_nat k) nv)) = Z.to_nat k).
    { rewrite with_lat_width_length; rewrite !length_firstn;
        unfold n, zlength in *; lia. }
    destruct (vec_modify_ok
                (with_lat_width (firstn (Z.to_nat k) layers) (firstn (Z.to_nat k) nv)
                   ++ skipn (Z.to_nat k) layers) k (set_lat_width (zlength vs)))
      as (ly' & Hly' & ->).
    { rewrite zlength_app. unfold zlength. rewrite Hdone, length_skipn.
      unfold n, zlength in *. lia. }
    rewrite (skipn_nth_error_cons _ _ _ Hly) in Hly'.
    rewrite nth_error_app2, Hdone, Nat.sub_diag in Hly' by lia.
    simpl in Hly'. inversion Hly'. subst ly'.
    simpl bind. rewrite tensor_set_next.
    2:{ unfold zlength. rewrite offsets_from_length, length_firstn.
        unfold n, zlength in *. lia. }
    2:lia. 2:lia.
    simpl bind. eexists; split; [reflexivity|].
    unfold P. simpl.
    replace (Z.to_nat (k + 1)) with (S (Z.to_nat k)) by lia.
    rewrite (firstn_succ_nth_error _ _ _ Hvs), (firstn_succ_nth_error _ _ _ Hly).
    rewrite offsets_from_snoc, concat_snoc, zlength_app.
    rewrite with_lat_width_snoc
      by (rewrite !length_firstn; unfold n, zlength in *; lia).
    rewrite (skipn_nth_error_cons _ _ _ Hly).
    rewrite (list_set_app_at _ _ _ _ _ Hdone).
    rewrite <- !app_assoc. simpl.
    rewrite ?Z.sub_add_distr, ?Z.add_0_l. reflexivity.
  - unfold P in Hst. simpl in Hst. subst st. simpl.
    replace (Z.to_nat n) with (length nv) by (unfold n, zlength; lia).
    rewrite firstn_all.
    replace (length nv) with (length layers) by (unfold n, zlength in *; lia).
    rewrite firstn_all, skipn_all, <- Hcount, !Z.sub_diag.
    unfold zeros. simpl. now rewrite !app_nil_r.
Qed.

(** * The edge scan *)

(** [edge structure L p c]: node [p] is a parent of the visible node [c]. *)
Definition edge (structure : Tensor bool) (L p c : Z) : bool :=
  match item2 structure (p + L) c with
  | Ok b => b
  | Err _ => false
  end.

(** The parents of [c] in ascending order, latents first. *)
Definition parents_of (structure : Tensor bool) (L V c : Z) : list Z :=
  filter (fun p => edge structure L p c) (zrange (- L) V).

(** The number of edges of the structure matrix: its [true] entries. *)
Definition total_edges (structure : Tensor bool) : Z :=
  Z.of_nat (count_occ bool_dec (data structure) true).

(** [structure] is an (L+V) x V matrix. *)
Definition well_shaped (structure : Tensor bool) (L V : Z) : Prop :=
  0 <= L /\ 0 <= V /\ sizes structure = [L + V; V] /\
  zlength (data structure) = (L + V) * V.

(** The visible node [c] is counted in the layer record [l]. *)
Definition in_layer (l : SEMNANLayerData) (c : Z) : Prop :=
  base l <= c < base l + num l.

(** Layer records that tile the visible nodes [b .. e - 1] in order. *)
Fixpoint contiguous (b : Z) (ls : list SEMNANLayerData) (e : Z) : Prop :=
  match ls with
  | [] => b = e
  | l :: rest => base l = b /\ 0 <= num l /\ contiguous (b + num l) rest e
  end.

(** The layers opened while the parents of [c] are scanned. *)
Definition new_layers (start c : Z) (n : nat) : list SEMNANLayerData :=
  map (fun j => SEMNANLayerData_new (start + Z.of_nat j) c) (seq 0 n).

Section ScanProofs.

Variable structure : Tensor bool.
Variables L V : Z.
Hypothesis Hshape : well_shaped structure L V.

Let HL : 0 <= L. Proof. apply Hshape. Qed.
Let HV : 0 <= V. Proof. apply Hshape. Qed.

Lemma item2_edge p c :
  - L <= p < V -> 0 <= c < V ->
  item2 structure (p + L) c = Ok (edge structure L p c).
Proof.
  intros Hp Hc. destruct Hshape as (_ & _ & Hs & Hd).
  unfold edge, item2. rewrite Hs.
  rewrite !wrap_index_ok by lia. simpl.
  destruct (nth_error (data structure) (Z.to_nat ((p + L) * V + c))) eqn:E;
    [reflexivity|].
  apply nth_error_None in E. unfold zlength in Hd. nia.
Qed.

Record scan_shape (s : Scan) : Prop := {
  sh_pv : zlength (parents_vec s) = V;
  sh_cv_len : zlength (children_vec s) = zlength (scan_layers s) - 1;
  sh_cv : Forall (fun b => zlength b = L + V) (children_vec s);
  sh_ranges : zlength (scan_ranges s) = L;
  sh_layers : 2 <= zlength (scan_layers s);
  sh_idx : forall i l, nth_error (scan_layers s) i = Some l -> idx l = Z.of_nat i
}.

Lemma list_set_same {A} (l : list A) n x :
  nth_error l n = Some x -> list_set l n x = l.
Proof.
  revert n. induction l as [|h t IH]; intros [|n] H; simpl in *; try discriminate.
  - now inversion H.
  - f_equal. auto.
Qed.

Lemma new_layers_snoc start c n :
  new_layers start c (S n) =
  new_layers start c n ++ [SEMNANLayerData_new (start + Z.of_nat n) c].
Proof. unfold new_layers. now rewrite seq_S, map_app. Qed.

Lemma new_layers_length start c n : length (new_layers start c n) = n.
Proof. unfold new_layers. now rewrite length_map, length_seq. Qed.

Lemma repeat_snoc {A} (a : A) n : repeat a n ++ [a] = repeat a (S n).
Proof. induction n as [|n IH]; simpl; [reflexivity|]. now rewrite IH. Qed.

Lemma filter_zrange_snoc (f : Z -> bool) lo k :
  lo <= k ->
  filter f (zrange lo (k + 1)) =
  if f k then filter f (zrange lo k) ++ [k] else filter f (zrange lo k).
Proof.
  intros H. rewrite zrange_snoc by lia. rewrite filter_app. simpl.
  destruct (f k); [reflexivity|apply app_nil_r].
Qed.

(** The first loop over [p] (lines 130-142), up to index [k]. *)
Definition scanned (c : Z) (s : Scan) (pv0 : list Z) (k : Z) (s1 : Scan) : Prop :=
  let ps := filter (fun p => edge structure L p c) (zrange (- L) k) in
  edge_count s1 = edge_count s + zlength ps /\
  parents_vec s1 = list_set (parents_vec s) (Z.to_nat c) (pv0 ++ ps) /\
  scan_ranges s1 = scan_ranges s /\
  exists n,
    scan_layers s1 = scan_layers s ++ new_layers (zlength (scan_layers s)) c n /\
    children_vec s1 = children_vec s ++ repeat (repeat [] (Z.to_nat (L + V))) n /\
    ((n = 0%nat /\ layer_max s1 = layer_max s /\
      forall p, In p ps -> p < layer_max s)
     \/ ((0 < n)%nat /\ layer_max s1 = c)).

Lemma scan_parent_loop c s pv0 :
  0 <= c < V ->
  zlength (parents_vec s) = V ->
  nth_error (parents_vec s) (Z.to_nat c) = Some pv0 ->
  exists s1,
    foldM (scan_parent structure L V c) (zrange (- L) V) s = Ok s1 /\
    scanned c s pv0 V s1.
Proof.
  intros Hc Hpv Hpv0.
  apply (foldM_zrange_inv _ (scanned c s pv0)); try lia.
  - unfold scanned. rewrite zrange_nil by lia. simpl.
    change (zlength (@nil Z)) with 0. rewrite Z.add_0_r, app_nil_r.
    rewrite list_set_same by auto.
    repeat split; auto. exists 0%nat. simpl. rewrite !app_nil_r.
    repeat split; auto. left. repeat split; auto. intros p [].
  - intros k s1 Hk (Hec & Hpvs & Hrs & n & Hls & Hcv & Hlm).
    unfold scan_parent. rewrite item2_edge by lia. simpl bind.
    unfold scanned. rewrite filter_zrange_snoc by lia.
    destruct (edge structure L k c) eqn:Ek.
    + destruct (vec_modify_ok (parents_vec s1) c (fun ps => ps ++ [k]))
        as (a & Ha & ->).
      { rewrite Hpvs, zlength_list_set. lia. }
      simpl bind.
      rewrite Hpvs in Ha. rewrite nth_error_list_set_eq in Ha
        by (unfold zlength in Hpv; lia).
      inversion Ha. subst a. clear Ha.
      destruct (Z.geb_spec k (layer_max s1)) as [Hge|Hlt].
      * eexists; split; [reflexivity|]. simpl.
        rewrite zlength_app. change (zlength [k]) with 1.
        split; [lia|]. split; [now rewrite Hpvs, list_set_twice, app_assoc|].
        split; [exact Hrs|]. exists (S n).
        rewrite new_layers_snoc, <- repeat_snoc, !app_assoc, <- Hls, <- Hcv.
        split.
        { do 3 f_equal. rewrite Hls, zlength_app. unfold zlength at 2.
          now rewrite new_layers_length. }
        unfold total_size. split; [reflexivity|]. right. split; [lia|reflexivity].
      * eexists; split; [reflexivity|]. simpl.
        rewrite zlength_app. change (zlength [k]) with 1.
        split; [lia|]. split; [now rewrite Hpvs, list_set_twice, app_assoc|].
        split; [exact Hrs|]. exists n. split; [exact Hls|]. split; [exact Hcv|].
        destruct Hlm as [(-> & Hm & Hall)|Hpos]; [left|right; exact Hpos].
        repeat split; auto.
        intros p Hp. apply in_app_or in Hp. destruct Hp as [Hp|[<-|[]]]; auto. lia.
    + eexists; split; [reflexivity|]. repeat split; auto. exists n. auto.
Qed.

Lemma concat2_list_set_length {A} (cv : list (list (list A))) i b b' :
  nth_error cv i = Some b ->
  zlength (concat (concat (list_set cv i b'))) =
  zlength (concat (concat cv)) - zlength (concat b) + zlength (concat b').
Proof.
  intros H. destruct (nth_error_split cv i H) as (l1 & l2 & -> & <-).
  rewrite list_set_app_mid, !concat_app. simpl.
  rewrite !concat_app, !zlength_app. lia.
Qed.

Lemma Forall_list_set {A} (P : A -> Prop) l n x :
  Forall P l -> P x -> Forall P (list_set l n x).
Proof.
  intros Hl Hx. revert n. induction Hl as [|h t Hh Ht IH]; intros [|n]; simpl;
    constructor; auto.
Qed.

Lemma range_of_list_set ranges v k x :
  0 <= v + L -> 0 <= k + L < zlength ranges ->
  range_of (list_set ranges (Z.to_nat (k + L)) x) L v =
  if v =? k then x else range_of ranges L v.
Proof.
  intros Hv Hk. unfold range_of.
  destruct (Z.eqb_spec v k) as [->|Hne].
  - apply nth_error_nth. apply nth_error_list_set_eq. unfold zlength in Hk. lia.
  - destruct (nth_error ranges (Z.to_nat (v + L))) eqn:E.
    + rewrite (nth_error_nth _ _ _ E). apply nth_error_nth.
      rewrite nth_error_list_set_neq by lia. exact E.
    + rewrite !nth_overflow; auto.
      * now apply nth_error_None.
      * rewrite list_set_length. now apply nth_error_None.
Qed.

(** The second loop over [p] (lines 144-156), up to index [k]. *)
Definition linked (c : Z) (s1 : Scan) (k : Z) (s2 : Scan) : Prop :=
  edge_count s2 = edge_count s1 /\
  parents_vec s2 = parents_vec s1 /\
  scan_layers s2 = scan_layers s1 /\
  layer_max s2 = layer_max s1 /\
  zlength (children_vec s2) = zlength (children_vec s1) /\
  Forall (fun b => zlength b = L + V) (children_vec s2) /\
  zlength (concat (concat (children_vec s2))) =
    zlength (concat (concat (children_vec s1)))
    + zlength (filter (fun p => edge structure L p c) (zrange (- L) k)) /\
  zlength (scan_ranges s2) = zlength (scan_ranges s1) /\
  forall v, - L <= v < 0 ->
    range_of (scan_ranges s2) L v =
    if (v <? k) && edge structure L v c
    then extend_range (range_of (scan_ranges s1) L v) (zlength (scan_layers s1) - 2)
    else range_of (scan_ranges s1) L v.

Lemma link_parent_loop c s1 :
  0 <= c < V ->
  1 <= zlength (children_vec s1) ->
  Forall (fun b => zlength b = L + V) (children_vec s1) ->
  zlength (scan_ranges s1) = L ->
  1 <= zlength (scan_layers s1) ->
  (forall i l, nth_error (scan_layers s1) i = Some l -> idx l = Z.of_nat i) ->
  exists s2,
    foldM (link_parent structure L c) (zrange (- L) V) s1 = Ok s2 /\
    linked c s1 V s2.
Proof.
  intros Hc Hcv1 Hcvs Hrs Hls Hidx.
  apply (foldM_zrange_inv _ (linked c s1)); try lia.
  - unfold linked. rewrite zrange_nil by lia. simpl.
    change (zlength (@nil Z)) with 0. rewrite Z.add_0_r.
    repeat split; auto. intros v Hv.
    destruct (Z.ltb_spec v (- L)); [lia|reflexivity].
  - intros k s2 Hk (Hec & Hpv & Hl2 & Hlm & Hcvl & Hcvs2 & Htot & Hrl & Hr).
    unfold link_parent. rewrite item2_edge by lia. simpl bind.
    unfold linked. rewrite filter_zrange_snoc by lia.
    destruct (edge structure L k c) eqn:Ek.
    + (* the presence range *)
      assert (Hranges : exists rs,
        (if k <? 0 then
           this_latent <- tensor_get (scan_ranges s2) (k + L) ;;
           last_layer <- vec_back (scan_layers s2) ;;
           tensor_set (scan_ranges s2) (k + L)
             (extend_range this_latent (idx last_layer - 1))
         else Ok (scan_ranges s2)) = Ok rs /\
        zlength rs = zlength (scan_ranges s1) /\
        forall v, - L <= v < 0 ->
          range_of rs L v =
          if (v <? k + 1) && edge structure L v c
          then extend_range (range_of (scan_ranges s1) L v)
                            (zlength (scan_layers s1) - 2)
          else range_of (scan_ranges s1) L v).
      { destruct (Z.ltb_spec k 0) as [Hneg|Hpos].
        - rewrite range_of_get by lia. simpl bind.
          unfold vec_back. rewrite Hl2.
          destruct (vec_get_ok (scan_layers s1) (zlength (scan_layers s1) - 1))
            as (ll & Hll & ->); [lia|].
          simpl bind. rewrite tensor_set_ok by lia.
          eexists; split; [reflexivity|]. split.
          + rewrite zlength_list_set. exact Hrl.
          + intros v Hv. rewrite range_of_list_set by lia.
            rewrite (Hidx _ _ Hll).
            replace (Z.of_nat (Z.to_nat (zlength (scan_layers s1) - 1)) - 1)
              with (zlength (scan_layers s1) - 2) by lia.
            destruct (Z.eqb_spec v k) as [->|Hne].
            * rewrite Hr by lia. rewrite Ek.
              destruct (Z.ltb_spec k k); [lia|].
              destruct (Z.ltb_spec k (k + 1)); [|lia]. reflexivity.
            * rewrite Hr by lia.
              destruct (Z.ltb_spec v k), (Z.ltb_spec v (k + 1)); try lia; reflexivity.
        - eexists; split; [reflexivity|]. split; [exact Hrl|].
          intros v Hv. rewrite Hr by lia.
          destruct (Z.ltb_spec v k), (Z.ltb_spec v (k + 1)); try lia; reflexivity. }
      destruct Hranges as (rs & -> & Hrsl & Hrsv). simpl bind.
      (* the bucket of the last layer *)
      unfold vec_back, vec_modify_back.
      destruct (vec_get_ok (children_vec s2) (zlength (children_vec s2) - 1))
        as (bucket & Hbucket & ->); [lia|].
      simpl bind.
      assert (Hb : zlength bucket = L + V).
      { rewrite Forall_forall in Hcvs2. apply Hcvs2.
        eapply nth_error_In; eauto. }
      destruct (vec_modify_ok bucket (k + L) (fun cs => cs ++ [c]))
        as (row & Hrow & ->); [lia|].
      simpl bind.
      destruct (vec_modify_ok (children_vec s2) (zlength (children_vec s2) - 1)
                  (fun _ => list_set bucket (Z.to_nat (k + L)) (row ++ [c])))
        as (b' & _ & ->); [lia|].
      simpl bind. eexists; split; [reflexivity|]. simpl.
      repeat split; auto.
      * rewrite zlength_list_set. exact Hcvl.
      * apply Forall_list_set; auto. now rewrite zlength_list_set.
      * rewrite (concat2_list_set_length _ _ _ _ Hbucket).
        rewrite (concat_list_set_length _ _ _ _ Hrow), Htot, !zlength_app.
        change (zlength [c]) with 1. change (zlength [k]) with 1. lia.
    + eexists; split; [reflexivity|]. repeat split; auto.
      intros v Hv. rewrite Hr by auto.
      destruct (Z.ltb_spec v k), (Z.ltb_spec v (k + 1)); try lia; try reflexivity.
      assert (v = k) by lia. subst v. rewrite Ek. reflexivity.
Qed.

(** What one round of the loop over [c] (lines 129-159) does to the state. *)
Definition scan_step (c : Z) (s s' : Scan) : Prop :=
  let ps := parents_of structure L V c in
  exists pv0 n front lastl,
    nth_error (parents_vec s) (Z.to_nat c) = Some pv0 /\
    edge_count s' = edge_count s + zlength ps /\
    parents_vec s' = list_set (parents_vec s) (Z.to_nat c) (pv0 ++ ps) /\
    scan_layers s ++ new_layers (zlength (scan_layers s)) c n = front ++ [lastl] /\
    scan_layers s' = front ++ [incr_num lastl] /\
    ((n = 0%nat /\ layer_max s' = layer_max s /\
      forall p, In p ps -> p < layer_max s)
     \/ ((0 < n)%nat /\ layer_max s' = c)) /\
    zlength (concat (concat (children_vec s'))) =
      zlength (concat (concat (children_vec s))) + zlength ps /\
    forall v, - L <= v < 0 ->
      range_of (scan_ranges s') L v =
      if edge structure L v c
      then extend_range (range_of (scan_ranges s) L v) (zlength (scan_layers s') - 2)
      else range_of (scan_ranges s) L v.

Lemma concat2_repeat_nil {A} t n :
  concat (concat (repeat (repeat (@nil A) t) n)) = [].
Proof.
  induction n as [|n IH]; simpl; [reflexivity|].
  rewrite concat_app, IH, app_nil_r.
  clear IH. induction t as [|t IH]; simpl; auto.
Qed.

Lemma nth_error_new_layers start c n j l :
  nth_error (new_layers start c n) j = Some l -> idx l = start + Z.of_nat j.
Proof.
  unfold new_layers. rewrite nth_error_map, nth_error_seq.
  destruct (j <? n)%nat; simpl; [|discriminate].
  intros [= <-]. reflexivity.
Qed.

Lemma scan_child_spec c s :
  0 <= c < V -> scan_shape s ->
  exists s', scan_child structure L V s c = Ok s' /\
             scan_step c s s' /\ scan_shape s'.
Proof.
  intros Hc [Hpv Hcvl Hcvs Hrs Hls Hidx].
  destruct (vec_get_ok (parents_vec s) c) as (pv0 & Hpv0 & _); [lia|].
  destruct (scan_parent_loop c s pv0 Hc Hpv Hpv0)
    as (s1 & Hrun1 & Hec1 & Hpv1 & Hrs1 & n & Hls1 & Hcv1 & Hlm1).
  assert (Hidx1 : forall i l, nth_error (scan_layers s1) i = Some l ->
                              idx l = Z.of_nat i).
  { intros i l. rewrite Hls1.
    destruct (Nat.lt_ge_cases i (length (scan_layers s))) as [Hi|Hi].
    - rewrite nth_error_app1 by auto. apply Hidx.
    - rewrite nth_error_app2 by auto. intros H.
      apply nth_error_new_layers in H. unfold zlength in H. lia. }
  assert (Hl1 : zlength (scan_layers s1) = zlength (scan_layers s) + Z.of_nat n).
  { rewrite Hls1, zlength_app. unfold zlength at 2.
    now rewrite new_layers_length. }
  assert (Hcvs1 : Forall (fun b => zlength b = L + V) (children_vec s1)).
  { rewrite Hcv1. apply Forall_app. split; auto.
    apply Forall_forall. intros b Hb. apply repeat_spec in Hb. subst b.
    rewrite zlength_repeat. lia. }
  assert (Hcvl1 : zlength (children_vec s1) = zlength (children_vec s) + Z.of_nat n).
  { rewrite Hcv1, zlength_app, zlength_repeat. reflexivity. }
  destruct (link_parent_loop c s1 Hc)
    as (s2 & Hrun2 & Hec2 & Hpv2 & Hls2 & Hlm2 & Hcvl2 & Hcvs2 & Htot2 & Hrl2 & Hr2);
    auto; try lia.
  { rewrite Hrs1. exact Hrs. }
  unfold scan_child. rewrite Hrun1. simpl bind. rewrite Hrun2. simpl bind.
  destruct (exists_last (l := scan_layers s1)) as (front & lastl & Hfl).
  { intros E. rewrite E in Hl1. change (zlength (@nil SEMNANLayerData)) with 0 in Hl1. lia. }
  unfold vec_modify_back.
  destruct (vec_modify_ok (scan_layers s2) (zlength (scan_layers s2) - 1) incr_num)
    as (a & Ha & ->); [rewrite Hls2; lia|].
  rewrite Hls2 in *. clear Hls2.
  assert (Hlast : Z.to_nat (zlength (scan_layers s1) - 1) = length front).
  { rewrite Hfl, zlength_app. unfold zlength. simpl. lia. }
  rewrite Hlast in *. rewrite Hfl in Ha.
  rewrite nth_error_app2, Nat.sub_diag in Ha by lia. simpl in Ha.
  inversion Ha. subst a. clear Ha.
  simpl bind. eexists; split; [reflexivity|].
  assert (Hnew : list_set (scan_layers s1) (length front) (incr_num lastl)
                 = front ++ [incr_num lastl]).
  { rewrite Hfl. apply list_set_app_last. }
  assert (Hzl : zlength (front ++ [incr_num lastl]) = zlength (scan_layers s1)).
  { rewrite Hfl, !zlength_app. reflexivity. }
  split.
  - exists pv0, n, front, lastl. simpl.
    rewrite Hec2, Hpv2, Hlm2, Htot2, Hnew.
    fold (parents_of structure L V c) in *.
    repeat split; auto.
    + rewrite <- Hls1. exact Hfl.
    + rewrite Hcv1, concat_app, concat_app, concat2_repeat_nil, app_nil_r.
      reflexivity.
    + intros v Hv. rewrite Hr2 by auto. rewrite Hrs1, Hzl.
      destruct (Z.ltb_spec v V); [|lia]. reflexivity.
  - constructor; simpl.
    + rewrite Hpv2, Hpv1, zlength_list_set. exact Hpv.
    + rewrite Hnew, Hzl. lia.
    + exact Hcvs2.
    + rewrite Hrl2, Hrs1. exact Hrs.
    + rewrite Hnew, Hzl. lia.
    + rewrite Hnew. intros i l. rewrite nth_error_app.
      destruct (Nat.ltb_spec i (length front)) as [Hi|Hi].
      * intros H. apply Hidx1. rewrite Hfl, nth_error_app1; auto.
      * destruct (i - length front)%nat eqn:E; simpl.
        -- intros [= <-]. simpl. apply (Hidx1 i lastl).
           rewrite Hfl, nth_error_app2 by lia. now rewrite E.
        -- destruct n0; discriminate.
Qed.

Lemma scan_init_shape : scan_shape (scan_init L V).
Proof.
  constructor; simpl.
  - rewrite zlength_repeat. lia.
  - reflexivity.
  - constructor; [|constructor]. unfold total_size. rewrite zlength_repeat. lia.
  - rewrite zlength_repeat. lia.
  - unfold zlength. simpl. lia.
  - intros [|[|[|i]]] l; simpl; intros [= <-] || discriminate; reflexivity.
Qed.

(** The loop over [c] runs to its end, and carries every invariant that one
    round preserves. *)
Lemma scan_edges_inv (I : Z -> Scan -> Prop) :
  I 0 (scan_init L V) ->
  (forall c s s', 0 <= c < V -> scan_shape s -> I c s ->
                  scan_step c s s' -> scan_shape s' -> I (c + 1) s') ->
  exists s, scan_edges structure L V = Ok s /\ scan_shape s /\ I V s.
Proof.
  intros H0 Hstep. unfold scan_edges.
  apply (foldM_zrange_inv _ (fun c s => scan_shape s /\ I c s)); auto.
  - split; [apply scan_init_shape|exact H0].
  - intros c s Hc [Hsh HI].
    destruct (scan_child_spec c s Hc Hsh) as (s' & Hrun & Hst & Hsh').
    exists s'. split; [exact Hrun|]. split; [exact Hsh'|]. eauto.
Qed.

End ScanProofs.

(** * Contiguous layers *)

(** The visible node [c] is counted in the layer at position [i]. *)
Definition at_layer (layers : list SEMNANLayerData) (i : nat) (c : Z) : Prop :=
  exists l, nth_error layers i = Some l /\ in_layer l c.

Lemma contiguous_app b l1 l2 e :
  contiguous b (l1 ++ l2) e <-> exists m, contiguous b l1 m /\ contiguous m l2 e.
Proof.
  revert b. induction l1 as [|l l1 IH]; intros b; simpl.
  - split; [intros H; exists b; auto|intros (m & -> & H); exact H].
  - rewrite IH. split.
    + intros (Hb & Hn & m & H1 & H2). exists m. auto.
    + intros (m & (Hb & Hn & H1) & H2). eauto.
Qed.

Lemma contiguous_le b ls e : contiguous b ls e -> b <= e.
Proof.
  revert b. induction ls as [|l ls IH]; intros b; simpl.
  - lia.
  - intros (_ & Hn & H). apply IH in H. lia.
Qed.

Lemma contiguous_new_layers start c n : contiguous c (new_layers start c n) c.
Proof.
  unfold new_layers. generalize 0%nat.
  induction n as [|n IH]; intros k; simpl; auto.
  repeat split; try lia. rewrite Z.add_0_r. apply IH.
Qed.

Lemma contiguous_bounds b ls e i l x :
  contiguous b ls e -> nth_error ls i = Some l -> in_layer l x -> b <= x < e.
Proof.
  revert b i. induction ls as [|l0 ls IH]; intros b [|i]; simpl; try discriminate.
  - intros (Hb & Hn & H) [= ->] [H1 H2]. apply contiguous_le in H. lia.
  - intros (Hb & Hn & H) Hi Hin. specialize (IH _ _ H Hi Hin). lia.
Qed.

Lemma contiguous_base b ls e i l :
  contiguous b ls e -> nth_error ls i = Some l ->
  contiguous b (firstn i ls) (base l) /\ base l + num l <= e.
Proof.
  revert b i. induction ls as [|l0 ls IH]; intros b [|i]; simpl; try discriminate.
  - intros (Hb & Hn & H) [= ->]. apply contiguous_le in H. split; [auto|lia].
  - intros (Hb & Hn & H) Hi. destruct (IH _ _ H Hi). auto.
Qed.

Lemma contiguous_unique b ls e i j x :
  contiguous b ls e -> at_layer ls i x -> at_layer ls j x -> i = j.
Proof.
  revert b i j. induction ls as [|l0 ls IH]; intros b i j Hc (l & Hl & Hin) (l' & Hl' & Hin').
  - destruct i; discriminate.
  - destruct Hc as (Hb & Hn & Hc).
    destruct i as [|i], j as [|j]; simpl in *.
    + reflexivity.
    + inversion Hl; subst l0.
      pose proof (contiguous_bounds _ _ _ _ _ _ Hc Hl' Hin'). unfold in_layer in Hin. lia.
    + inversion Hl'; subst l0.
      pose proof (contiguous_bounds _ _ _ _ _ _ Hc Hl Hin). unfold in_layer in Hin'. lia.
    + f_equal. eapply IH; eauto; eexists; eauto.
Qed.

Lemma contiguous_cover b ls e x :
  contiguous b ls e -> b <= x < e -> exists i, at_layer ls i x.
Proof.
  revert b. induction ls as [|l0 ls IH]; intros b; simpl.
  - lia.
  - intros (Hb & Hn & Hc) Hx.
    destruct (Z_lt_ge_dec x (b + num l0)) as [Hlt|Hge].
    + exists 0%nat, l0. split; [reflexivity|]. unfold in_layer. lia.
    + destruct (IH _ Hc) as (i & l & Hl & Hin); [lia|].
      exists (S i), l. auto.
Qed.

(** Every node below the base of layer [i] is counted in an earlier layer. *)
Lemma contiguous_before b ls e i l p :
  contiguous b ls e -> nth_error ls i = Some l -> b <= p < base l ->
  exists j, (j < i)%nat /\ at_layer ls j p.
Proof.
  intros Hc Hl Hp.
  destruct (contiguous_base _ _ _ _ _ Hc Hl) as [Hf _].
  destruct (contiguous_cover _ _ _ _ Hf Hp) as (j & l' & Hl' & Hin).
  assert (Hj : (j < i)%nat).
  { assert (H : nth_error (firstn i ls) j <> None) by congruence.
    apply nth_error_Some in H. rewrite length_firstn in H. lia. }
  exists j. split; [exact Hj|]. exists l'. split; [|exact Hin].
  rewrite nth_error_firstn in Hl'. destruct (Nat.ltb_spec j i); [auto|lia].
Qed.

(** ** One round of the scan, seen from the layer records *)

Section LayerStep.

Variables (layers front : list SEMNANLayerData) (lastl : SEMNANLayerData).
Variables (start c : Z) (n : nat).
Hypothesis Hcontig : contiguous 0 layers c.
Hypothesis Hsplit : layers ++ new_layers start c n = front ++ [lastl].

Let layers' := front ++ [incr_num lastl].

Lemma step_contiguous_old : contiguous 0 (front ++ [lastl]) c.
Proof.
  rewrite <- Hsplit. apply contiguous_app. exists c. split; auto.
  apply contiguous_new_layers.
Qed.

Lemma step_last_end :
  contiguous 0 front (base lastl) /\ 0 <= num lastl /\ base lastl + num lastl = c.
Proof.
  pose proof step_contiguous_old as H. apply contiguous_app in H.
  destruct H as (m & Hf & Hb & Hn & He). simpl in He. subst m. auto with zarith.
Qed.

Lemma step_contiguous : contiguous 0 layers' (c + 1).
Proof.
  destruct step_last_end as (Hf & Hn & He).
  apply contiguous_app. exists (base lastl). split; auto.
  simpl. repeat split; lia.
Qed.

Lemma step_at_last : at_layer layers' (length front) c.
Proof.
  destruct step_last_end as (Hf & Hn & He).
  exists (incr_num lastl). split.
  - unfold layers'. now rewrite nth_error_app2, Nat.sub_diag by lia.
  - unfold in_layer. simpl. lia.
Qed.

Lemma step_new_empty i l x :
  nth_error (new_layers start c n) i = Some l -> ~ in_layer l x.
Proof.
  unfold new_layers. rewrite nth_error_map.
  destruct (nth_error (seq 0 n) i); simpl; [|discriminate].
  intros [= <-]. unfold in_layer. simpl. lia.
Qed.

Lemma step_at_layer_old i x :
  x <> c -> at_layer layers' i x -> at_layer layers i x.
Proof.
  intros Hx (l & Hl & Hin). unfold layers' in Hl.
  assert (H : exists l0, nth_error (layers ++ new_layers start c n) i = Some l0
                         /\ in_layer l0 x).
  { rewrite Hsplit. destruct (Nat.lt_ge_cases i (length front)) as [Hi|Hi].
    - rewrite nth_error_app1 in Hl |- * by auto. eauto.
    - rewrite nth_error_app2 in Hl |- * by auto.
      destruct (i - length front)%nat as [|k]; simpl in *.
      + inversion Hl. subst l. exists lastl. split; auto.
        destruct step_last_end as (_ & _ & He).
        unfold in_layer in *. simpl in Hin. lia.
      + destruct k; discriminate. }
  destruct H as (l0 & Hl0 & Hin0).
  destruct (Nat.lt_ge_cases i (length layers)) as [Hi|Hi].
  - rewrite nth_error_app1 in Hl0 by auto. exists l0. auto.
  - rewrite nth_error_app2 in Hl0 by auto.
    now apply step_new_empty with (x := x) in Hl0.
Qed.

Lemma step_at_layer_new i x :
  at_layer layers i x -> at_layer layers' i x.
Proof.
  intros (l & Hl & Hin).
  assert (H : nth_error (front ++ [lastl]) i = Some l).
  { rewrite <- Hsplit. rewrite nth_error_app1; auto.
    apply nth_error_Some. congruence. }
  unfold at_layer, layers'.
  destruct (Nat.lt_ge_cases i (length front)) as [Hi|Hi].
  - rewrite nth_error_app1 in H |- * by auto. eauto.
  - rewrite nth_error_app2 in H |- * by auto.
    destruct (i - length front)%nat as [|k]; simpl in *.
    + inversion H. subst l. exists (incr_num lastl). split; auto.
      unfold in_layer in *. simpl. lia.
    + destruct k; discriminate.
Qed.

Lemma step_base i l :
  nth_error layers' i = Some l ->
  (exists l0, nth_error layers i = Some l0 /\ base l = base l0) \/ base l = c.
Proof.
  intros Hl. unfold layers' in Hl.
  assert (H : exists l0, nth_error (layers ++ new_layers start c n) i = Some l0
                         /\ base l = base l0).
  { rewrite Hsplit. destruct (Nat.lt_ge_cases i (length front)) as [Hi|Hi].
    - rewrite nth_error_app1 in Hl |- * by auto. eauto.
    - rewrite nth_error_app2 in Hl |- * by auto.
      destruct (i - length front)%nat as [|k]; simpl in *.
      + inversion Hl. subst l. exists lastl. auto.
      + destruct k; discriminate. }
  destruct H as (l0 & Hl0 & Hb).
  destruct (Nat.lt_ge_cases i (length layers)) as [Hi|Hi].
  - rewrite nth_error_app1 in Hl0 by auto. left. eauto.
  - rewrite nth_error_app2 in Hl0 by auto. right. rewrite Hb.
    unfold new_layers in Hl0. rewrite nth_error_map in Hl0.
    destruct (nth_error (seq 0 n) (i - length layers)); simpl in Hl0; [|discriminate].
    inversion Hl0. reflexivity.
Qed.

Lemma step_opened : (0 < n)%nat -> base lastl = c.
Proof.
  intros Hn. destruct n as [|m]; [lia|].
  rewrite new_layers_snoc, app_assoc in Hsplit.
  apply app_inj_tail in Hsplit. destruct Hsplit as [_ <-]. reflexivity.
Qed.

Lemma step_not_opened : n = 0%nat -> layers = front ++ [lastl].
Proof.
  intros Hn. rewrite Hn in Hsplit. simpl in Hsplit.
  now rewrite app_nil_r in Hsplit.
Qed.

Lemma step_length : zlength layers' = zlength layers + Z.of_nat n.
Proof.
  unfold layers'. rewrite zlength_app.
  assert (H : zlength (front ++ [lastl]) = zlength layers + Z.of_nat n).
  { rewrite <- Hsplit, zlength_app. unfold zlength at 2.
    now rewrite new_layers_length. }
  rewrite zlength_app in H. exact H.
Qed.

End LayerStep.

(** * The invariant of the edge scan *)

(** The column order is a topological order of the graph: every parent of
    a visible node comes before it (latents are negative, so only the
    visible parents are constrained). *)
Definition topological (structure : Tensor bool) (L V : Z) : Prop :=
  forall p c, 0 <= c < V -> - L <= p < V -> edge structure L p c = true -> p < c.

(** What a presence range [r] of latent [v] records once the visible nodes
    below [c] are scanned: nothing when [v] has no child among them, and
    otherwise the positions, less one, of the first and last layer that
    count a child of [v]. *)
Definition range_spec (structure : Tensor bool) (L c : Z)
  (layers : list SEMNANLayerData) (v : Z) (r : Z * Z) : Prop :=
  (r = (-1, -1) /\ forall c', 0 <= c' < c -> edge structure L v c' = false)
  \/
  (0 <= fst r <= snd r /\ snd r + 1 < zlength layers /\
   (exists c1, 0 <= c1 < c /\ edge structure L v c1 = true /\
               at_layer layers (Z.to_nat (fst r + 1)) c1) /\
   (exists c2, 0 <= c2 < c /\ edge structure L v c2 = true /\
               at_layer layers (Z.to_nat (snd r + 1)) c2) /\
   (forall c' i, 0 <= c' < c -> edge structure L v c' = true ->
                 at_layer layers i c' -> fst r + 1 <= Z.of_nat i <= snd r + 1)).

Record scan_inv (structure : Tensor bool) (L V c : Z) (s : Scan) : Prop := {
  inv_pv_done : forall c', 0 <= c' < c ->
    nth_error (parents_vec s) (Z.to_nat c') = Some (parents_of structure L V c');
  inv_pv_todo : forall c', c <= c' < V ->
    nth_error (parents_vec s) (Z.to_nat c') = Some [];
  inv_count : edge_count s = zlength (concat (parents_vec s));
  inv_cv_total : zlength (concat (concat (children_vec s))) = edge_count s;
  inv_contig : contiguous 0 (scan_layers s) c;
  inv_layer_max :
    layer_max s <= Z.max 0 (base (last (scan_layers s) SEMNANLayerData_default));
  inv_prec : topological structure L V ->
    forall c' p i l, 0 <= c' < c -> In p (parents_of structure L V c') ->
      nth_error (scan_layers s) i = Some l -> in_layer l c' ->
      p < 0 \/ p < base l;
  inv_ranges : forall v, - L <= v < 0 ->
    range_spec structure L c (scan_layers s) v (range_of (scan_ranges s) L v)
}.

Lemma in_parents_of structure L V p c :
  In p (parents_of structure L V c) <-> - L <= p < V /\ edge structure L p c = true.
Proof. unfold parents_of. rewrite filter_In, in_zrange. reflexivity. Qed.

Lemma range_of_repeat n L v : range_of (repeat (-1, -1) n) L v = (-1, -1).
Proof.
  unfold range_of. destruct (nth_in_or_default (Z.to_nat (v + L)) (repeat (-1, -1) n) (-1, -1)) as [H|H].
  - now apply repeat_spec in H.
  - exact H.
Qed.

Lemma scan_inv_init structure L V :
  0 <= V -> scan_inv structure L V 0 (scan_init L V).
Proof.
  intros HV. constructor; simpl.
  - intros c' Hc'. lia.
  - intros c' Hc'. apply nth_error_repeat. lia.
  - induction (Z.to_nat V); simpl; auto.
  - unfold total_size. rewrite app_nil_r.
    induction (Z.to_nat (L + V)); simpl; auto.
  - repeat split; lia.
  - lia.
  - intros _ c' p i l Hc'. lia.
  - intros v Hv. left. split; [apply range_of_repeat|]. intros c' Hc'. lia.
Qed.

Lemma last_snoc {A} (l : list A) a d : last (l ++ [a]) d = a.
Proof. apply last_last. Qed.

Lemma scan_inv_step structure L V c s s' :
  0 <= L ->
  0 <= c < V -> scan_shape L V s -> scan_inv structure L V c s ->
  scan_step structure L V c s s' -> scan_shape L V s' ->
  scan_inv structure L V (c + 1) s'.
Proof.
  intros HL Hc Hsh [Hdone Htodo Hcount Htot Hcontig Hlm Hprec Hranges] Hstep Hsh'.
  destruct Hstep as (pv0 & n & front & lastl & Hpv0 & Hec & Hpv & Hsplit & Hls'
                     & Htrig & Htot' & Hr').
  assert (pv0 = []).
  { rewrite Htodo in Hpv0 by lia. now inversion Hpv0. }
  subst pv0. simpl in Hpv.
  pose proof (step_last_end _ _ _ _ _ _ Hcontig Hsplit) as (Hfront & Hnum & Hend).
  pose proof (step_contiguous _ _ _ _ _ _ Hcontig Hsplit) as Hcontig'.
  pose proof (step_at_last _ _ _ _ _ _ Hcontig Hsplit) as Hat.
  pose proof (step_length _ _ _ _ _ _ Hsplit) as Hlen'.
  rewrite <- Hls' in Hcontig', Hat, Hlen'.
  assert (Hpvlen : (Z.to_nat c < length (parents_vec s))%nat).
  { destruct Hsh as [Hp _ _ _ _ _]. unfold zlength in Hp. lia. }
  constructor.
  - (* parents found so far *)
    intros c' Hc'. rewrite Hpv, nth_error_list_set.
    destruct (Nat.eqb_spec (Z.to_nat c) (Z.to_nat c')) as [E|E].
    + assert (c' = c) by lia. subst c'. rewrite Htodo by lia. reflexivity.
    + apply Hdone. lia.
  - intros c' Hc'. rewrite Hpv, nth_error_list_set_neq by lia. apply Htodo. lia.
  - rewrite Hec, Hpv, (concat_list_set_length _ _ [] _ (Htodo c ltac:(lia))), Hcount.
    change (zlength (@nil Z)) with 0. lia.
  - rewrite Htot', Htot, Hec. reflexivity.
  - exact Hcontig'.
  - rewrite Hls', last_snoc. simpl.
    destruct Htrig as [(Hn0 & -> & _)|(Hn & ->)].
    + rewrite (step_not_opened _ _ _ _ _ _ Hsplit Hn0), last_snoc in Hlm. exact Hlm.
    + rewrite (step_opened _ _ _ _ _ _ Hsplit Hn). lia.
  - (* parents lie before the layer *)
    intros Htopo c' p i l Hc' Hp Hl Hin.
    destruct (Z.eq_dec c' c) as [->|Hne].
    + assert (i = length front).
      { eapply contiguous_unique; [exact Hcontig'| |exact Hat].
        exists l. auto. }
      subst i. rewrite Hls', nth_error_app2, Nat.sub_diag in Hl by lia.
      simpl in Hl. inversion Hl. subst l. simpl.
      apply in_parents_of in Hp as Hp'. destruct Hp' as [Hpr He].
      destruct Htrig as [(Hn0 & _ & Hall)|(Hn & _)].
      * specialize (Hall p Hp).
        rewrite (step_not_opened _ _ _ _ _ _ Hsplit Hn0), last_snoc in Hlm. lia.
      * rewrite (step_opened _ _ _ _ _ _ Hsplit Hn).
        right. apply Htopo; auto.
    + assert (Hat' : at_layer (scan_layers s) i c').
      { eapply step_at_layer_old; eauto. rewrite <- Hls'. exists l. auto. }
      destruct Hat' as (l0 & Hl0 & Hin0).
      rewrite Hls' in Hl.
      destruct (step_base _ _ _ _ _ _ Hsplit i l Hl) as [(l1 & Hl1 & Hb)|Hb].
      * assert (l1 = l0) by congruence. subst l1. rewrite Hb.
        eapply Hprec; eauto. lia.
      * pose proof (contiguous_bounds _ _ _ _ _ _ Hcontig Hl0 Hin0).
        apply in_parents_of in Hp. destruct Hp as [Hpr He].
        right. rewrite Hb. specialize (Htopo p c' ltac:(lia) Hpr He). lia.
  - (* presence ranges *)
    intros v Hv. rewrite Hr' by auto.
    assert (Hold : forall i x, x <> c -> at_layer (scan_layers s') i x ->
                               at_layer (scan_layers s) i x).
    { intros i x Hx. rewrite Hls'. eapply step_at_layer_old; eauto. }
    assert (Hnew : forall i x, at_layer (scan_layers s) i x ->
                               at_layer (scan_layers s') i x).
    { intros i x. rewrite Hls'. eapply step_at_layer_new; eauto. }
    assert (Hlastpos : Z.of_nat (length front) = zlength (scan_layers s') - 1).
    { rewrite Hls', zlength_app. unfold zlength. simpl. lia. }
    assert (Hlen2 : 2 <= zlength (scan_layers s')).
    { destruct Hsh' as [_ _ _ _ H _]. exact H. }
    assert (Hatc : at_layer (scan_layers s')
                     (Z.to_nat (zlength (scan_layers s') - 2 + 1)) c).
    { replace (Z.to_nat (zlength (scan_layers s') - 2 + 1)) with (length front) by lia.
      exact Hat. }
    assert (Huniq : forall i, at_layer (scan_layers s') i c ->
                              Z.of_nat i = zlength (scan_layers s') - 1).
    { intros i Hi. rewrite <- Hlastpos. f_equal.
      eapply contiguous_unique; eauto. }
    specialize (Hranges v Hv).
    destruct (edge structure L v c) eqn:Ev.
    + right. unfold extend_range.
      destruct Hranges as [[Hr Hnone]|(Hr1 & Hr2 & (c1 & Hc1 & He1 & Ha1) & _ & Hall)].
      * rewrite Hr. simpl. repeat split; try lia.
        -- exists c. repeat split; auto; lia.
        -- exists c. repeat split; auto; lia.
        -- destruct (Z.eq_dec c' c) as [->|Hne].
           ++ rewrite (Huniq _ H1). lia.
           ++ rewrite Hnone in H0 by lia. discriminate.
        -- destruct (Z.eq_dec c' c) as [->|Hne].
           ++ rewrite (Huniq _ H1). lia.
           ++ rewrite Hnone in H0 by lia. discriminate.
      * destruct (Z.eqb_spec (fst (range_of (scan_ranges s) L v)) (-1)); [lia|].
        simpl. repeat split; try lia.
        -- exists c1. repeat split; auto; lia.
        -- exists c. repeat split; auto; lia.
        -- destruct (Z.eq_dec c' c) as [->|Hne].
           ++ rewrite (Huniq _ H1). lia.
           ++ apply (Hall c' i); auto. lia.
        -- destruct (Z.eq_dec c' c) as [->|Hne].
           ++ rewrite (Huniq _ H1). lia.
           ++ assert (Z.of_nat i <= snd (range_of (scan_ranges s) L v) + 1)
                by (apply (Hall c' i); auto; lia).
              lia.
    + destruct Hranges as [[Hr Hnone]|(Hr1 & Hr2 & (c1 & Hc1 & He1 & Ha1)
                                       & (c2 & Hc2 & He2 & Ha2) & Hall)].
      * left. split; auto. intros c' Hc'.
        destruct (Z.eq_dec c' c) as [->|Hne]; auto. apply Hnone. lia.
      * right. repeat split; try lia.
        -- exists c1. repeat split; auto; lia.
        -- exists c2. repeat split; auto; lia.
        -- destruct (Z.eq_dec c' c) as [->|Hne]; [congruence|].
           apply (Hall c' i); auto. lia.
        -- destruct (Z.eq_dec c' c) as [->|Hne]; [congruence|].
           apply (Hall c' i); auto. lia.
Qed.

Lemma scan_edges_ok structure L V :
  well_shaped structure L V ->
  exists s, scan_edges structure L V = Ok s /\ scan_shape L V s /\
            scan_inv structure L V V s.
Proof.
  intros Hshape. pose proof Hshape as (HL & HV & _).
  apply (scan_edges_inv structure L V Hshape (scan_inv structure L V)).
  - apply scan_inv_init. exact HV.
  - intros c s s' Hc Hsh Hinv Hstep Hsh'.
    exact (scan_inv_step structure L V c s s' HL Hc Hsh Hinv Hstep Hsh').
Qed.

(** ** Sums over lists, to count the children row by row *)

Definition zsum {X : Type} (f : X -> Z) (l : list X) : Z :=
  fold_right (fun x a => f x + a) 0 l.

Lemma zsum_app {X} (f : X -> Z) l1 l2 : zsum f (l1 ++ l2) = zsum f l1 + zsum f l2.
Proof. induction l1 as [|x l1 IH]; simpl; [reflexivity|]. rewrite IH. lia. Qed.

Lemma zsum_ext_in {X} (f g : X -> Z) l :
  (forall x, In x l -> f x = g x) -> zsum f l = zsum g l.
Proof.
  induction l as [|x l IH]; intros H; simpl; [reflexivity|].
  rewrite (H x (or_introl eq_refl)), IH; auto. intros y Hy. apply H. now right.
Qed.

Lemma zsum_plus {X} (f g : X -> Z) l :
  zsum (fun x => f x + g x) l = zsum f l + zsum g l.
Proof. induction l as [|x l IH]; simpl; [reflexivity|]. rewrite IH. lia. Qed.

Lemma zsum_zero {X} (l : list X) : zsum (fun _ => 0) l = 0.
Proof. induction l; simpl; auto. Qed.

Lemma zsum_swap {X Y} (f : X -> Y -> Z) xs ys :
  zsum (fun x => zsum (fun y => f x y) ys) xs =
  zsum (fun y => zsum (fun x => f x y) xs) ys.
Proof.
  induction xs as [|x xs IH]; simpl.
  - now rewrite zsum_zero.
  - rewrite IH. now rewrite zsum_plus.
Qed.

Lemma zlength_concat {A} (l : list (list A)) : zlength (concat l) = zsum zlength l.
Proof.
  induction l as [|x l IH]; simpl; [reflexivity|]. now rewrite zlength_app, IH.
Qed.

Lemma zsum_map {X Y} (f : Y -> Z) (g : X -> Y) l :
  zsum f (map g l) = zsum (fun x => f (g x)) l.
Proof. induction l as [|x l IH]; simpl; [reflexivity|]. now rewrite IH. Qed.

Lemma zsum_concat {X} (f : X -> Z) (l : list (list X)) :
  zsum f (concat l) = zsum (zsum f) l.
Proof.
  induction l as [|x l IH]; simpl; [reflexivity|]. now rewrite zsum_app, IH.
Qed.

Lemma list_as_map_seq {A} (l : list A) d :
  l = map (fun r => nth r l d) (seq 0 (length l)).
Proof.
  apply nth_error_ext. intros j. rewrite nth_error_map, nth_error_seq.
  destruct (Nat.ltb_spec j (length l)) as [H|H]; simpl.
  - now apply nth_error_nth'.
  - now apply nth_error_None.
Qed.

Lemma children_flat_total (cv : list (list (list Z))) t :
  Forall (fun b => zlength b = Z.of_nat t) cv ->
  zlength (children_flat cv (seq 0 t)) = zlength (concat (concat cv)).
Proof.
  intros Hcv. unfold children_flat.
  rewrite zlength_concat, zsum_map.
  rewrite (zsum_ext_in _ (fun r => zsum (fun b => zlength (nth r b [])) cv)).
  2:{ intros r _. unfold row_buckets. now rewrite zlength_concat, zsum_map. }
  rewrite zsum_swap, zlength_concat, zsum_concat.
  apply zsum_ext_in. intros b Hb.
  rewrite Forall_forall in Hcv. specialize (Hcv b Hb).
  replace t with (length b) by (unfold zlength in Hcv; lia).
  transitivity (zsum zlength (map (fun r => nth r b []) (seq 0 (length b)))).
  - now rewrite zsum_map.
  - now rewrite <- list_as_map_seq.
Qed.

(** * What [make_structures] computes *)

(** Once the scan has run, the rest of [make_structures] fails only in
    the loop that spreads the presence ranges, and otherwise yields the
    CSR arrays of the scanned vectors. *)
Lemma make_structures_run structure L V s :
  well_shaped structure L V ->
  scan_edges structure L V = Ok s ->
  scan_shape L V s -> scan_inv structure L V V s ->
  make_structures structure L V =
  ('(nv, count) <-
     foldM (spread_latent L (scan_ranges s)) (zrange (- L) 0)
           (repeat [] (Z.to_nat (zlength (scan_layers s))), 0) ;;
   '(ns, nbases, ls) <- make_latent_neighbors nv count (scan_layers s) ;;
   Ok {| parents := concat (parents_vec s);
         parents_bases := offsets_from 0 (parents_vec s);
         children := children_flat (children_vec s) (seq 0 (Z.to_nat (L + V)));
         children_bases :=
           children_rows 0 (children_vec s) (seq 0 (Z.to_nat (L + V)));
         latent_neighbors := ns;
         latent_neighbors_bases := nbases;
         latent_presence_range := scan_ranges s;
         layers_vec := ls |}).
Proof.
  intros (HL & HV & _) Hrun [Hpv Hcvl Hcvs Hrs Hls Hidx] Hinv.
  unfold make_structures. rewrite Hrun. simpl bind.
  rewrite (make_parents_ok V s HV Hpv (inv_count _ _ _ _ _ Hinv)).
  simpl bind.
  assert (Htotal : edge_count s =
                   zlength (children_flat (children_vec s) (seq 0 (Z.to_nat (L + V))))).
  { rewrite children_flat_total.
    - symmetry. apply Hinv.
    - eapply Forall_impl; [|exact Hcvs]. simpl. intros b Hb. lia. }
  rewrite (make_children_ok L V s (zlength (scan_layers s)) HL HV
             ltac:(lia) Hcvl Hcvs Htotal).
  reflexivity.
Qed.

(** Latent [v] has at least one outgoing edge. *)
Definition latent_has_edge (structure : Tensor bool) (L V v : Z) : bool :=
  existsb (edge structure L v) (zrange 0 V).

Definition every_latent_has_edge (structure : Tensor bool) (L V : Z) : bool :=
  forallb (latent_has_edge structure L V) (zrange (- L) 0).

(** The members a run of [make_structures] leaves behind when the scan
    ended in state [s]. *)
Definition structures_of (L V : Z) (s : Scan) : Structures :=
  let nv := map (neighbors_of (scan_ranges s) L 0)
                (zrange 0 (zlength (scan_layers s))) in
  {| parents := concat (parents_vec s);
     parents_bases := offsets_from 0 (parents_vec s);
     children := children_flat (children_vec s) (seq 0 (Z.to_nat (L + V)));
     children_bases := children_rows 0 (children_vec s) (seq 0 (Z.to_nat (L + V)));
     latent_neighbors := concat nv;
     latent_neighbors_bases := offsets_from 0 nv;
     latent_presence_range := scan_ranges s;
     layers_vec := with_lat_width (scan_layers s) nv |}.

Lemma latent_has_edge_true structure L V v :
  latent_has_edge structure L V v = true <->
  exists c, 0 <= c < V /\ edge structure L v c = true.
Proof.
  unfold latent_has_edge. rewrite existsb_exists.
  split; intros (c & H1 & H2); exists c; split; auto; now apply in_zrange.
Qed.

Lemma latent_has_edge_false structure L V v :
  latent_has_edge structure L V v = false <->
  forall c, 0 <= c < V -> edge structure L v c = false.
Proof.
  split.
  - intros H c Hc. destruct (edge structure L v c) eqn:E; auto.
    assert (latent_has_edge structure L V v = true)
      by (apply latent_has_edge_true; eauto).
    congruence.
  - intros H. destruct (latent_has_edge structure L V v) eqn:E; auto.
    apply latent_has_edge_true in E. destruct E as (c & Hc & He).
    rewrite H in He by auto. discriminate.
Qed.

Lemma range_spec_final structure L V layers v r :
  range_spec structure L V layers v r ->
  (latent_has_edge structure L V v = false /\ r = (-1, -1)) \/
  (latent_has_edge structure L V v = true /\ range_valid (zlength layers) r).
Proof.
  intros [[Hr Hnone]|(Hr1 & Hr2 & (c1 & Hc1 & He1 & _) & _)].
  - left. split; auto. now apply latent_has_edge_false.
  - right. split.
    + apply latent_has_edge_true. eauto.
    + unfold range_valid. lia.
Qed.

(** The two ways a run of [make_structures] ends on a well-shaped
    structure matrix. *)
Lemma make_structures_cases structure L V :
  well_shaped structure L V ->
  exists s,
    scan_edges structure L V = Ok s /\ scan_shape L V s /\
    scan_inv structure L V V s /\
    ((every_latent_has_edge structure L V = true /\
      make_structures structure L V = Ok (structures_of L V s))
     \/
     (every_latent_has_edge structure L V = false /\
      make_structures structure L V = Err (OutOfBounds (-1)))).
Proof.
  intros Hshape. pose proof Hshape as (HL & HV & _).
  destruct (scan_edges_ok structure L V Hshape) as (s & Hrun & Hsh & Hinv).
  exists s. split; [exact Hrun|]. split; [exact Hsh|]. split; [exact Hinv|].
  rewrite (make_structures_run structure L V s Hshape Hrun Hsh Hinv).
  pose proof (sh_ranges _ _ _ Hsh) as Hrl.
  pose proof (sh_layers _ _ _ Hsh) as Hll.
  assert (Hfinal : forall v, - L <= v < 0 ->
            (latent_has_edge structure L V v = false /\
             range_of (scan_ranges s) L v = (-1, -1)) \/
            (latent_has_edge structure L V v = true /\
             range_valid (zlength (scan_layers s)) (range_of (scan_ranges s) L v))).
  { intros v Hv. eapply range_spec_final. apply Hinv. exact Hv. }
  destruct (every_latent_has_edge structure L V) eqn:Hall.
  - left. split; [reflexivity|].
    unfold every_latent_has_edge in Hall. rewrite forallb_forall in Hall.
    rewrite spread_all_ok; auto; try lia.
    2:{ intros v Hv. destruct (Hfinal v Hv) as [[Hf _]|[_ Hok]]; auto.
        rewrite Hall in Hf by (apply in_zrange; lia). discriminate. }
    simpl bind. rewrite make_latent_neighbors_ok; auto.
    unfold zlength at 1. rewrite length_map, zrange_length. lia.
  - right. split; [reflexivity|].
    rewrite spread_all_unset; auto; try lia.
    + intros v Hv. destruct (Hfinal v Hv) as [[_ Hun]|[_ Hok]]; auto.
    + unfold every_latent_has_edge in Hall.
      assert (H : exists v, In v (zrange (- L) 0) /\
                            latent_has_edge structure L V v = false).
      { clear - Hall. induction (zrange (- L) 0) as [|v l IH]; simpl in Hall.
        - discriminate.
        - destruct (latent_has_edge structure L V v) eqn:E.
          + destruct (IH Hall) as (w & Hw & Hf). exists w. split; auto. now right.
          + exists v. split; auto. now left. }
      destruct H as (v & Hv & Hf). apply in_zrange in Hv.
      exists v. split; auto.
      destruct (Hfinal v Hv) as [[_ Hun]|[Ht _]]; auto. congruence.
Qed.

(** * Properties of the compiled structures *)

(** The layering of the visible nodes: positions are the layers' indices,
    every visible node is counted in exactly one layer, and the parents of
    a node are latent or counted in an earlier layer. *)
Definition layering_ok (structure : Tensor bool) (L V : Z)
  (layers : list SEMNANLayerData) : Prop :=
  (forall i l, nth_error layers i = Some l -> idx l = Z.of_nat i) /\
  (forall c, 0 <= c < V ->
     exists i, at_layer layers i c /\ forall j, at_layer layers j c -> j = i) /\
  (forall c p i, 0 <= c < V -> - L <= p < V -> edge structure L p c = true ->
     at_layer layers i c ->
     p < 0 \/ exists j, (j < i)%nat /\ at_layer layers j p).

(** Decidable forms of the preconditions. *)
Definition well_shapedb (structure : Tensor bool) (L V : Z) : bool :=
  (0 <=? L) && (0 <=? V) && sizes_eqb (sizes structure) [L + V; V]
  && (zlength (data structure) =? (L + V) * V).

Definition topologicalb (structure : Tensor bool) (L V : Z) : bool :=
  forallb (fun c =>
             forallb (fun p => implb (edge structure L p c) (p <? c))
                     (zrange (- L) V))
          (zrange 0 V).

Lemma well_shapedb_spec structure L V :
  well_shapedb structure L V = true -> well_shaped structure L V.
Proof.
  unfold well_shapedb, well_shaped, sizes_eqb. intros H.
  apply andb_prop in H. destruct H as [H H4].
  apply andb_prop in H. destruct H as [H H3].
  apply andb_prop in H. destruct H as [H1 H2].
  destruct (list_eq_dec Z.eq_dec (sizes structure) [L + V; V]); [|discriminate].
  repeat split; auto; lia.
Qed.

Lemma topologicalb_spec structure L V :
  topologicalb structure L V = true -> topological structure L V.
Proof.
  unfold topologicalb, topological. intros H p c Hc Hp He.
  rewrite forallb_forall in H. specialize (H c ltac:(apply in_zrange; lia)).
  rewrite forallb_forall in H. specialize (H p ltac:(apply in_zrange; lia)).
  rewrite He in H. simpl in H. lia.
Qed.

Lemma nth_error_with_lat_width layers nv i :
  length layers = length nv ->
  nth_error (with_lat_width layers nv) i =
  match nth_error layers i with
  | Some l => Some (set_lat_width (zlength (nth i nv [])) l)
  | None => None
  end.
Proof.
  revert nv i. induction layers as [|l layers IH]; intros [|vs nv] [|i] H;
    simpl in *; try discriminate; auto.
  apply IH. lia.
Qed.

Lemma at_layer_with_lat_width layers nv i c :
  length layers = length nv ->
  at_layer (with_lat_width layers nv) i c <-> at_layer layers i c.
Proof.
  intros H. unfold at_layer. rewrite nth_error_with_lat_width by auto. split.
  - intros (l' & Hl' & Hin). destruct (nth_error layers i) as [l|]; [|discriminate].
    inversion Hl'. subst l'. exists l. auto.
  - intros (l & -> & Hin). eexists. split; [reflexivity|]. exact Hin.
Qed.

Lemma scan_layering structure L V s :
  topological structure L V ->
  scan_shape L V s -> scan_inv structure L V V s ->
  layering_ok structure L V (scan_layers s).
Proof.
  intros Htopo Hsh Hinv.
  pose proof (inv_contig _ _ _ _ _ Hinv) as Hcontig.
  split; [apply Hsh|]. split.
  - intros c Hc. destruct (contiguous_cover _ _ _ _ Hcontig Hc) as (i & Hi).
    exists i. split; auto. intros j Hj. eapply contiguous_unique; eauto.
  - intros c p i Hc Hp He (l & Hl & Hin).
    destruct (inv_prec _ _ _ _ _ Hinv Htopo c p i l Hc) as [Hneg|Hlt]; auto.
    { apply in_parents_of. auto. }
    destruct (Z_lt_ge_dec p 0) as [Hp0|Hp0]; [left; exact Hp0|right].
    eapply contiguous_before; eauto. lia.
Qed.

Lemma layering_ok_with_lat_width structure L V layers nv :
  length layers = length nv ->
  layering_ok structure L V layers ->
  layering_ok structure L V (with_lat_width layers nv).
Proof.
  intros Hlen (Hidx & Hpart & Hprec). split; [|split].
  - intros i l'. rewrite nth_error_with_lat_width by auto.
    destruct (nth_error layers i) as [l|] eqn:E; [|discriminate].
    intros [= <-]. simpl. now apply Hidx.
  - intros c Hc. destruct (Hpart c Hc) as (i & Hi & Hu). exists i. split.
    + now apply at_layer_with_lat_width.
    + intros j Hj. apply Hu. now apply at_layer_with_lat_width in Hj.
  - intros c p i Hc Hp He Hi. apply at_layer_with_lat_width in Hi; auto.
    destruct (Hprec c p i Hc Hp He Hi) as [Hneg|(j & Hj & Hat)]; auto.
    right. exists j. split; auto. now apply at_layer_with_lat_width.
Qed.

Lemma neighbors_length (s : Scan) L :
  length (scan_layers s) =
  length (map (neighbors_of (scan_ranges s) L 0) (zrange 0 (zlength (scan_layers s)))).
Proof. rewrite length_map, zrange_length. unfold zlength. lia. Qed.

(** C6. For every structure matrix whose column order is a topological
    order of the graph, the scan of [make_structures] (boundary marker
    started at -1, a new layer opened whenever a parent index is not below
    the marker) runs to its end, and the layer records it builds, as well
    as those of the finished [make_structures], count every visible node
    in exactly one layer and place every parent of a node of layer [i]
    among the latents or in a layer of index below [i]. *)
Theorem make_structures_layering structure L V :
  well_shaped structure L V ->
  topological structure L V ->
  (exists s, scan_edges structure L V = Ok s /\
             layering_ok structure L V (scan_layers s)) /\
  (forall out, make_structures structure L V = Ok out ->
               layering_ok structure L V (layers_vec out)).
Proof.
  intros Hshape Htopo.
  destruct (make_structures_cases structure L V Hshape)
    as (s & Hrun & Hsh & Hinv & Hcases).
  pose proof (scan_layering structure L V s Htopo Hsh Hinv) as Hok.
  split; [eauto|].
  intros out Hout.
  destruct Hcases as [[_ Hmk]|[_ Hmk]]; rewrite Hmk in Hout; [|discriminate].
  inversion Hout. subst out. simpl.
  apply layering_ok_with_lat_width; auto. apply neighbors_length.
Qed.

Definition example_structure : Tensor bool :=
  bools [[true; false; false];
         [false; true; true];
         [false; true; false];
         [false; false; true];
         [false; false; false]] 3.

Lemma make_structures_layering_witness :
  well_shaped example_structure 2 3 /\
  topological example_structure 2 3 /\
  ((exists s, scan_edges example_structure 2 3 = Ok s /\
              layering_ok example_structure 2 3 (scan_layers s)) /\
   (forall out, make_structures example_structure 2 3 = Ok out ->
                layering_ok example_structure 2 3 (layers_vec out))).
Proof.
  assert (Hs : well_shaped example_structure 2 3)
    by (apply well_shapedb_spec; vm_compute; reflexivity).
  assert (Ht : topological example_structure 2 3)
    by (apply topologicalb_spec; vm_compute; reflexivity).
  split; [exact Hs|]. split; [exact Ht|].
  exact (make_structures_layering example_structure 2 3 Hs Ht).
Defined.

(** ** Offsets *)

Lemma StronglySorted_app {A} (le : A -> A -> Prop) l1 l2 :
  StronglySorted le l1 -> StronglySorted le l2 ->
  (forall x y, In x l1 -> In y l2 -> le x y) ->
  StronglySorted le (l1 ++ l2).
Proof.
  intros H1 H2 H. induction H1 as [|a l1 Hs IH Hf]; simpl; auto.
  constructor.
  - apply IH. intros x y Hx Hy. apply H; auto. now right.
  - apply Forall_app. split; auto.
    apply Forall_forall. intros y Hy. apply H; auto. now left.
Qed.

Lemma children_rows_sorted cv rows : forall b,
  StronglySorted Z.le (concat (children_rows b cv rows)) /\
  Forall (fun x => b <= x) (concat (children_rows b cv rows)).
Proof.
  induction rows as [|r rows IH]; intros b; simpl.
  - split; constructor.
  - destruct (IH (b + zlength (concat (row_buckets cv r)))) as [Hs Hf].
    pose proof (offsets_from_lower b (row_buckets cv r)) as Hlo.
    pose proof (offsets_from_upper b (row_buckets cv r)) as Hup.
    split.
    + apply StronglySorted_app; auto.
      * apply offsets_from_sorted.
      * intros x y Hx Hy. rewrite Forall_forall in Hup, Hf.
        specialize (Hup x Hx). specialize (Hf y Hy). simpl in *. lia.
    + apply Forall_app. split; auto.
      eapply Forall_impl; [|exact Hf]. simpl. intros a Ha.
      pose proof (zlength_nonneg (concat (row_buckets cv r))). lia.
Qed.

Lemma children_rows_each_sorted cv rows : forall b,
  Forall (StronglySorted Z.le) (children_rows b cv rows).
Proof.
  induction rows as [|r rows IH]; intros b; simpl; constructor; auto.
  apply offsets_from_sorted.
Qed.

Lemma scan_parents_vec structure L V s :
  0 <= V -> scan_shape L V s -> scan_inv structure L V V s ->
  parents_vec s = map (parents_of structure L V) (zrange 0 V).
Proof.
  intros HV Hsh Hinv. apply nth_error_ext. intros j.
  rewrite nth_error_map, nth_error_zrange.
  pose proof (sh_pv _ _ _ Hsh) as Hlen.
  destruct (Nat.ltb_spec j (Z.to_nat (V - 0))) as [Hj|Hj]; simpl.
  - rewrite <- (inv_pv_done _ _ _ _ _ Hinv (Z.of_nat j)) by lia.
    f_equal. lia.
  - apply nth_error_None. unfold zlength in Hlen. lia.
Qed.

(** The number of edges, column by column. *)
Definition edges_by_column (structure : Tensor bool) (L V : Z) : Z :=
  zlength (concat (map (parents_of structure L V) (zrange 0 V))).

Definition b2z (b : bool) : Z := if b then 1 else 0.

Lemma zsum_cons {X} (f : X -> Z) x l : zsum f (x :: l) = f x + zsum f l.
Proof. reflexivity. Qed.

Lemma zlength_filter {X} (f : X -> bool) l :
  zlength (filter f l) = zsum (fun x => b2z (f x)) l.
Proof.
  induction l as [|x l IH]; [reflexivity|].
  rewrite zsum_cons. simpl filter. destruct (f x); simpl b2z.
  - rewrite <- IH. unfold zlength. simpl length. lia.
  - rewrite <- IH. reflexivity.
Qed.

Lemma zrange_shift lo hi k : zrange (lo + k) (hi + k) = map (fun i => i + k) (zrange lo hi).
Proof.
  unfold zrange. rewrite map_map.
  replace (hi + k - (lo + k)) with (hi - lo) by lia.
  apply map_ext. intros; lia.
Qed.

Lemma count_true_nth (l : list bool) :
  zsum (fun c => b2z (nth (Z.to_nat c) l false)) (zrange 0 (zlength l)) =
  Z.of_nat (count_occ bool_dec l true).
Proof.
  induction l as [|b l IH]; [reflexivity|].
  replace (zlength (b :: l)) with (zlength l + 1) by (unfold zlength; simpl length; lia).
  pose proof (zlength_nonneg l).
  rewrite zrange_cons by lia. rewrite zsum_cons.
  rewrite (zrange_shift 0 (zlength l) 1), zsum_map.
  rewrite (zsum_ext_in _ (fun c => b2z (nth (Z.to_nat c) l false))).
  2:{ intros c Hc. apply in_zrange in Hc.
      replace (Z.to_nat (c + 1)) with (S (Z.to_nat c)) by lia. reflexivity. }
  rewrite IH. simpl count_occ. simpl nth.
  destruct (bool_dec b true) as [->|Hb].
  - simpl b2z. rewrite Nat2Z.inj_succ. lia.
  - destruct b; [congruence|]. simpl b2z. lia.
Qed.

Lemma count_true_rows (n : nat) v : forall d : list bool,
  0 <= v -> zlength d = Z.of_nat n * v ->
  zsum (fun r => zsum (fun c => b2z (nth (Z.to_nat (r * v + c)) d false))
                      (zrange 0 v))
       (zrange 0 (Z.of_nat n)) =
  Z.of_nat (count_occ bool_dec d true).
Proof.
  induction n as [|n IH]; intros d Hv Hd.
  - assert (d = []).
    { destruct d; auto. unfold zlength in Hd. simpl in Hd. lia. }
    subst d. reflexivity.
  - replace (count_occ bool_dec d true)
      with (count_occ bool_dec (firstn (Z.to_nat v) d ++ skipn (Z.to_nat v) d) true)
      by (now rewrite firstn_skipn).
    rewrite count_occ_app, Nat2Z.inj_add.
    assert (Hdv : Z.of_nat (length d) = Z.of_nat n * v + v).
    { unfold zlength in Hd. rewrite Hd, Nat2Z.inj_succ. ring. }
    assert (Hnv : 0 <= Z.of_nat n * v) by (apply Z.mul_nonneg_nonneg; lia).
    assert (Hl1 : zlength (firstn (Z.to_nat v) d) = v).
    { unfold zlength. rewrite length_firstn. lia. }
    assert (Hl2 : zlength (skipn (Z.to_nat v) d) = Z.of_nat n * v).
    { unfold zlength. rewrite length_skipn. lia. }
    rewrite <- (IH _ Hv Hl2), <- count_true_nth, Hl1.
    rewrite (zrange_cons 0 (Z.of_nat (S n))) by lia. rewrite zsum_cons. f_equal.
    + apply zsum_ext_in. intros c Hc. apply in_zrange in Hc.
      rewrite <- (firstn_skipn (Z.to_nat v) d) at 1.
      rewrite app_nth1; [f_equal|]. unfold zlength in Hl1. lia.
    + replace (Z.of_nat (S n)) with (Z.of_nat n + 1) by lia.
      rewrite (zrange_shift 0 (Z.of_nat n) 1), zsum_map.
      apply zsum_ext_in. intros r Hr. apply in_zrange in Hr.
      apply zsum_ext_in. intros c Hc. apply in_zrange in Hc.
      rewrite <- (firstn_skipn (Z.to_nat v) d) at 1.
      assert (Hrv : 0 <= r * v) by (apply Z.mul_nonneg_nonneg; lia).
      rewrite app_nth2 by (unfold zlength in Hl1; lia).
      do 2 f_equal. unfold zlength in Hl1.
      replace ((r + 1) * v) with (r * v + v) by ring. lia.
Qed.

Lemma edge_nth structure L V p c :
  well_shaped structure L V -> - L <= p < V -> 0 <= c < V ->
  edge structure L p c = nth (Z.to_nat ((p + L) * V + c)) (data structure) false.
Proof.
  intros (HL & HV & Hs & Hd) Hp Hc. unfold edge, item2. rewrite Hs.
  rewrite !wrap_index_ok by lia. simpl.
  destruct (nth_error (data structure) (Z.to_nat ((p + L) * V + c))) eqn:E.
  - symmetry. now apply nth_error_nth.
  - apply nth_error_None in E. symmetry. now apply nth_overflow.
Qed.

(** Counting the edges column by column counts the [true] entries. *)
Lemma edges_by_column_total structure L V :
  well_shaped structure L V ->
  edges_by_column structure L V = total_edges structure.
Proof.
  intros Hshape. pose proof Hshape as (HL & HV & Hs & Hd).
  unfold edges_by_column, total_edges.
  rewrite zlength_concat, zsum_map.
  rewrite (zsum_ext_in _
             (fun c => zsum (fun p => b2z (nth (Z.to_nat ((p + L) * V + c))
                                                (data structure) false))
                            (zrange (- L) V))).
  2:{ intros c Hc. apply in_zrange in Hc. unfold parents_of.
      rewrite zlength_filter. apply zsum_ext_in. intros p Hp. apply in_zrange in Hp.
      now rewrite (edge_nth structure L V). }
  rewrite zsum_swap.
  replace (zrange (- L) V) with (zrange (0 + - L) (L + V + - L)) by (f_equal; lia).
  rewrite zrange_shift, zsum_map.
  rewrite <- (count_true_rows (Z.to_nat (L + V)) V (data structure) HV)
    by (rewrite Z2Nat.id by lia; exact Hd).
  replace (Z.of_nat (Z.to_nat (L + V))) with (L + V) by lia.
  apply zsum_ext_in. intros r Hr. apply zsum_ext_in. intros c Hc.
  do 3 f_equal. lia.
Qed.

(** C9. On every structure matrix that [make_structures] compiles, the
    parent offsets and the child offsets (row after row, and so each row)
    are non-decreasing, and the last parent offset is the number of edges,
    that is, of [true] entries, of the structure matrix. *)
Theorem make_structures_offsets structure L V out :
  well_shaped structure L V ->
  make_structures structure L V = Ok out ->
  StronglySorted Z.le (parents_bases out) /\
  StronglySorted Z.le (concat (children_bases out)) /\
  Forall (StronglySorted Z.le) (children_bases out) /\
  last (parents_bases out) 0 = total_edges structure.
Proof.
  intros Hshape Hout. pose proof Hshape as (HL & HV & _).
  destruct (make_structures_cases structure L V Hshape)
    as (s & Hrun & Hsh & Hinv & Hcases).
  destruct Hcases as [[_ Hmk]|[_ Hmk]]; rewrite Hmk in Hout; [|discriminate].
  inversion Hout. subst out. simpl.
  split; [apply offsets_from_sorted|].
  split; [apply children_rows_sorted|].
  split; [apply children_rows_each_sorted|].
  rewrite offsets_from_last, (scan_parents_vec structure L V s HV Hsh Hinv).
  rewrite <- (edges_by_column_total structure L V Hshape). reflexivity.
Qed.

(** What [make_structures] leaves behind on [example_structure]. *)
Definition example_structures : Structures :=
  {| parents := [-2; -1; 0; -1; 1];
     parents_bases := [0; 1; 3; 5];
     children := [0; 1; 2; 1; 2];
     children_bases :=
       [[0; 1; 1; 1]; [1; 1; 2; 3]; [3; 3; 4; 4]; [4; 4; 4; 5]; [5; 5; 5; 5]];
     latent_neighbors := [-2; -1; -1];
     latent_neighbors_bases := [0; 1; 2; 3; 3];
     latent_presence_range := [(0, 0); (1, 2)];
     layers_vec := [mkLayer 0 0 0 1; mkLayer 1 0 1 1;
                    mkLayer 2 1 1 1; mkLayer 3 2 1 0] |}.

Lemma example_structures_run :
  make_structures example_structure 2 3 = Ok example_structures.
Proof. vm_compute. reflexivity. Qed.

Lemma example_well_shaped : well_shaped example_structure 2 3.
Proof. apply well_shapedb_spec. vm_compute. reflexivity. Qed.

Lemma make_structures_offsets_witness :
  well_shaped example_structure 2 3 /\
  make_structures example_structure 2 3 = Ok example_structures /\
  (StronglySorted Z.le (parents_bases example_structures) /\
   StronglySorted Z.le (concat (children_bases example_structures)) /\
   Forall (StronglySorted Z.le) (children_bases example_structures) /\
   last (parents_bases example_structures) 0 = total_edges example_structure).
Proof.
  split; [exact example_well_shaped|]. split; [exact example_structures_run|].
  exact (make_structures_offsets example_structure 2 3 example_structures
           example_well_shaped example_structures_run).
Defined.

(** ** Latents without an edge *)

(** C10. [make_structures] ends without an access outside its vectors
    exactly when every latent has an outgoing edge.  A latent whose row of
    the structure matrix is all false keeps the presence range (-1, -1)
    through the scan, the loop that spreads the ranges over the
    per-layer neighbour table then indexes that table at -1, and
    [make_structures] ends there. *)
Theorem make_structures_out_of_bounds structure L V :
  well_shaped structure L V ->
  ((exists out, make_structures structure L V = Ok out) <->
   every_latent_has_edge structure L V = true) /\
  (forall v, - L <= v < 0 -> latent_has_edge structure L V v = false ->
     (exists s, scan_edges structure L V = Ok s /\
                range_of (scan_ranges s) L v = (-1, -1) /\
                forall st, spread_latent L (scan_ranges s) st v
                           = Err (OutOfBounds (-1))) /\
     make_structures structure L V = Err (OutOfBounds (-1))).
Proof.
  intros Hshape.
  destruct (make_structures_cases structure L V Hshape)
    as (s & Hrun & Hsh & Hinv & Hcases).
  split.
  - destruct Hcases as [[Hall Hmk]|[Hall Hmk]]; rewrite Hmk, Hall.
    + split; eauto.
    + split; [intros (out & Hout); discriminate|discriminate].
  - intros v Hv Hnone.
    assert (Hr : range_of (scan_ranges s) L v = (-1, -1)).
    { destruct (range_spec_final _ _ _ _ _ _ (inv_ranges _ _ _ _ _ Hinv v Hv))
        as [[_ Hr]|[Ht _]]; [exact Hr|congruence]. }
    split.
    + exists s. split; [exact Hrun|]. split; [exact Hr|].
      intros st. apply spread_latent_unset; auto.
      rewrite (sh_ranges _ _ _ Hsh). lia.
    + destruct Hcases as [[Hall Hmk]|[Hall Hmk]]; [|exact Hmk].
      unfold every_latent_has_edge in Hall. rewrite forallb_forall in Hall.
      rewrite (Hall v) in Hnone by (apply in_zrange; lia). discriminate.
Qed.

(** A latent (the first of two) without any edge. *)
Definition childless_structure : Tensor bool :=
  bools [[false]; [true]; [false]] 1.

Lemma make_structures_out_of_bounds_witness :
  well_shaped childless_structure 2 1 /\
  (((exists out, make_structures childless_structure 2 1 = Ok out) <->
    every_latent_has_edge childless_structure 2 1 = true) /\
   (forall v, - 2 <= v < 0 -> latent_has_edge childless_structure 2 1 v = false ->
      (exists s, scan_edges childless_structure 2 1 = Ok s /\
                 range_of (scan_ranges s) 2 v = (-1, -1) /\
                 forall st, spread_latent 2 (scan_ranges s) st v
                            = Err (OutOfBounds (-1))) /\
      make_structures childless_structure 2 1 = Err (OutOfBounds (-1)))).
Proof.
  assert (Hs : well_shaped childless_structure 2 1)
    by (apply well_shapedb_spec; vm_compute; reflexivity).
  split; [exact Hs|].
  exact (make_structures_out_of_bounds childless_structure 2 1 Hs).
Defined.

Example childless_latent_fails :
  latent_has_edge childless_structure 2 1 (-2) = false /\
  make_structures childless_structure 2 1 = Err (OutOfBounds (-1)).
Proof. split; vm_compute; reflexivity. Qed.

(** ** Presence ranges and latent widths *)

(** What the presence range [r] of a latent [v] with an edge holds: the
    positions, less one, of the first and of the last layer that count a
    child of [v]. *)
Definition presence_range_ok (structure : Tensor bool) (L V : Z)
  (layers : list SEMNANLayerData) (v : Z) (r : Z * Z) : Prop :=
  0 <= fst r <= snd r /\ snd r + 1 < zlength layers /\
  (exists c1, 0 <= c1 < V /\ edge structure L v c1 = true /\
              at_layer layers (Z.to_nat (fst r + 1)) c1) /\
  (exists c2, 0 <= c2 < V /\ edge structure L v c2 = true /\
              at_layer layers (Z.to_nat (snd r + 1)) c2) /\
  (forall c i, 0 <= c < V /\ edge structure L v c = true /\ at_layer layers i c ->
               fst r + 1 <= Z.of_nat i <= snd r + 1).

(** The reading of the presence range as the layer indices themselves:
    [r] runs from the first to the last layer that counts a child of [v]. *)
Definition presence_range_as_layers (structure : Tensor bool) (L V : Z)
  (layers : list SEMNANLayerData) (v : Z) (r : Z * Z) : Prop :=
  (exists c1, 0 <= c1 < V /\ edge structure L v c1 = true /\
              at_layer layers (Z.to_nat (fst r)) c1) /\
  (exists c2, 0 <= c2 < V /\ edge structure L v c2 = true /\
              at_layer layers (Z.to_nat (snd r)) c2) /\
  (forall c i, 0 <= c < V /\ edge structure L v c = true /\ at_layer layers i c ->
               fst r <= Z.of_nat i <= snd r).

(** C8, amended. On every structure matrix that [make_structures]
    compiles, the presence range of each latent is
    (first layer - 1, last layer - 1), where first and last are the lowest
    and the highest index of a layer that counts a child of the latent,
    and the latent width recorded at position [i] of the layer list is the
    number of latents (each listed once) whose stored range covers [i]. *)
Theorem make_structures_presence structure L V out :
  well_shaped structure L V ->
  make_structures structure L V = Ok out ->
  (forall v, - L <= v < 0 ->
     presence_range_ok structure L V (layers_vec out) v
       (range_of (latent_presence_range out) L v)) /\
  (forall i l, nth_error (layers_vec out) i = Some l ->
     lat_width l =
     zlength (neighbors_of (latent_presence_range out) L 0 (Z.of_nat i)) /\
     NoDup (neighbors_of (latent_presence_range out) L 0 (Z.of_nat i))).
Proof.
  intros Hshape Hout.
  destruct (make_structures_cases structure L V Hshape)
    as (s & Hrun & Hsh & Hinv & Hcases).
  destruct Hcases as [[Hall Hmk]|[_ Hmk]]; rewrite Hmk in Hout; [|discriminate].
  inversion Hout. subst out. simpl. clear Hout Hmk.
  pose proof (neighbors_length s L) as Hlen.
  split.
  - intros v Hv.
    destruct (inv_ranges _ _ _ _ _ Hinv v Hv)
      as [[Hr Hnone]|(Hr1 & Hr2 & (c1 & Hc1 & He1 & Ha1)
                      & (c2 & Hc2 & He2 & Ha2) & Hbetween)].
    + unfold every_latent_has_edge in Hall. rewrite forallb_forall in Hall.
      specialize (Hall v ltac:(apply in_zrange; lia)).
      apply latent_has_edge_true in Hall. destruct Hall as (c & Hc & He).
      rewrite Hnone in He by auto. discriminate.
    + unfold presence_range_ok. split; [exact Hr1|]. split.
      { unfold zlength. rewrite with_lat_width_length by auto. exact Hr2. }
      split; [exists c1; repeat split; auto; try lia;
              now apply at_layer_with_lat_width|].
      split; [exists c2; repeat split; auto; try lia;
              now apply at_layer_with_lat_width|].
      intros c i (Hc & He & Ha). apply at_layer_with_lat_width in Ha; auto.
      apply (Hbetween c i); auto.
  - intros i l Hl. rewrite nth_error_with_lat_width in Hl by auto.
    destruct (nth_error (scan_layers s) i) as [l0|] eqn:El0; [|discriminate].
    inversion Hl. subst l. simpl. split.
    + f_equal.
      assert (Hi : (i < length (scan_layers s))%nat)
        by (apply nth_error_Some; congruence).
      apply nth_error_nth. rewrite nth_error_map, nth_error_zrange.
      destruct (Nat.ltb_spec i (Z.to_nat (zlength (scan_layers s) - 0)));
        [reflexivity|unfold zlength in *; lia].
    + unfold neighbors_of. apply NoDup_filter. apply zrange_NoDup.
Qed.

Lemma make_structures_presence_witness :
  well_shaped example_structure 2 3 /\
  make_structures example_structure 2 3 = Ok example_structures /\
  ((forall v, - 2 <= v < 0 ->
      presence_range_ok example_structure 2 3 (layers_vec example_structures) v
        (range_of (latent_presence_range example_structures) 2 v)) /\
   (forall i l, nth_error (layers_vec example_structures) i = Some l ->
      lat_width l =
      zlength (neighbors_of (latent_presence_range example_structures) 2 0
                            (Z.of_nat i)) /\
      NoDup (neighbors_of (latent_presence_range example_structures) 2 0
                          (Z.of_nat i)))).
Proof.
  split; [exact example_well_shaped|]. split; [exact example_structures_run|].
  exact (make_structures_presence example_structure 2 3 example_structures
           example_well_shaped example_structures_run).
Defined.

(** One latent, one visible node, one edge. *)
Definition single_edge_structure : Tensor bool := bools [[true]; [false]] 1.

Definition single_edge_structures : Structures :=
  {| parents := [-1];
     parents_bases := [0; 1];
     children := [0];
     children_bases := [[0; 0; 1]; [1; 1; 1]];
     latent_neighbors := [-1];
     latent_neighbors_bases := [0; 0; 1; 1];
     latent_presence_range := [(1, 1)];
     layers_vec := [mkLayer 0 0 0 0; mkLayer 1 0 0 1; mkLayer 2 0 1 0] |}.

(** C8, as stated, fails: the only child of the latent is counted in the
    layer of index 2, and the stored presence range is (1, 1). *)
Lemma presence_range_is_not_the_layer_range :
  make_structures single_edge_structure 1 1 = Ok single_edge_structures /\
  edge single_edge_structure 1 (-1) 0 = true /\
  at_layer (layers_vec single_edge_structures) 2 0 /\
  range_of (latent_presence_range single_edge_structures) 1 (-1) = (1, 1) /\
  ~ presence_range_as_layers single_edge_structure 1 1
      (layers_vec single_edge_structures) (-1)
      (range_of (latent_presence_range single_edge_structures) 1 (-1)).
Proof.
  split; [vm_compute; reflexivity|]. split; [vm_compute; reflexivity|].
  split.
  { exists (mkLayer 2 0 1 0). split; [reflexivity|]. unfold in_layer. simpl. lia. }
  split; [reflexivity|].
  intros ((c1 & Hc1 & _ & (l & Hl & Hin)) & _).
  simpl in Hl. inversion Hl. subst l. unfold in_layer in Hin. simpl in Hin. lia.
Qed.

(** * The parameters and their views *)

Lemma to_int32_small z : - 2 ^ 31 <= z < 2 ^ 31 -> to_int32 z = z.
Proof.
  intros H. unfold to_int32. rewrite Z.mod_small; lia.
Qed.

Lemma size_two {A} (t : Tensor A) n0 n1 :
  sizes t = [n0; n1] -> size t 0 = Ok n0 /\ size t 1 = Ok n1 /\ dim t = 2.
Proof.
  intros H. unfold size, dim, zlength. rewrite H. simpl. auto.
Qed.

Lemma sizes_eqb_refl a : sizes_eqb a a = true.
Proof. unfold sizes_eqb. destruct (list_eq_dec Z.eq_dec a a); congruence. Qed.

Lemma sizes_eqb_true a b : sizes_eqb a b = true -> a = b.
Proof. unfold sizes_eqb. destruct (list_eq_dec Z.eq_dec a b); congruence. Qed.

Lemma write_at_length mem t ix x : length (write_at mem t ix x) = length mem.
Proof. unfold write_at. apply list_set_length. Qed.

Lemma mul__length src t : forall mem, length (mul_ mem t src) = length mem.
Proof.
  unfold mul_. generalize (combine (indices (ref_sizes t)) src). intros l.
  induction l as [|[ix x] l IH]; intros mem; simpl; [reflexivity|].
  rewrite IH. apply write_at_length.
Qed.

(** The monad laws used to run a method by rewriting. *)
Lemma bindM_lift_ok {A B} (a : A) (k : A -> M B) this :
  bindM (lift (Ok a)) k this = k a this.
Proof. reflexivity. Qed.

Lemma bindM_lift_err {A B} e (k : A -> M B) this :
  bindM (lift (Err e)) k this = (Err e, this).
Proof. reflexivity. Qed.

Lemma bindM_modify {B} f (k : unit -> M B) this :
  bindM (modify f) k this = k tt (f this).
Proof. reflexivity. Qed.

Lemma bindM_get {A B} (f : Solver -> A) (k : A -> M B) this :
  bindM (get f) k this = k (f this) this.
Proof. reflexivity. Qed.

Lemma bindM_check_true {B} msg (k : unit -> M B) this :
  bindM (TORCH_CHECK true msg) k this = k tt this.
Proof. reflexivity. Qed.

Lemma bindM_check_false {B} msg (k : unit -> M B) this :
  bindM (TORCH_CHECK false msg) k this = (Err (CheckFailed msg), this).
Proof. reflexivity. Qed.

Lemma bindM_new_tensor {B} szs init (k : TensorRef -> M B) this :
  bindM (new_tensor szs init) k this =
  k {| storage := length (mem this); storage_offset := 0;
       ref_sizes := szs; strides := contiguous_strides szs |}
    (put_mem (mem this ++ [init]) this).
Proof. reflexivity. Qed.

Ltac members :=
  cbn [storage storage_offset ref_sizes strides structure lambda weights weights_grad covariance covariance_grad visible_covariance visible_covariance_grad sample_covariance sample_covariance_inv sample_covariance_logdet structures visible_size latent_size cuda_device_number dtype mem
        put_structure put_lambda put_weights put_weights_grad put_covariance put_covariance_grad put_visible_covariance put_visible_covariance_grad put_sample_covariance put_sample_covariance_inv put_sample_covariance_logdet put_structures put_visible_size put_latent_size put_cuda_device_number put_dtype put_mem].

Ltac run_method :=
  repeat first
    [ rewrite bindM_modify
    | rewrite bindM_get
    | rewrite bindM_check_true
    | rewrite bindM_check_false
    | rewrite bindM_lift_ok
    | rewrite bindM_lift_err
    | rewrite bindM_new_tensor
    | progress members ].

(** A construction is well-formed when [structure] is an (L+V) x V CUDA
    matrix with [V > 0] whose extents fit [int32_t], the precision is
    float or double, and [parameters] is absent or of the same extents. *)
Definition valid_construction (structure_arg : Tensor bool) (parameters : Tensor R)
  (dtype_arg : Dtype) (L V : Z) : Prop :=
  sizes structure_arg = [L + V; V] /\ 0 <= L /\ 0 < V /\ L + V < 2 ^ 31 /\
  is_cuda structure_arg = true /\ is_floating dtype_arg = true /\
  (numel parameters = 0 \/ sizes parameters = sizes structure_arg).

(** The state a well-formed construction leaves: the extents of the two
    covariance references, their common buffer and the positions their
    elements take in it. *)
Lemma init_parameters_run randn_like structure_arg parameters dtype_arg this0 L V :
  valid_construction structure_arg parameters dtype_arg L V ->
  exists this,
    init_parameters randn_like structure_arg parameters dtype_arg this0 = (Ok tt, this) /\
    latent_size this = L /\ visible_size this = V /\
    ref_sizes (covariance this) = [L + V; V] /\
    ref_sizes (visible_covariance this) = [V; V] /\
    storage (visible_covariance this) = storage (covariance this) /\
    (forall i j, address (visible_covariance this) [i; j] =
                 address (covariance this) [L + i; j]) /\
    (forall i j, address (covariance this) [i; j] = i * V + j) /\
    buffer (mem this) (covariance this) = repeat 0%R (Z.to_nat ((L + V) * V)).
Proof.
  intros (Hs & HL & HV & Hfit & Hcuda & Hfl & Hpar).
  destruct (size_two structure_arg _ _ Hs) as (H0 & H1 & Hd).
  assert (Hnum : (numel structure_arg >? 0) = true).
  { unfold numel. rewrite Hs. simpl. apply Z.gtb_lt. nia. }
  assert (Hpok : ((numel parameters =? 0)
                  || sizes_eqb (sizes parameters) (sizes structure_arg)) = true).
  { destruct Hpar as [-> | ->]; [reflexivity|].
    rewrite sizes_eqb_refl. apply orb_true_r. }
  assert (Hbase : (if numel parameters >? 0 then sizes parameters
                   else sizes structure_arg) = [L + V; V]).
  { destruct (numel parameters >? 0) eqn:E; [|exact Hs].
    destruct Hpar as [Hz|Hp]; [|congruence].
    rewrite Hz in E. discriminate. }
  unfold init_parameters. rewrite H1, H0, Hcuda, Hd, Hnum, Hfl, Hpok, Hbase.
  run_method.
  rewrite (to_int32_small V) by lia.
  rewrite (to_int32_small (L + V - V)) by lia.
  replace (L + V - V >=? 0) with true by (symmetry; apply Z.geb_le; lia).
  run_method. unfold new_zeros. run_method.
  eexists. split; [reflexivity|]. members.
  split; [lia|]. split; [reflexivity|]. split; [reflexivity|].
  unfold slice_from. members. cbn [nth_error contiguous_strides list_set].
  assert (Hstart : slice_start (L + V) (L + V - V) = L).
  { unfold slice_start. destruct (Z.ltb_spec (L + V - V) 0); lia. }
  rewrite Hstart. members.
  split; [f_equal; lia|]. split; [reflexivity|]. split.
  - intros i j. unfold address. members. cbn [dot numel_of fold_right]. ring.
  - split.
    + intros i j. unfold address. members. cbn [dot numel_of fold_right]. ring.
    + unfold buffer. members.
      rewrite <- !app_assoc. cbn [app].
      rewrite nth_middle. do 2 f_equal. unfold numel_of. simpl. lia.
Qed.

(** C2, amended. A well-formed construction with [L] latent and [V]
    visible nodes leaves a covariance of extents (L+V) x V (those of the
    weights), filled with zeros, and a visible covariance of extents V x V
    that is a view of its last V rows: same buffer, and element (i, j) of
    the view is element (L+i, j) of the covariance. *)
Theorem init_parameters_views randn_like structure_arg parameters dtype_arg this0 L V :
  valid_construction structure_arg parameters dtype_arg L V ->
  exists this,
    init_parameters randn_like structure_arg parameters dtype_arg this0 = (Ok tt, this) /\
    latent_size this = L /\ visible_size this = V /\
    ref_sizes (covariance this) = [L + V; V] /\
    ref_sizes (visible_covariance this) = [V; V] /\
    storage (visible_covariance this) = storage (covariance this) /\
    (forall i j, address (visible_covariance this) [i; j] =
                 address (covariance this) [L + i; j]) /\
    (forall i j, address (covariance this) [i; j] = i * V + j) /\
    buffer (mem this) (covariance this) = repeat 0%R (Z.to_nat ((L + V) * V)).
Proof.
  intros Hvalid. now apply init_parameters_run.
Qed.

(** Two references into one buffer: what is written through one is read
    through the other at the same position. *)
Lemma view_aliases m t1 t2 ix1 ix2 x :
  storage t1 = storage t2 ->
  address t1 ix1 = address t2 ix2 ->
  0 <= address t1 ix1 < zlength (buffer m t1) ->
  read_at (write_at m t1 ix1 x) t2 ix2 = x.
Proof.
  intros Hst Had Hin. unfold read_at, write_at, buffer in *.
  rewrite <- Hst, <- Had.
  assert (Hlt : (storage t1 < length m)%nat).
  { destruct (Nat.lt_ge_cases (storage t1) (length m)) as [H|H]; auto.
    rewrite nth_overflow in Hin by auto. unfold zlength in Hin. simpl in Hin. lia. }
  set (buf := list_set (nth (storage t1) m []) (Z.to_nat (address t1 ix1)) x).
  assert (Hbuf : nth (storage t1) (list_set m (storage t1) buf) [] = buf).
  { apply nth_error_nth. apply nth_error_list_set_eq. exact Hlt. }
  rewrite Hbuf. unfold buf.
  apply nth_error_nth. apply nth_error_list_set_eq. unfold zlength in Hin. lia.
Qed.

(** The visible covariance is a live view: a write to the covariance is
    seen through it, and a write through it is seen in the covariance. *)
Corollary visible_covariance_is_a_view randn_like structure_arg parameters dtype_arg
  this0 L V this i j x :
  valid_construction structure_arg parameters dtype_arg L V ->
  init_parameters randn_like structure_arg parameters dtype_arg this0 = (Ok tt, this) ->
  0 <= i < V -> 0 <= j < V ->
  read_at (write_at (mem this) (covariance this) [L + i; j] x)
          (visible_covariance this) [i; j] = x /\
  read_at (write_at (mem this) (visible_covariance this) [i; j] x)
          (covariance this) [L + i; j] = x.
Proof.
  intros Hvalid Hrun Hi Hj.
  destruct (init_parameters_run randn_like structure_arg parameters dtype_arg
              this0 L V Hvalid)
    as (this' & Hrun' & HLs & HVs & Hcs & Hvs & Hst & Had & Haddr & Hbuf).
  rewrite Hrun in Hrun'. inversion Hrun'. subst this'. clear Hrun'.
  destruct Hvalid as (_ & HL & HV & _).
  assert (Hin : 0 <= (L + i) * V + j < (L + V) * V) by nia.
  split.
  - apply view_aliases.
    + symmetry. exact Hst.
    + symmetry. apply Had.
    + rewrite Haddr, Hbuf, zlength_repeat. lia.
  - apply view_aliases.
    + exact Hst.
    + apply Had.
    + unfold buffer. rewrite Hst. fold (buffer (mem this) (covariance this)).
      rewrite Had, Haddr, Hbuf, zlength_repeat. lia.
Qed.

(** No random values are needed when the example is run. *)
Definition no_randn (szs : list Z) : list R := repeat 1%R (Z.to_nat (numel_of szs)).

Definition example_this0 : Solver := fresh_solver 0 0 0 kFloat [].

Lemma example_valid_construction :
  valid_construction single_edge_structure (undefined R) kFloat 1 1.
Proof.
  unfold valid_construction. simpl. repeat split; try lia. now left.
Qed.

Lemma init_parameters_views_witness :
  valid_construction single_edge_structure (undefined R) kFloat 1 1 /\
  exists this,
    init_parameters no_randn single_edge_structure (undefined R) kFloat example_this0
      = (Ok tt, this) /\
    latent_size this = 1 /\ visible_size this = 1 /\
    ref_sizes (covariance this) = [1 + 1; 1] /\
    ref_sizes (visible_covariance this) = [1; 1] /\
    storage (visible_covariance this) = storage (covariance this) /\
    (forall i j, address (visible_covariance this) [i; j] =
                 address (covariance this) [1 + i; j]) /\
    (forall i j, address (covariance this) [i; j] = i * 1 + j) /\
    buffer (mem this) (covariance this) = repeat 0%R (Z.to_nat ((1 + 1) * 1)).
Proof.
  split; [exact example_valid_construction|].
  exact (init_parameters_views no_randn single_edge_structure (undefined R) kFloat
           example_this0 1 1 example_valid_construction).
Defined.

(** C2, as stated, fails: with one latent and one visible node the
    covariance is 2 x 1, not 2 x 2. *)
Lemma covariance_is_not_square :
  valid_construction single_edge_structure (undefined R) kFloat 1 1 /\
  fst (init_parameters no_randn single_edge_structure (undefined R) kFloat
         example_this0) = Ok tt /\
  ref_sizes (covariance
               (snd (init_parameters no_randn single_edge_structure (undefined R)
                       kFloat example_this0))) = [2; 1] /\
  sizes_eqb [2; 1] [1 + 1; 1 + 1] = false.
Proof.
  split; [exact example_valid_construction|].
  destruct (init_parameters_run no_randn single_edge_structure (undefined R) kFloat
              example_this0 1 1 example_valid_construction)
    as (this & Hrun & _ & _ & Hcs & _).
  rewrite Hrun. simpl fst. simpl snd.
  split; [reflexivity|]. split; [exact Hcs|]. reflexivity.
Qed.

(** * Validation failures *)


(** The violations of the constructor's preconditions: a structure that
    is not 2-dimensional, or empty, or with fewer rows than columns, a
    precision other than float and double, parameters of other extents. *)
Definition construction_violation (structure_arg : Tensor bool)
  (parameters : Tensor R) (dtype_arg : Dtype) : bool :=
  negb (dim structure_arg =? 2)
  || (numel structure_arg =? 0)
  || match sizes structure_arg with
     | [n0; n1] => n0 <? n1
     | _ => false
     end
  || negb (is_floating dtype_arg)
  || (negb (numel parameters =? 0)
      && negb (sizes_eqb (sizes parameters) (sizes structure_arg))).






(** A failed [set_sample_covariance] writes nothing. *)
Lemma set_sample_covariance_failure sc this e this' :
  set_sample_covariance sc this = (Err e, this') -> this' = this.
Proof.
  unfold set_sample_covariance.
  destruct (dim sc =? 2); run_method; [|congruence].
  destruct (size sc 0); run_method; [|congruence].
  destruct (size sc 1); run_method; [|congruence].
  destruct (a =? a0); run_method; [|congruence].
  destruct (a =? visible_size this); run_method; [|congruence].
  unfold modify. discriminate.
Qed.


(** A structure with fewer rows than columns, and a sample covariance that
    is not square. *)
Definition wide_structure : Tensor bool := bools [[true; false]] 2.



(** The writes of lines 71-74 precede the checks: on a 1 x 2 structure
    [init_parameters] ends with the error of line 80 after it has written
    [visible_size], [latent_size] and [structure] of the object under
    construction. *)
Lemma failed_construction_writes_members :
  construction_violation wide_structure (undefined R) kFloat = true /\
  fst (init_parameters no_randn wide_structure (undefined R) kFloat example_this0)
    = Err (CheckFailed "`structure` must be a vertical-rectangular matrix.") /\
  (visible_size example_this0 = 0 /\
   visible_size (snd (init_parameters no_randn wide_structure (undefined R) kFloat
                        example_this0)) = 2) /\
  (latent_size example_this0 = 0 /\
   latent_size (snd (init_parameters no_randn wide_structure (undefined R) kFloat
                       example_this0)) = -1) /\
  (sizes (structure example_this0) = [0] /\
   sizes (structure (snd (init_parameters no_randn wide_structure (undefined R)
                            kFloat example_this0))) = [1; 2]).
Proof.
  split; [reflexivity|].
  unfold init_parameters.
  replace (size wide_structure 1) with (@Ok Z 2) by reflexivity.
  replace (size wide_structure 0) with (@Ok Z 1) by reflexivity.
  run_method.
  replace (is_cuda wide_structure) with true by reflexivity.
  replace (dim wide_structure =? 2) with true by reflexivity.
  replace (numel wide_structure >? 0) with true by reflexivity.
  run_method.
  replace (to_int32 (1 - to_int32 2)) with (-1) by reflexivity.
  replace (-1 >=? 0) with false by reflexivity.
  run_method. cbn [fst snd]. members.
  repeat split.
Qed.

(** ** Extents beyond [int32_t] *)

(** [init_parameters] on a two-dimensional CUDA structure without
    parameters: the checks pass as soon as the narrowed difference of the
    extents is not negative, and the buffers are allocated. *)
Lemma init_parameters_accepts randn_like structure_arg dtype_arg this0 n0 n1 :
  sizes structure_arg = [n0; n1] -> 0 < n0 * n1 ->
  is_cuda structure_arg = true -> is_floating dtype_arg = true ->
  0 <= to_int32 (n0 - to_int32 n1) ->
  exists this,
    init_parameters randn_like structure_arg (undefined R) dtype_arg this0
      = (Ok tt, this) /\
    structure this = structure_arg /\
    visible_size this = to_int32 n1 /\
    latent_size this = to_int32 (n0 - to_int32 n1) /\
    ref_sizes (weights this) = [n0; n1] /\
    length (mem this) = (length (mem this0) + 5)%nat.
Proof.
  intros Hs Hpos Hcuda Hfl Hlat.
  destruct (size_two structure_arg _ _ Hs) as (H0 & H1 & Hd).
  assert (Hnum : (numel structure_arg >? 0) = true).
  { unfold numel. rewrite Hs. simpl. apply Z.gtb_lt. lia. }
  unfold init_parameters. rewrite H1, H0, Hcuda, Hd, Hnum, Hfl.
  change (numel (undefined R) =? 0) with true.
  change (numel (undefined R) >? 0) with false.
  cbn [orb]. run_method.
  replace (to_int32 (n0 - to_int32 n1) >=? 0) with true
    by (symmetry; apply Z.geb_le; exact Hlat).
  run_method. unfold new_zeros. run_method. rewrite Hs. run_method.
  eexists. split; [reflexivity|]. members.
  repeat split.
  rewrite !length_app, mul__length, !length_app. simpl. lia.
Qed.

Lemma foldM_ext_in {S X} (f g : S -> X -> result S) xs : forall st,
  (forall x st', In x xs -> f st' x = g st' x) ->
  foldM f xs st = foldM g xs st.
Proof.
  induction xs as [|x xs IH]; intros st H; simpl; [reflexivity|].
  rewrite (H x st) by now left.
  destruct (g st x); simpl; [|reflexivity].
  apply IH. intros y st' Hy. apply H. now right.
Qed.

(** [make_structures] reads the structure matrix only through the
    entries of its first [L + V] rows and [V] columns. *)
Lemma make_structures_ext structure structure' L V :
  (forall p c, - L <= p < V -> 0 <= c < V ->
     item2 structure (p + L) c = item2 structure' (p + L) c) ->
  make_structures structure L V = make_structures structure' L V.
Proof.
  intros H. unfold make_structures.
  assert (E : scan_edges structure L V = scan_edges structure' L V).
  { unfold scan_edges. apply foldM_ext_in. intros c st Hc.
    apply in_zrange in Hc. unfold scan_child.
    rewrite (foldM_ext_in (scan_parent structure L V c)
                          (scan_parent structure' L V c)).
    2:{ intros p st' Hp. apply in_zrange in Hp. unfold scan_parent.
        now rewrite H by lia. }
    destruct (foldM (scan_parent structure' L V c) (zrange (- L) V) st) as [s1|];
      simpl bind; [|reflexivity].
    rewrite (foldM_ext_in (link_parent structure L c) (link_parent structure' L c)).
    2:{ intros p st' Hp. apply in_zrange in Hp. unfold link_parent.
        now rewrite H by lia. }
    reflexivity. }
  rewrite E. reflexivity.
Qed.

(** A structure of 2 rows and 2^32 + 1 columns, whose only edge leaves its
    first row for its first column. *)
Definition very_wide_data : list bool :=
  true :: repeat false (Z.to_nat (2 * 4294967297 - 1)).

Definition very_wide_structure : Tensor bool :=
  {| sizes := [2; 4294967297]; data := very_wide_data; device := CUDA 0 |}.

Lemma very_wide_first : nth_error very_wide_data 0 = Some true.
Proof. reflexivity. Qed.

Lemma nth_error_cons_succ {A} (a : A) l k :
  nth_error (a :: l) (S k) = nth_error l k.
Proof. reflexivity. Qed.

Lemma very_wide_second :
  nth_error very_wide_data (Z.to_nat 4294967297) = Some false.
Proof.
  replace (Z.to_nat 4294967297) with (S (Z.to_nat 4294967296)) by lia.
  unfold very_wide_data. rewrite nth_error_cons_succ.
  apply nth_error_repeat. lia.
Qed.

(** In its first column the wide structure reads as the 2 x 1 structure
    with the one edge. *)
Lemma very_wide_items p c :
  - 1 <= p < 1 -> 0 <= c < 1 ->
  item2 very_wide_structure (p + 1) c = item2 single_edge_structure (p + 1) c.
Proof.
  intros Hp Hc. assert (c = 0) by lia. subst c.
  assert (Hcases : p = -1 \/ p = 0) by lia.
  unfold item2, very_wide_structure. cbn [sizes data].
  rewrite (wrap_index_ok 2 (p + 1)) by lia.
  rewrite (wrap_index_ok 4294967297 0) by lia.
  cbn [bind].
  destruct Hcases as [-> | ->].
  - change (Z.to_nat ((-1 + 1) * 4294967297 + 0)) with 0%nat.
    rewrite very_wide_first. reflexivity.
  - change ((0 + 1) * 4294967297 + 0) with 4294967297.
    rewrite very_wide_second. reflexivity.
Qed.

Lemma single_edge_structures_run :
  make_structures single_edge_structure 1 1 = Ok single_edge_structures.
Proof. vm_compute. reflexivity. Qed.

(** C7 at the failing input. The structure has fewer rows (2) than
    columns (2^32 + 1), a violation; [init_parameters] narrows the column
    count to [int32_t], which leaves 1 visible and 1 latent node, so the
    check of line 80 passes, as do the others: no error is raised, the
    five buffers are allocated with the extents of the structure, and the
    constructor returns an object. *)
Theorem wide_structure_passes_validation randn_like this0 :
  construction_violation very_wide_structure (undefined R) kFloat = true /\
  exists this,
    init_parameters randn_like very_wide_structure (undefined R) kFloat this0
      = (Ok tt, this) /\
    visible_size this = 1 /\ latent_size this = 1 /\
    ref_sizes (weights this) = [2; 4294967297] /\
    length (mem this) = (length (mem this0) + 5)%nat /\
    SEMNANSolver_new randn_like very_wide_structure (undefined R) kFloat this0
      = Ok (put_structures single_edge_structures this).
Proof.
  split; [reflexivity|].
  destruct (init_parameters_accepts randn_like very_wide_structure kFloat this0
              2 4294967297 eq_refl ltac:(lia) eq_refl eq_refl)
    as (this & Hrun & Hst & Hvs & Hls & Hw & Hmem).
  { change (to_int32 (2 - to_int32 4294967297)) with 1. lia. }
  change (to_int32 4294967297) with 1 in Hvs.
  change (to_int32 (2 - to_int32 4294967297)) with 1 in Hls.
  exists this. split; [exact Hrun|]. split; [exact Hvs|]. split; [exact Hls|].
  split; [exact Hw|]. split; [exact Hmem|].
  unfold SEMNANSolver_new, bindM. rewrite Hrun.
  unfold make_structures_method. rewrite Hst, Hls, Hvs.
  rewrite (make_structures_ext very_wide_structure single_edge_structure 1 1
             very_wide_items).
  rewrite single_edge_structures_run. reflexivity.
Qed.

(** * The cached inverse and log-determinant *)

(** The dense linear algebra on 1 x 1 matrices: the inverse is the
    reciprocal (there is none at 0) and the log-determinant the logarithm. *)
Definition scalar_inverse (n : Z) (d : list R) : option (list R) :=
  match d with
  | [x] => if Req_dec_T x 0 then None else Some [(/ x)%R]
  | _ => None
  end.

Definition scalar_logdet (n : Z) (d : list R) : R :=
  match d with
  | [x] => ln x
  | _ => 0%R
  end.

(** A model with one visible node and no latent. *)
Definition lone_structure : Tensor bool := bools [[false]] 1.

(** A 1 x 1 sample covariance. *)
Definition sample (x : R) : Tensor R :=
  {| sizes := [1; 1]; data := [x]; device := CPU |}.

(** A forward kernel that leaves the variance 2 of the visible node in the
    covariance, and a backward kernel that leaves the buffers as they are. *)
Definition forward_two (layers : list SEMNANLayerData) (this : Solver) : Store :=
  write_at (mem this) (covariance this) [0; 0] 2%R.

Definition backward_none (layers : list SEMNANLayerData) (this : Solver) : Store :=
  mem this.

Definition lone_solver : result Solver :=
  SEMNANSolver_new no_randn lone_structure (undefined R) kFloat example_this0.

Definition run {A : Type} (m : M A) (s : result Solver) : result A :=
  match s with
  | Ok this => fst (m this)
  | Err e => Err e
  end.

(** ** The values the specification gives the losses and the seed *)

Section LossSpec.

Variable inverse_values : Z -> list R -> option (list R).
Variable logdet_value : Z -> list R -> R.

(** trace(S^-1 Sigma) - logdet(Sigma) *)
Definition claimed_proxy_loss (S Sigma : Tensor R) : result R :=
  inv <- torch_inverse inverse_values S ;;
  prod <- torch_mm inv Sigma ;;
  tr <- torch_trace prod ;;
  ld <- torch_logdet logdet_value Sigma ;;
  Ok (tr - item ld)%R.

(** (proxy - V + logdet(S)) / 2 *)
Definition claimed_kl_loss (V : Z) (S Sigma : Tensor R) : result R :=
  proxy <- claimed_proxy_loss S Sigma ;;
  ld <- torch_logdet logdet_value S ;;
  Ok ((proxy - IZR V + item ld) / 2)%R.

(** S^-1 - Sigma^-1, element by element *)
Definition claimed_seed (S Sigma : Tensor R) : result (list R) :=
  inv <- torch_inverse inverse_values S ;;
  vinv <- torch_inverse inverse_values Sigma ;;
  Ok (map2 Rminus (data inv) (data vinv)).

(** The caches hold nothing, or what the current sample covariance gives. *)
Definition cache_coherent (this : Solver) : Prop :=
  (numel (sample_covariance_inv this) = 0 \/
   torch_inverse inverse_values (sample_covariance this)
     = Ok (sample_covariance_inv this)) /\
  (numel (sample_covariance_logdet this) = 0 \/
   torch_logdet logdet_value (sample_covariance this)
     = Ok (sample_covariance_logdet this)).

Lemma get_sample_covariance_inv_coherent this :
  cache_coherent this ->
  fst (get_sample_covariance_inv inverse_values this)
    = torch_inverse inverse_values (sample_covariance this) /\
  visible_covariance_value (snd (get_sample_covariance_inv inverse_values this))
    = visible_covariance_value this /\
  sample_covariance (snd (get_sample_covariance_inv inverse_values this))
    = sample_covariance this /\
  sample_covariance_logdet (snd (get_sample_covariance_inv inverse_values this))
    = sample_covariance_logdet this /\
  visible_size (snd (get_sample_covariance_inv inverse_values this))
    = visible_size this.
Proof.
  intros [[Hz|Hc] _]; unfold get_sample_covariance_inv.
  - rewrite Hz. simpl.
    destruct (torch_inverse inverse_values (sample_covariance this)); simpl; auto.
  - destruct (numel (sample_covariance_inv this) =? 0); simpl.
    + rewrite Hc. simpl. auto.
    + auto.
Qed.

Lemma get_sample_covariance_logdet_coherent this :
  cache_coherent this ->
  fst (get_sample_covariance_logdet logdet_value this)
    = torch_logdet logdet_value (sample_covariance this).
Proof.
  intros [_ [Hz|Hc]]; unfold get_sample_covariance_logdet.
  - rewrite Hz. simpl.
    destruct (torch_logdet logdet_value (sample_covariance this)); simpl; auto.
  - destruct (numel (sample_covariance_logdet this) =? 0); simpl.
    + rewrite Hc. simpl. auto.
    + auto.
Qed.

(** While the caches are coherent the proxy loss is the claimed one. *)
Lemma proxy_loss_coherent this :
  cache_coherent this ->
  fst (kullback_leibler_proxy_loss inverse_values logdet_value this)
    = claimed_proxy_loss (sample_covariance this) (visible_covariance_value this).
Proof.
  intros Hc.
  destruct (get_sample_covariance_inv_coherent this Hc) as (Hinv & Hvc & _).
  unfold kullback_leibler_proxy_loss, claimed_proxy_loss, bindM at 1.
  destruct (get_sample_covariance_inv inverse_values this) as [r this'].
  simpl in Hinv, Hvc. rewrite <- Hinv.
  destruct r as [inv|e]; simpl; [|reflexivity].
  run_method. rewrite Hvc.
  destruct (torch_mm inv (visible_covariance_value this)) as [prod|e];
    run_method; [|reflexivity].
  simpl bind.
  destruct (torch_trace prod) as [tr|e]; run_method; [|reflexivity].
  simpl bind.
  destruct (torch_logdet logdet_value (visible_covariance_value this)) as [ld|e];
    run_method; reflexivity.
Qed.

(** The proxy loss changes the solver only by filling the cached inverse. *)
Lemma proxy_loss_state this :
  snd (kullback_leibler_proxy_loss inverse_values logdet_value this)
    = snd (get_sample_covariance_inv inverse_values this).
Proof.
  unfold kullback_leibler_proxy_loss, bindM at 1.
  destruct (get_sample_covariance_inv inverse_values this) as [[inv|e] this'];
    simpl; [|reflexivity].
  run_method.
  destruct (torch_mm inv (visible_covariance_value this')) as [prod|e];
    run_method; [|reflexivity].
  destruct (torch_trace prod) as [tr|e]; run_method; [|reflexivity].
  destruct (torch_logdet logdet_value (visible_covariance_value this')) as [ld|e];
    run_method; reflexivity.
Qed.

(** While the caches are coherent the KL loss is the claimed one. *)
Lemma kl_loss_coherent this :
  cache_coherent this ->
  fst (kullback_leibler_loss inverse_values logdet_value this)
    = claimed_kl_loss (visible_size this) (sample_covariance this)
        (visible_covariance_value this).
Proof.
  intros Hc.
  pose proof (proxy_loss_coherent this Hc) as Hp.
  pose proof (proxy_loss_state this) as Hs.
  destruct (get_sample_covariance_inv_coherent this Hc)
    as (_ & _ & Hsc & Hld & Hvs).
  pose proof (get_sample_covariance_logdet_coherent this Hc) as Hl.
  unfold kullback_leibler_loss, claimed_kl_loss, bindM at 1.
  destruct (kullback_leibler_proxy_loss inverse_values logdet_value this)
    as [r this'].
  simpl in Hp, Hs. rewrite <- Hp. subst this'.
  destruct r as [proxy|e]; simpl; [|reflexivity].
  run_method. rewrite Hvs. unfold bindM.
  assert (Hl' : fst (get_sample_covariance_logdet logdet_value
                       (snd (get_sample_covariance_inv inverse_values this)))
                = fst (get_sample_covariance_logdet logdet_value this)).
  { unfold get_sample_covariance_logdet. rewrite Hld, Hsc.
    destruct (numel (sample_covariance_logdet this) =? 0); [|reflexivity].
    destruct (torch_logdet logdet_value (sample_covariance this)); reflexivity. }
  rewrite Hl in Hl'.
  destruct (get_sample_covariance_logdet logdet_value
              (snd (get_sample_covariance_inv inverse_values this))) as [r' this''].
  simpl in Hl'. rewrite <- Hl'.
  destruct r' as [ld|e]; reflexivity.
Qed.

End LossSpec.

(** [set_sample_covariance] stores the new matrix and leaves both caches
    as they were. *)
Lemma set_sample_covariance_keeps_cache sc this this' :
  set_sample_covariance sc this = (Ok tt, this') ->
  sizes (sample_covariance this') = sizes sc /\
  data (sample_covariance this') = data sc /\
  sample_covariance_inv this' = sample_covariance_inv this /\
  sample_covariance_logdet this' = sample_covariance_logdet this.
Proof.
  unfold set_sample_covariance.
  destruct (dim sc =? 2); run_method; [|discriminate].
  destruct (size sc 0); run_method; [|discriminate].
  destruct (size sc 1); run_method; [|discriminate].
  destruct (a =? a0); run_method; [|discriminate].
  destruct (a =? visible_size this); run_method; [|discriminate].
  unfold modify. intros [= <-]. members. auto.
Qed.

(** Once filled, the cached inverse is what every later query returns,
    whatever sample covariance is set in between. *)
Lemma cached_inverse_survives inverse_values sc this this' :
  numel (sample_covariance_inv this) <> 0 ->
  set_sample_covariance sc this = (Ok tt, this') ->
  get_sample_covariance_inv inverse_values this'
    = (Ok (sample_covariance_inv this), this').
Proof.
  intros Hn Hset.
  destruct (set_sample_covariance_keeps_cache sc this this' Hset)
    as (_ & _ & Hinv & _).
  unfold get_sample_covariance_inv. rewrite Hinv.
  destruct (Z.eqb_spec (numel (sample_covariance_inv this)) 0); [contradiction|].
  reflexivity.
Qed.

Lemma scalar_inverse_nonzero n x :
  x <> 0%R -> scalar_inverse n [x] = Some [(/ x)%R].
Proof.
  intros H. unfold scalar_inverse. destruct (Req_dec_T x 0); [contradiction|].
  reflexivity.
Qed.

Ltac evaluate :=
  cbv -[IZR Rmult Rminus Rplus Rinv Rdiv Ropp ln scalar_inverse scalar_logdet];
  repeat (rewrite scalar_inverse_nonzero by lra;
          cbv -[IZR Rmult Rminus Rplus Rinv Rdiv Ropp ln scalar_inverse
                scalar_logdet]).

(** The failing scenario: the variance of the visible node is 2; the
    sample covariance is set to [[1]], a loss is queried, the sample
    covariance is replaced by [[2]], and the losses are queried again. *)
Definition replace_sample_covariance : M unit :=
  forward forward_two ;;;
  set_sample_covariance (sample 1) ;;;
  kullback_leibler_loss scalar_inverse scalar_logdet ;;;
  set_sample_covariance (sample 2).

Definition after_replacement : M (R * R * Tensor R * Tensor R * Tensor R) :=
  replace_sample_covariance ;;;
  proxy <~ kullback_leibler_proxy_loss scalar_inverse scalar_logdet ;;
  kl <~ kullback_leibler_loss scalar_inverse scalar_logdet ;;
  sc <~ get sample_covariance ;;
  inv <~ get sample_covariance_inv ;;
  ld <~ get sample_covariance_logdet ;;
  ret (proxy, kl, sc, inv, ld).

(** The solver a run of methods leaves behind. *)
Definition exec {A : Type} (m : M A) (s : result Solver) : result Solver :=
  match s with
  | Ok this =>
      match m this with
      | (Ok _, this') => Ok this'
      | (Err e, _) => Err e
      end
  | Err e => Err e
  end.

Lemma ln_2_lt_1 : (ln 2 < 1)%R.
Proof.
  pose proof (exp_ineq1 1 ltac:(lra)) as He.
  pose proof (ln_increasing 2 (exp 1) ltac:(lra) ltac:(lra)) as Hl.
  rewrite ln_exp in Hl. exact Hl.
Qed.

(** C1 at the failing input. After the sample covariance [[1]] was
    replaced by [[2]], the member holds [[2]], the cached inverse is still
    [[1]] and the cached log-determinant still [ln 1 = 0], and the losses
    queried then are computed from them: the proxy loss is [2 - ln 2] and
    the KL loss [(1 - ln 2) / 2]. *)
Theorem stale_cache_after_replacement :
  run after_replacement lone_solver =
  Ok ((2 - ln 2)%R, ((1 - ln 2) / 2)%R,
      {| sizes := [1; 1]; data := [2%R]; device := CUDA 0 |},
      {| sizes := [1; 1]; data := [1%R]; device := CUDA 0 |},
      {| sizes := []; data := [0%R]; device := CUDA 0 |}).
Proof.
  evaluate. unfold scalar_logdet. rewrite ln_1, Rinv_1.
  replace (1 * 2 + 0 + 0 - ln 2)%R with (2 - ln 2)%R by lra.
  replace ((2 - ln 2 - 1 + 0) / 2)%R with ((1 - ln 2) / 2)%R by lra.
  reflexivity.
Qed.

(** C3 at the failing input. In the state reached by the replacement the
    sample covariance and the visible covariance are both [[2]]; the
    claimed proxy loss is [1 - ln 2] and the claimed KL loss 0, and the
    code returns [2 - ln 2] and [(1 - ln 2) / 2]. *)
Theorem losses_after_replacement :
  match exec replace_sample_covariance lone_solver with
  | Ok this =>
      data (sample_covariance this) = [2%R] /\
      data (visible_covariance_value this) = [2%R] /\
      claimed_proxy_loss scalar_inverse scalar_logdet
        (sample_covariance this) (visible_covariance_value this)
        = Ok (1 - ln 2)%R /\
      fst (kullback_leibler_proxy_loss scalar_inverse scalar_logdet this)
        = Ok (2 - ln 2)%R /\
      claimed_kl_loss scalar_inverse scalar_logdet (visible_size this)
        (sample_covariance this) (visible_covariance_value this)
        = Ok 0%R /\
      fst (kullback_leibler_loss scalar_inverse scalar_logdet this)
        = Ok ((1 - ln 2) / 2)%R
  | Err _ => False
  end.
Proof.
  evaluate. unfold scalar_logdet. rewrite ln_1, Rinv_1.
  repeat split.
  - f_equal. field.
  - f_equal. lra.
  - f_equal. field.
  - f_equal. lra.
Qed.

(** C4 at the failing input. The visible covariance equals the sample
    covariance exactly, and the KL loss returned is [(1 - ln 2) / 2],
    which is positive. *)
Theorem kl_loss_of_equal_covariances_after_replacement :
  match exec replace_sample_covariance lone_solver with
  | Ok this =>
      sizes (visible_covariance_value this) = sizes (sample_covariance this) /\
      data (visible_covariance_value this) = data (sample_covariance this) /\
      fst (kullback_leibler_loss scalar_inverse scalar_logdet this)
        = Ok ((1 - ln 2) / 2)%R /\
      (0 < (1 - ln 2) / 2)%R
  | Err _ => False
  end.
Proof.
  evaluate. unfold scalar_logdet. rewrite ln_1, Rinv_1.
  repeat split.
  - f_equal. lra.
  - pose proof ln_2_lt_1. lra.
Qed.

(** A sequence of methods is run one method at a time. *)
Lemma bindM_run {A B} (m : M A) (k : A -> M B) this r :
  m this = r ->
  bindM m k this =
  match r with
  | (Ok a, this') => k a this'
  | (Err e, this') => (Err e, this')
  end.
Proof. intros <-. reflexivity. Qed.

Ltac start_run :=
  let v := eval cbv in lone_solver in change lone_solver with v;
  cbv beta iota.

Ltac step_run :=
  match goal with
  | |- context [bindM ?m ?k ?this] =>
      erewrite (bindM_run m k this) by (evaluate; reflexivity);
      cbv beta iota
  end.

(** The scenario for the gradient seed: a backward pass under the sample
    covariance [[1]], then the replacement by [[2]]. *)
Definition replace_after_backward : M unit :=
  forward forward_two ;;;
  set_sample_covariance (sample 1) ;;;
  backward scalar_inverse backward_none ;;;
  set_sample_covariance (sample 2).

(** The seed as it stands in the gradient buffer selected by the parity
    rule, after [kullback_leibler_loss_backward]. *)
Definition seed_written (this : Solver) : result (list R) :=
  match kullback_leibler_loss_backward scalar_inverse this with
  | (Ok _, this') =>
      grad <- select (visible_covariance_grad this')
                     (Z.rem (num_layers this' + 1) 2) ;;
      Ok (data (to_value (mem this') grad (CUDA (cuda_device_number this'))))
  | (Err e, _) => Err e
  end.

(** C5 at the failing input. With sample covariance [[2]] and visible
    covariance [[2]] the claimed seed is [1/2 - 1/2 = 0]; the seed written
    (into buffer (2 + 1) mod 2 = 1, with the inverse of the visible
    covariance computed anew) is [1 - 1/2], from the cached inverse of the
    replaced sample covariance [[1]]. *)
Theorem seed_after_replacement :
  match exec replace_after_backward lone_solver with
  | Ok this =>
      data (sample_covariance this) = [2%R] /\
      data (visible_covariance_value this) = [2%R] /\
      Z.rem (num_layers this + 1) 2 = 1 /\
      claimed_seed scalar_inverse (sample_covariance this)
        (visible_covariance_value this) = Ok [0%R] /\
      seed_written this = Ok [(1 / 2)%R]
  | Err _ => False
  end.
Proof.
  unfold exec, replace_after_backward.
  start_run. do 3 step_run.
  evaluate. rewrite Rinv_1.
  repeat split.
  - f_equal. f_equal. lra.
  - f_equal. f_equal. lra.
Qed.

(** * Further properties of the compiled structures *)

(** ** Reading the compiled arrays *)

(** Entry [k] of a CSR array: the values between offsets [k] and [k + 1]. *)
Definition csr_slice (values offsets : list Z) (k : Z) : list Z :=
  let lo := nth (Z.to_nat k) offsets 0 in
  let hi := nth (Z.to_nat (k + 1)) offsets 0 in
  firstn (Z.to_nat (hi - lo)) (skipn (Z.to_nat lo) values).

Lemma nth_offsets_from xss : forall b k,
  (k <= length xss)%nat ->
  nth k (offsets_from b xss) 0 = b + zlength (concat (firstn k xss)).
Proof.
  induction xss as [|xs r IH]; intros b k Hk.
  - destruct k; simpl in *; [|lia]. unfold zlength. simpl. lia.
  - destruct k as [|k].
    + simpl. unfold zlength. simpl. lia.
    + change (nth (S k) (offsets_from b (xs :: r)) 0)
        with (nth k (offsets_from (b + zlength xs) r) 0).
      rewrite IH by (simpl in Hk; lia).
      simpl. rewrite zlength_app. lia.
Qed.

Lemma concat_split_nth {A} (xss : list (list A)) k :
  (k < length xss)%nat ->
  concat xss = concat (firstn k xss) ++ nth k xss [] ++ concat (skipn (S k) xss).
Proof.
  revert k. induction xss as [|xs r IH]; intros k Hk; simpl in Hk; [lia|].
  destruct k as [|k]; simpl.
  - reflexivity.
  - rewrite (IH k) at 1 by lia. now rewrite app_assoc.
Qed.

Lemma firstn_succ_nth {A} (l : list (list A)) k :
  (k < length l)%nat -> firstn (S k) l = firstn k l ++ [nth k l []].
Proof.
  intros Hk. apply firstn_succ_nth_error.
  apply nth_error_nth'. exact Hk.
Qed.

(** The runs [xss], laid out after [pre], are read back one by one. *)
Lemma csr_slice_runs pre xss post k :
  (k < length xss)%nat ->
  csr_slice (pre ++ concat xss ++ post) (offsets_from (zlength pre) xss) (Z.of_nat k)
  = nth k xss [].
Proof.
  intros Hk. unfold csr_slice.
  replace (Z.to_nat (Z.of_nat k + 1)) with (S k) by lia.
  rewrite Nat2Z.id, !nth_offsets_from by lia.
  rewrite (firstn_succ_nth xss k Hk), concat_snoc, zlength_app.
  replace (Z.to_nat (zlength pre + (zlength (concat (firstn k xss))
                                    + zlength (nth k xss []))
                     - (zlength pre + zlength (concat (firstn k xss)))))
    with (length (nth k xss [])) by (unfold zlength; lia).
  replace (Z.to_nat (zlength pre + zlength (concat (firstn k xss))))
    with (length (pre ++ concat (firstn k xss)))
    by (rewrite length_app; unfold zlength; lia).
  rewrite (concat_split_nth xss k Hk) at 1.
  rewrite (app_assoc pre), <- !app_assoc.
  rewrite (app_assoc pre), skipn_app, skipn_all, Nat.sub_diag. simpl.
  rewrite firstn_app, firstn_all, Nat.sub_diag. simpl. apply app_nil_r.
Qed.

Lemma csr_slice_whole xss k :
  (k < length xss)%nat ->
  csr_slice (concat xss) (offsets_from 0 xss) (Z.of_nat k) = nth k xss [].
Proof.
  intros Hk.
  pose proof (csr_slice_runs [] xss [] k Hk) as H.
  simpl in H. rewrite app_nil_r in H. exact H.
Qed.

(** A run of [make_structures] that ends well, seen from the state the
    edge scan ended in. *)
Lemma make_structures_compiled structure L V out :
  well_shaped structure L V ->
  make_structures structure L V = Ok out ->
  exists s,
    scan_edges structure L V = Ok s /\ scan_shape L V s /\
    scan_inv structure L V V s /\
    every_latent_has_edge structure L V = true /\
    out = structures_of L V s.
Proof.
  intros Hshape Hout.
  destruct (make_structures_cases structure L V Hshape)
    as (s & Hrun & Hsh & Hinv & Hcases).
  exists s. split; [exact Hrun|]. split; [exact Hsh|]. split; [exact Hinv|].
  destruct Hcases as [[Hall Hmk]|[_ Hmk]]; rewrite Hmk in Hout; [|discriminate].
  inversion Hout. auto.
Qed.

Lemma scan_total_edges structure L V s :
  well_shaped structure L V ->
  scan_shape L V s -> scan_inv structure L V V s ->
  zlength (concat (parents_vec s)) = total_edges structure.
Proof.
  intros Hshape Hsh Hinv. pose proof Hshape as (HL & HV & _).
  rewrite (scan_parents_vec structure L V s HV Hsh Hinv).
  rewrite <- (edges_by_column_total structure L V Hshape). reflexivity.
Qed.

(** The parents, as the kernels read them: [parents_bases] has one offset
    per visible node and a closing one, [parents] holds one entry per edge,
    and the entries between offsets [c] and [c + 1] are the parents of [c]
    in ascending order, latents (negative) first. *)
Theorem parents_csr structure L V out :
  well_shaped structure L V ->
  make_structures structure L V = Ok out ->
  zlength (parents_bases out) = V + 1 /\
  zlength (parents out) = total_edges structure /\
  forall c, 0 <= c < V ->
    csr_slice (parents out) (parents_bases out) c =
    filter (fun p => edge structure L p c) (zrange (- L) V).
Proof.
  intros Hshape Hout. pose proof Hshape as (HL & HV & _).
  destruct (make_structures_compiled structure L V out Hshape Hout)
    as (s & _ & Hsh & Hinv & _ & ->).
  pose proof (sh_pv _ _ _ Hsh) as Hlen. simpl.
  split; [|split].
  - unfold zlength in *. rewrite offsets_from_length. lia.
  - apply (scan_total_edges structure L V s Hshape Hsh Hinv).
  - intros c Hc.
    replace c with (Z.of_nat (Z.to_nat c)) at 1 by lia.
    rewrite csr_slice_whole by (unfold zlength in Hlen; lia).
    apply nth_error_nth.
    apply (inv_pv_done _ _ _ _ _ Hinv c Hc).
Qed.

Lemma parents_csr_witness :
  well_shaped example_structure 2 3 /\
  make_structures example_structure 2 3 = Ok example_structures /\
  zlength (parents_bases example_structures) = 3 + 1 /\
  zlength (parents example_structures) = total_edges example_structure /\
  forall c, 0 <= c < 3 ->
    csr_slice (parents example_structures) (parents_bases example_structures) c =
    filter (fun p => edge example_structure 2 p c) (zrange (- 2) 3).
Proof.
  split; [exact example_well_shaped|]. split; [exact example_structures_run|].
  exact (parents_csr example_structure 2 3 example_structures
           example_well_shaped example_structures_run).
Defined.

Lemma filter_none {A} (f : A -> bool) l :
  (forall x, In x l -> f x = false) -> filter f l = [].
Proof.
  induction l as [|a l IH]; intros H; simpl; [reflexivity|].
  rewrite (H a) by now left. apply IH. intros x Hx. apply H. now right.
Qed.

(** The latent neighbours, as the kernels read them: one offset per layer
    record and a closing one; the entries between offsets [l] and [l + 1]
    are the latents whose stored presence range covers [l], in ascending
    order; none is listed for the last layer record. *)
Theorem latent_neighbors_csr structure L V out :
  well_shaped structure L V ->
  make_structures structure L V = Ok out ->
  zlength (latent_neighbors_bases out) = zlength (layers_vec out) + 1 /\
  (forall l, 0 <= l < zlength (layers_vec out) ->
     csr_slice (latent_neighbors out) (latent_neighbors_bases out) l =
     filter (fun v => covers (range_of (latent_presence_range out) L v) l)
            (zrange (- L) 0)) /\
  csr_slice (latent_neighbors out) (latent_neighbors_bases out)
            (zlength (layers_vec out) - 1) = [].
Proof.
  intros Hshape Hout. pose proof Hshape as (HL & HV & _).
  destruct (make_structures_compiled structure L V out Hshape Hout)
    as (s & _ & Hsh & Hinv & Hall & ->).
  pose proof (sh_layers _ _ _ Hsh) as Hll.
  pose proof (neighbors_length s L) as Hlen.
  unfold structures_of.
  cbn [latent_neighbors latent_neighbors_bases latent_presence_range layers_vec].
  set (nv := map (neighbors_of (scan_ranges s) L 0)
                 (zrange 0 (zlength (scan_layers s)))) in *.
  assert (Hwl : zlength (with_lat_width (scan_layers s) nv) = zlength (scan_layers s)).
  { unfold zlength. now rewrite with_lat_width_length. }
  assert (Hslice : forall l, 0 <= l < zlength (scan_layers s) ->
            csr_slice (concat nv) (offsets_from 0 nv) l =
            neighbors_of (scan_ranges s) L 0 l).
  { intros l Hl.
    replace l with (Z.of_nat (Z.to_nat l)) at 1 by lia.
    rewrite csr_slice_whole by (unfold zlength in *; lia).
    apply nth_error_nth. unfold nv.
    rewrite nth_error_map, nth_error_zrange.
    destruct (Nat.ltb_spec (Z.to_nat l) (Z.to_nat (zlength (scan_layers s) - 0)));
      [|lia].
    simpl. do 2 f_equal. lia. }
  rewrite Hwl. split; [|split].
  - unfold zlength in *. rewrite offsets_from_length. lia.
  - exact Hslice.
  - rewrite Hslice by lia. unfold neighbors_of.
    apply filter_none. intros v Hv. apply in_zrange in Hv.
    unfold every_latent_has_edge in Hall. rewrite forallb_forall in Hall.
    specialize (Hall v ltac:(apply in_zrange; lia)).
    destruct (range_spec_final _ _ _ _ _ _ (inv_ranges _ _ _ _ _ Hinv v Hv))
      as [[Hf _]|[_ Hok]]; [congruence|].
    unfold range_valid in Hok. unfold covers.
    destruct (Z.leb_spec (zlength (scan_layers s) - 1)
                (snd (range_of (scan_ranges s) L v))); [|now rewrite andb_false_r].
    destruct (inv_ranges _ _ _ _ _ Hinv v Hv)
      as [[Hr _]|(_ & Hr2 & _)].
    + rewrite Hr in H. simpl in H. lia.
    + lia.
Qed.

Lemma latent_neighbors_csr_witness :
  well_shaped example_structure 2 3 /\
  make_structures example_structure 2 3 = Ok example_structures /\
  zlength (latent_neighbors_bases example_structures)
    = zlength (layers_vec example_structures) + 1 /\
  (forall l, 0 <= l < zlength (layers_vec example_structures) ->
     csr_slice (latent_neighbors example_structures)
               (latent_neighbors_bases example_structures) l =
     filter (fun v => covers (range_of (latent_presence_range example_structures) 2 v) l)
            (zrange (- 2) 0)) /\
  csr_slice (latent_neighbors example_structures)
            (latent_neighbors_bases example_structures)
            (zlength (layers_vec example_structures) - 1) = [].
Proof.
  split; [exact example_well_shaped|]. split; [exact example_structures_run|].
  exact (latent_neighbors_csr example_structure 2 3 example_structures
           example_well_shaped example_structures_run).
Defined.

(** ** The children, bucket by bucket *)

(** Partial correctness of a loop: what an invariant gives once the loop
    is known to have run to its end. *)
Lemma foldM_zrange_ok {S} (f : S -> Z -> result S) (P : Z -> S -> Prop) lo hi s s' :
  lo <= hi ->
  P lo s ->
  (forall k t t', lo <= k < hi -> P k t -> f t k = Ok t' -> P (k + 1) t') ->
  foldM f (zrange lo hi) s = Ok s' -> P hi s'.
Proof.
  intros Hle H0 Hstep.
  remember (Z.to_nat (hi - lo)) as n eqn:Hn.
  revert lo s Hle H0 Hstep Hn.
  induction n as [|n IH]; intros lo s Hle H0 Hstep Hn.
  - assert (lo = hi) by lia. subst. rewrite zrange_nil by lia. simpl.
    intros [= <-]. exact H0.
  - rewrite zrange_cons by lia. simpl.
    destruct (f s lo) as [t|e] eqn:Ef; simpl; [|discriminate].
    apply IH; try lia.
    + apply (Hstep lo s t); auto. lia.
    + intros k u u' Hk. apply Hstep. lia.
Qed.

(** The children of row [r] recorded in bucket [k]. *)
Definition bucket_row (cv : list (list (list Z))) (k r : nat) : list Z :=
  nth r (nth k cv []) [].

Lemma nth_as_nth_error {A} (l : list A) n d :
  nth n l d = match nth_error l n with Some x => x | None => d end.
Proof.
  revert n. induction l as [|a l IH]; intros [|n]; simpl; auto.
Qed.

Lemma bucket_row_empty cv t k r :
  bucket_row (cv ++ [repeat [] t]) k r = bucket_row cv k r.
Proof.
  unfold bucket_row.
  destruct (Nat.lt_ge_cases k (length cv)) as [Hk|Hk].
  - now rewrite app_nth1.
  - rewrite app_nth2 by auto. rewrite (nth_overflow cv) by auto.
    destruct (k - length cv)%nat as [|j]; simpl.
    + rewrite nth_repeat. now destruct r.
    + now destruct j, r.
Qed.

Lemma scan_parent_children structure L V c s p s' :
  scan_parent structure L V c s p = Ok s' ->
  forall k r, bucket_row (children_vec s') k r = bucket_row (children_vec s) k r.
Proof.
  unfold scan_parent.
  destruct (item2 structure (p + L) c) as [[|]|]; simpl; try discriminate.
  - destruct (vec_modify (parents_vec s) c (fun ps => ps ++ [p])); simpl;
      [|discriminate].
    destruct (p >=? layer_max s); intros [= <-] k r; simpl; auto.
    apply bucket_row_empty.
  - intros [= <-]. reflexivity.
Qed.

Lemma link_parent_children structure L V c s p s' :
  well_shaped structure L V -> 0 <= c < V -> - L <= p < V ->
  link_parent structure L c s p = Ok s' ->
  length (children_vec s') = length (children_vec s) /\
  forall k r,
    bucket_row (children_vec s') k r =
    bucket_row (children_vec s) k r ++
    (if (S k =? length (children_vec s))%nat && (r =? Z.to_nat (p + L))%nat
        && edge structure L p c
     then [c] else []).
Proof.
  intros Hshape Hc Hp. unfold link_parent.
  rewrite (item2_edge structure L V Hshape p c Hp Hc). simpl bind.
  destruct (edge structure L p c) eqn:Ee.
  2:{ intros [= <-]. split; [reflexivity|]. intros k r.
      now rewrite andb_false_r, app_nil_r. }
  match goal with
  | |- bind ?m _ = _ -> _ => destruct m as [rs|]; simpl bind; [|discriminate]
  end.
  destruct (vec_back (children_vec s)) as [bucket|] eqn:Eb; simpl bind;
    [|discriminate].
  unfold vec_back in Eb. apply vec_get_inv in Eb. destruct Eb as [Hlast Hbucket].
  unfold vec_modify at 1.
  destruct (vec_get bucket (p + L)) as [row|] eqn:Er; simpl bind; [|discriminate].
  apply vec_get_inv in Er. destruct Er as [Hpl Hrow].
  unfold vec_modify_back, vec_modify. unfold vec_get.
  destruct (Z.leb_spec 0 (zlength (children_vec s) - 1)); [|lia].
  destruct (Z.ltb_spec (zlength (children_vec s) - 1) (zlength (children_vec s)));
    [|lia].
  cbn [andb]. rewrite Hbucket. cbn [bind]. intros [= <-]. cbn [children_vec].
  split; [apply list_set_length|].
  assert (Hk : Z.to_nat (zlength (children_vec s) - 1)
               = (length (children_vec s) - 1)%nat) by (unfold zlength; lia).
  rewrite Hk in *.
  assert (Hlen : (0 < length (children_vec s))%nat) by (unfold zlength in Hlast; lia).
  intros k r. unfold bucket_row.
  rewrite (nth_as_nth_error (list_set _ _ _)), nth_error_list_set.
  destruct (Nat.eqb_spec (length (children_vec s) - 1) k) as [<-|Hne].
  - assert (E : (S (length (children_vec s) - 1) =? length (children_vec s))%nat
               = true) by (apply Nat.eqb_eq; lia).
    rewrite E, Hbucket. cbn [option_map andb].
    rewrite (nth_as_nth_error (children_vec s)), Hbucket.
    rewrite (nth_as_nth_error (list_set _ _ _)), nth_error_list_set.
    destruct (Nat.eqb_spec (Z.to_nat (p + L)) r) as [<-|Hr].
    + rewrite Hrow, Nat.eqb_refl. cbn [option_map].
      rewrite (nth_as_nth_error bucket), Hrow. reflexivity.
    + rewrite <- nth_as_nth_error.
      destruct (Nat.eqb_spec r (Z.to_nat (p + L))); [congruence|].
      now rewrite app_nil_r.
  - rewrite <- nth_as_nth_error.
    destruct (Nat.eqb_spec (S k) (length (children_vec s))); [lia|].
    now rewrite app_nil_r.
Qed.

(** One round of the loop over [c] appends [c] to the last bucket, in the
    row of every parent of [c], and touches no other bucket. *)
Lemma scan_child_children structure L V c s s' :
  well_shaped structure L V -> 0 <= c < V ->
  scan_child structure L V s c = Ok s' ->
  forall k r, 0 <= r < L + V ->
    bucket_row (children_vec s') k (Z.to_nat r) =
    bucket_row (children_vec s) k (Z.to_nat r) ++
    (if (S k =? length (children_vec s'))%nat && edge structure L (r - L) c
     then [c] else []).
Proof.
  intros Hshape Hc. pose proof Hshape as (HL & HV & _).
  unfold scan_child.
  destruct (foldM (scan_parent structure L V c) (zrange (- L) V) s)
    as [s1|] eqn:E1; simpl bind; [|discriminate].
  destruct (foldM (link_parent structure L c) (zrange (- L) V) s1)
    as [s2|] eqn:E2; simpl bind; [|discriminate].
  destruct (vec_modify_back (scan_layers s2) incr_num); simpl bind; [|discriminate].
  intros [= <-]. simpl.
  assert (H1 : forall k r,
            bucket_row (children_vec s1) k r = bucket_row (children_vec s) k r).
  { apply (foldM_zrange_ok (scan_parent structure L V c)
             (fun _ t => forall k r, bucket_row (children_vec t) k r
                                     = bucket_row (children_vec s) k r)
             (- L) V s s1); auto; try lia.
    intros p t t' Hp Ht Hrun k r.
    rewrite (scan_parent_children _ _ _ _ _ _ _ Hrun). apply Ht. }
  assert (H2 : length (children_vec s2) = length (children_vec s1) /\
               forall k r,
                 bucket_row (children_vec s2) k r =
                 bucket_row (children_vec s1) k r ++
                 (if (S k =? length (children_vec s1))%nat
                     && (Z.of_nat r <? V + L) && edge structure L (Z.of_nat r - L) c
                  then [c] else [])).
  { apply (foldM_zrange_ok (link_parent structure L c)
             (fun p t =>
                length (children_vec t) = length (children_vec s1) /\
                forall k r,
                  bucket_row (children_vec t) k r =
                  bucket_row (children_vec s1) k r ++
                  (if (S k =? length (children_vec s1))%nat
                      && (Z.of_nat r <? p + L) && edge structure L (Z.of_nat r - L) c
                   then [c] else []))
             (- L) V s1 s2); auto; try lia.
    - split; [reflexivity|]. intros k r.
      destruct (Z.ltb_spec (Z.of_nat r) (- L + L)); [lia|].
      now rewrite andb_false_r, app_nil_r.
    - intros p t t' Hp [Hlen Ht] Hrun.
      destruct (link_parent_children _ _ _ _ _ _ _ Hshape Hc Hp Hrun) as [Hlen' Hrow].
      split; [congruence|]. intros k r.
      rewrite Hrow, Ht, Hlen, <- app_assoc. f_equal.
      destruct (S k =? length (children_vec s1))%nat; simpl; [|reflexivity].
      destruct (Nat.eqb_spec r (Z.to_nat (p + L))) as [->|Hr].
      + rewrite Z2Nat.id by lia.
        destruct (Z.ltb_spec (p + L) (p + L)); [lia|].
        destruct (Z.ltb_spec (p + L) (p + 1 + L)); [|lia].
        simpl. replace (p + L - L) with p by lia. reflexivity.
      + destruct (Z.ltb_spec (Z.of_nat r) (p + L)),
                 (Z.ltb_spec (Z.of_nat r) (p + 1 + L)); try lia; simpl.
        * now rewrite app_nil_r.
        * reflexivity. }
  destruct H2 as [Hlen2 H2]. intros k r Hr.
  rewrite H2, H1, Hlen2, Z2Nat.id by lia.
  destruct (Z.ltb_spec r (V + L)); [|lia].
  now rewrite andb_true_r.
Qed.

(** What the buckets hold once the visible nodes below [c] are scanned:
    bucket [k] lists, for each node, its children counted in the layer at
    position [k + 1], in ascending order. *)
Definition children_spec (structure : Tensor bool) (L V c : Z) (s : Scan) : Prop :=
  forall k r, 0 <= r < L + V ->
    StronglySorted Z.lt (bucket_row (children_vec s) k (Z.to_nat r)) /\
    forall c', In c' (bucket_row (children_vec s) k (Z.to_nat r)) <->
               0 <= c' < c /\ edge structure L (r - L) c' = true /\
               at_layer (scan_layers s) (S k) c'.

Lemma children_spec_init structure L V :
  children_spec structure L V 0 (scan_init L V).
Proof.
  intros k r Hr. simpl.
  assert (E : bucket_row [repeat [] (Z.to_nat (total_size L V))] k (Z.to_nat r) = []).
  { change [repeat [] (Z.to_nat (total_size L V))]
      with (@nil (list (list Z)) ++ [repeat [] (Z.to_nat (total_size L V))]).
    rewrite bucket_row_empty. unfold bucket_row.
    destruct k; simpl; destruct (Z.to_nat r); reflexivity. }
  rewrite E. split; [constructor|].
  intros c'. simpl. split; [tauto|lia].
Qed.

Lemma children_spec_step structure L V c s s' :
  well_shaped structure L V -> 0 <= c < V ->
  scan_inv structure L V c s -> children_spec structure L V c s ->
  scan_child structure L V s c = Ok s' ->
  scan_step structure L V c s s' -> scan_shape L V s' ->
  children_spec structure L V (c + 1) s'.
Proof.
  intros Hshape Hc Hinv Hch Hrun Hstep Hsh' k r Hr.
  destruct Hstep as (pv0 & n & front & lastl & _ & _ & _ & Hsplit & Hls' & _).
  pose proof (inv_contig _ _ _ _ _ Hinv) as Hcontig.
  pose proof (step_at_last _ _ _ _ _ _ Hcontig Hsplit) as Hat.
  pose proof (step_contiguous _ _ _ _ _ _ Hcontig Hsplit) as Hcontig'.
  assert (Hlen : length (children_vec s') = length front).
  { pose proof (sh_cv_len _ _ _ Hsh') as H. rewrite Hls', zlength_app in H.
    unfold zlength in H. simpl in H. lia. }
  rewrite (scan_child_children structure L V c s s' Hshape Hc Hrun k r Hr).
  rewrite Hlen, Hls'.
  destruct (Hch k r Hr) as [Hsorted Hmem].
  assert (Hold : forall c', In c' (bucket_row (children_vec s) k (Z.to_nat r)) ->
                            c' < c).
  { intros c' Hin. apply Hmem in Hin. lia. }
  split.
  - apply StronglySorted_app; auto.
    + destruct (_ && _); repeat constructor.
    + intros x y Hx Hy. destruct (_ && _); simpl in Hy; [|tauto].
      destruct Hy as [<-|[]]. auto.
  - intros c'. rewrite in_app_iff, Hmem. split.
    + intros [(Hc' & He & Hal)|Hin].
      * split; [lia|]. split; [exact He|].
        apply (step_at_layer_new _ _ _ _ _ _ Hsplit). exact Hal.
      * destruct (Nat.eqb_spec (S k) (length front)) as [Hk|Hk];
          simpl in Hin; [|tauto].
        destruct (edge structure L (r - L) c) eqn:Ee; simpl in Hin; [|tauto].
        destruct Hin as [<-|[]].
        split; [lia|]. split; [exact Ee|]. rewrite Hk. exact Hat.
    + intros (Hc' & He & Hal).
      destruct (Z.eq_dec c' c) as [->|Hne].
      * right.
        assert (Hk : S k = length front)
          by (eapply contiguous_unique; eauto).
        rewrite Hk, Nat.eqb_refl, He. now left.
      * left. split; [lia|]. split; [exact He|].
        apply (step_at_layer_old _ _ _ _ _ _ Hcontig Hsplit); auto.
Qed.

(** The scan ends with the parents, the layers and the presence ranges as
    [scan_inv] has them, and with the buckets as [children_spec] has
    them. *)
Lemma scan_edges_children structure L V :
  well_shaped structure L V ->
  exists s, scan_edges structure L V = Ok s /\ scan_shape L V s /\
            scan_inv structure L V V s /\ children_spec structure L V V s.
Proof.
  intros Hshape. pose proof Hshape as (HL & HV & _).
  destruct (foldM_zrange_inv (scan_child structure L V)
              (fun c s => scan_shape L V s /\ scan_inv structure L V c s /\
                          children_spec structure L V c s)
              0 V (scan_init L V) HV) as (s & Hrun & Hsh & Hinv & Hch).
  - split; [apply (scan_init_shape structure); exact Hshape|].
    split; [apply scan_inv_init; exact HV|apply children_spec_init].
  - intros c s Hc (Hsh & Hinv & Hch).
    destruct (scan_child_spec structure L V Hshape c s Hc Hsh)
      as (s' & Hrun & Hstep & Hsh').
    exists s'. split; [exact Hrun|]. split; [exact Hsh'|]. split.
    + exact (scan_inv_step structure L V c s s' HL Hc Hsh Hinv Hstep Hsh').
    + exact (children_spec_step structure L V c s s' Hshape Hc Hinv Hch Hrun
               Hstep Hsh').
  - exists s. auto.
Qed.

Lemma children_flat_cons cv r rows :
  children_flat cv (r :: rows) = concat (row_buckets cv r) ++ children_flat cv rows.
Proof. reflexivity. Qed.

Lemma nth_children_rows cv rows : forall b r,
  (r < length rows)%nat ->
  nth r (children_rows b cv rows) [] =
  offsets_from (b + zlength (children_flat cv (firstn r rows)))
               (row_buckets cv (nth r rows 0%nat)).
Proof.
  induction rows as [|r0 rows IH]; intros b r Hr; simpl in Hr; [lia|].
  destruct r as [|r].
  - simpl. change (zlength (children_flat cv [])) with 0. now rewrite Z.add_0_r.
  - change (nth (S r) (children_rows b cv (r0 :: rows)) [])
      with (nth r (children_rows (b + zlength (concat (row_buckets cv r0))) cv rows) []).
    rewrite IH by lia.
    change (firstn (S r) (r0 :: rows)) with (r0 :: firstn r rows).
    rewrite children_flat_cons, zlength_app, Z.add_assoc. reflexivity.
Qed.

Lemma children_flat_split cv rows r :
  (r < length rows)%nat ->
  children_flat cv rows =
  children_flat cv (firstn r rows) ++
  concat (row_buckets cv (nth r rows 0%nat)) ++
  children_flat cv (skipn (S r) rows).
Proof.
  intros Hr. rewrite <- children_flat_cons, <- children_flat_app. f_equal.
  rewrite <- (firstn_skipn r rows) at 1. f_equal.
  revert r Hr. induction rows as [|r0 rows IH]; intros [|r] Hr; simpl in *;
    try lia; auto.
  apply IH. lia.
Qed.

Lemma nth_row_buckets cv r k : nth k (row_buckets cv r) [] = bucket_row cv k r.
Proof.
  unfold row_buckets, bucket_row.
  rewrite <- (map_nth (fun bucket : list (list Z) => nth r bucket [])).
  f_equal. now destruct r.
Qed.

(** The offsets of row [r] delimit, bucket by bucket, the part of
    [children] that belongs to it. *)
Lemma children_slice cv t r k :
  (r < t)%nat -> (k < length cv)%nat ->
  csr_slice (children_flat cv (seq 0 t))
            (nth r (children_rows 0 cv (seq 0 t)) []) (Z.of_nat k)
  = bucket_row cv k r.
Proof.
  intros Hr Hk.
  rewrite nth_children_rows by (rewrite length_seq; lia).
  rewrite (children_flat_split cv (seq 0 t) r) by (rewrite length_seq; lia).
  rewrite seq_nth by lia. simpl Nat.add. rewrite Z.add_0_l.
  rewrite csr_slice_runs by (unfold row_buckets; rewrite length_map; lia).
  apply nth_row_buckets.
Qed.

(** The children, as the kernels read them.  The offsets of node [p] in
    [children_bases] delimit one run of [children] per layer record after
    the first; run [k] lists the children of [p] counted in the layer at
    position [k + 1], each once and in ascending order. *)
Theorem children_csr structure L V out :
  well_shaped structure L V ->
  make_structures structure L V = Ok out ->
  forall p k, - L <= p < V -> 0 <= k < zlength (layers_vec out) - 1 ->
    StronglySorted Z.lt
      (csr_slice (children out)
                 (nth (Z.to_nat (p + L)) (children_bases out) []) k) /\
    forall c,
      In c (csr_slice (children out)
                      (nth (Z.to_nat (p + L)) (children_bases out) []) k) <->
      0 <= c < V /\ edge structure L p c = true /\
      at_layer (layers_vec out) (Z.to_nat (k + 1)) c.
Proof.
  intros Hshape Hout p k Hp Hk. pose proof Hshape as (HL & HV & _).
  destruct (scan_edges_children structure L V Hshape)
    as (s & Hrun & Hsh & Hinv & Hch).
  destruct (make_structures_compiled structure L V out Hshape Hout)
    as (s0 & Hrun0 & _ & _ & _ & ->).
  rewrite Hrun in Hrun0. inversion Hrun0. subst s0. clear Hrun0.
  pose proof (neighbors_length s L) as Hnl.
  pose proof (sh_cv_len _ _ _ Hsh) as Hcv.
  unfold structures_of in *.
  cbn [children children_bases layers_vec] in *.
  assert (Hwl : zlength (with_lat_width (scan_layers s)
                           (map (neighbors_of (scan_ranges s) L 0)
                                (zrange 0 (zlength (scan_layers s)))))
                = zlength (scan_layers s)).
  { unfold zlength. now rewrite with_lat_width_length. }
  rewrite Hwl in Hk.
  pose proof (children_slice (children_vec s) (Z.to_nat (L + V))
                (Z.to_nat (p + L)) (Z.to_nat k)
                ltac:(lia) ltac:(unfold zlength in *; lia)) as Hs.
  rewrite Z2Nat.id in Hs by lia. rewrite Hs. clear Hs.
  destruct (Hch (Z.to_nat k) (p + L) ltac:(lia)) as [Hsorted Hmem].
  split; [exact Hsorted|]. intros c. rewrite Hmem.
  replace (p + L - L) with p by lia.
  replace (Z.to_nat (k + 1)) with (S (Z.to_nat k)) by lia.
  now rewrite at_layer_with_lat_width.
Qed.

Lemma children_csr_witness :
  well_shaped example_structure 2 3 /\
  make_structures example_structure 2 3 = Ok example_structures /\
  forall p k, - 2 <= p < 3 -> 0 <= k < zlength (layers_vec example_structures) - 1 ->
    StronglySorted Z.lt
      (csr_slice (children example_structures)
                 (nth (Z.to_nat (p + 2)) (children_bases example_structures) []) k) /\
    forall c,
      In c (csr_slice (children example_structures)
                      (nth (Z.to_nat (p + 2)) (children_bases example_structures) []) k) <->
      0 <= c < 3 /\ edge example_structure 2 p c = true /\
      at_layer (layers_vec example_structures) (Z.to_nat (k + 1)) c.
Proof.
  split; [exact example_well_shaped|]. split; [exact example_structures_run|].
  exact (children_csr example_structure 2 3 example_structures
           example_well_shaped example_structures_run).
Defined.

Lemma firstn_seq_le r : forall a t, (r <= t)%nat -> firstn r (seq a t) = seq a r.
Proof.
  induction r as [|r IH]; intros a [|t] H; simpl; try lia; auto.
  f_equal. apply IH. lia.
Qed.

Lemma children_row_ends cv t r :
  (r < t)%nat ->
  let row := nth r (children_rows 0 cv (seq 0 t)) [] in
  zlength row = zlength cv + 1 /\
  nth 0 row 0 = zlength (children_flat cv (seq 0 r)) /\
  last row 0 = zlength (children_flat cv (seq 0 (S r))).
Proof.
  intros Hr row. unfold row.
  rewrite nth_children_rows by (rewrite length_seq; lia).
  rewrite seq_nth by lia. rewrite firstn_seq_le by lia.
  simpl Nat.add. rewrite Z.add_0_l.
  split; [|split].
  - unfold zlength. rewrite offsets_from_length. unfold row_buckets.
    rewrite length_map. lia.
  - rewrite (nth_offsets_from _ _ 0%nat) by lia. simpl.
    change (zlength (@nil Z)) with 0. lia.
  - rewrite offsets_from_last, seq_S, children_flat_snoc, zlength_app.
    reflexivity.
Qed.

(** The layout of the children arrays: [children] holds one entry per
    edge; [children_bases] has one row per node, latents first, of as many
    offsets as there are layer records; each row starts where the row
    before it ends, the first at 0, and the last row ends at the number of
    edges. *)
Theorem children_layout structure L V out :
  well_shaped structure L V ->
  make_structures structure L V = Ok out ->
  zlength (children out) = total_edges structure /\
  zlength (children_bases out) = L + V /\
  (forall r, 0 <= r < L + V ->
     zlength (nth (Z.to_nat r) (children_bases out) []) = zlength (layers_vec out) /\
     nth 0 (nth (Z.to_nat r) (children_bases out) []) 0 =
     if r =? 0 then 0
     else last (nth (Z.to_nat (r - 1)) (children_bases out) []) 0) /\
  (0 < L + V ->
   last (nth (Z.to_nat (L + V - 1)) (children_bases out) []) 0
   = total_edges structure).
Proof.
  intros Hshape Hout. pose proof Hshape as (HL & HV & _).
  destruct (make_structures_compiled structure L V out Hshape Hout)
    as (s & _ & Hsh & Hinv & _ & ->).
  pose proof (neighbors_length s L) as Hnl.
  pose proof (sh_cv_len _ _ _ Hsh) as Hcv.
  unfold structures_of.
  cbn [children children_bases layers_vec].
  assert (Hwl : zlength (with_lat_width (scan_layers s)
                           (map (neighbors_of (scan_ranges s) L 0)
                                (zrange 0 (zlength (scan_layers s)))))
                = zlength (scan_layers s)).
  { unfold zlength. now rewrite with_lat_width_length. }
  rewrite Hwl.
  assert (Htotal : zlength (children_flat (children_vec s) (seq 0 (Z.to_nat (L + V))))
                   = total_edges structure).
  { rewrite children_flat_total.
    - rewrite (inv_cv_total _ _ _ _ _ Hinv), (inv_count _ _ _ _ _ Hinv).
      apply (scan_total_edges structure L V s Hshape Hsh Hinv).
    - eapply Forall_impl; [|exact (sh_cv _ _ _ Hsh)]. simpl. intros b Hb. lia. }
  split; [exact Htotal|]. split; [|split].
  - unfold zlength. rewrite children_rows_length, length_seq. lia.
  - intros r Hr.
    destruct (children_row_ends (children_vec s) (Z.to_nat (L + V)) (Z.to_nat r)
                ltac:(lia)) as (Hlen & Hfirst & _).
    split; [lia|]. rewrite Hfirst.
    destruct (Z.eqb_spec r 0) as [->|Hne]; [reflexivity|].
    destruct (children_row_ends (children_vec s) (Z.to_nat (L + V))
                (Z.to_nat (r - 1)) ltac:(lia)) as (_ & _ & Hlast).
    rewrite Hlast. do 3 f_equal. lia.
  - intros Hpos.
    destruct (children_row_ends (children_vec s) (Z.to_nat (L + V))
                (Z.to_nat (L + V - 1)) ltac:(lia)) as (_ & _ & Hlast).
    rewrite Hlast, <- Htotal. do 3 f_equal. lia.
Qed.

Lemma children_layout_witness :
  well_shaped example_structure 2 3 /\
  make_structures example_structure 2 3 = Ok example_structures /\
  zlength (children example_structures) = total_edges example_structure /\
  zlength (children_bases example_structures) = 2 + 3 /\
  (forall r, 0 <= r < 2 + 3 ->
     zlength (nth (Z.to_nat r) (children_bases example_structures) [])
       = zlength (layers_vec example_structures) /\
     nth 0 (nth (Z.to_nat r) (children_bases example_structures) []) 0 =
     if r =? 0 then 0
     else last (nth (Z.to_nat (r - 1)) (children_bases example_structures) []) 0) /\
  (0 < 2 + 3 ->
   last (nth (Z.to_nat (2 + 3 - 1)) (children_bases example_structures) []) 0
   = total_edges example_structure).
Proof.
  split; [exact example_well_shaped|]. split; [exact example_structures_run|].
  exact (children_layout example_structure 2 3 example_structures
           example_well_shaped example_structures_run).
Defined.

(** ** The layer records *)

Lemma contiguous_with_lat_width layers : forall nv b e,
  length layers = length nv ->
  contiguous b layers e -> contiguous b (with_lat_width layers nv) e.
Proof.
  induction layers as [|l layers IH]; intros [|vs nv] b e Hlen; simpl in *;
    try discriminate; auto.
  intros (Hb & Hn & H). repeat split; auto. apply IH; auto.
Qed.

Lemma contiguous_chain ls : forall b e,
  contiguous b ls e ->
  Forall (fun l => 0 <= num l) ls /\
  b + zsum num ls = e /\
  forall i l l', nth_error ls i = Some l -> nth_error ls (S i) = Some l' ->
                 base l' = base l + num l.
Proof.
  induction ls as [|l0 ls IH]; intros b e; cbn [contiguous].
  - intros <-. split; [constructor|]. split; [unfold zsum; simpl; lia|].
    intros [|i]; discriminate.
  - intros (Hb & Hn & H). destruct (IH _ _ H) as (Hall & Hsum & Hchain).
    split; [constructor; auto|]. split.
    + rewrite zsum_cons. lia.
    + intros [|i] l l' Hl Hl'; simpl in Hl, Hl'.
      * inversion Hl. subst l0. destruct ls as [|l1 ls]; [discriminate|].
        simpl in Hl'. inversion Hl'. subst l1. simpl in H. lia.
      * eapply Hchain; eauto.
Qed.

(** The first layer record is the sentinel throughout the scan. *)
Lemma scan_sentinel structure L V :
  well_shaped structure L V ->
  exists s, scan_edges structure L V = Ok s /\
            nth_error (scan_layers s) 0 = Some SEMNANLayerData_default.
Proof.
  intros Hshape.
  destruct (scan_edges_inv structure L V Hshape
              (fun _ s => nth_error (scan_layers s) 0 = Some SEMNANLayerData_default))
    as (s & Hrun & _ & H).
  - reflexivity.
  - intros c s s' Hc Hsh H0 Hstep Hsh'.
    destruct Hstep as (pv0 & n & front & lastl & _ & _ & _ & Hsplit & Hls' & _).
    pose proof (sh_layers _ _ _ Hsh) as Hll.
    assert (Hf : (1 <= length front)%nat).
    { apply (f_equal (@length _)) in Hsplit. rewrite !length_app in Hsplit.
      simpl in Hsplit. unfold zlength in Hll. lia. }
    rewrite Hls', nth_error_app1 by lia.
    assert (H1 : nth_error (front ++ [lastl]) 0 = Some SEMNANLayerData_default).
    { rewrite <- Hsplit, nth_error_app1; auto. unfold zlength in Hll. lia. }
    rewrite nth_error_app1 in H1 by lia. exact H1.
  - eauto.
Qed.

(** The layer records: there are at least two; the first is the sentinel
    and counts no visible node; each record begins where the one before it
    ends, so that the records count the visible nodes in order, [V] in
    all; and a node with a higher number is never in an earlier record. *)
Theorem layer_records structure L V out :
  well_shaped structure L V ->
  make_structures structure L V = Ok out ->
  2 <= zlength (layers_vec out) /\
  (exists l0, nth_error (layers_vec out) 0 = Some l0 /\
              idx l0 = 0 /\ base l0 = 0 /\ num l0 = 0) /\
  Forall (fun l => 0 <= num l) (layers_vec out) /\
  zsum num (layers_vec out) = V /\
  (forall i l l', nth_error (layers_vec out) i = Some l ->
                  nth_error (layers_vec out) (S i) = Some l' ->
                  base l' = base l + num l) /\
  (forall i j c c', at_layer (layers_vec out) i c ->
                    at_layer (layers_vec out) j c' -> c < c' -> (i <= j)%nat).
Proof.
  intros Hshape Hout.
  destruct (make_structures_compiled structure L V out Hshape Hout)
    as (s & Hrun & Hsh & Hinv & _ & ->).
  destruct (scan_sentinel structure L V Hshape) as (s0 & Hrun0 & Hfirst).
  rewrite Hrun in Hrun0. inversion Hrun0. subst s0. clear Hrun0.
  pose proof (neighbors_length s L) as Hnl.
  pose proof (sh_layers _ _ _ Hsh) as Hll.
  unfold structures_of. cbn [layers_vec].
  set (nv := map (neighbors_of (scan_ranges s) L 0)
                 (zrange 0 (zlength (scan_layers s)))) in *.
  pose proof (contiguous_with_lat_width _ nv 0 V Hnl (inv_contig _ _ _ _ _ Hinv))
    as Hcontig.
  destruct (contiguous_chain _ _ _ Hcontig) as (Hnum & Hsum & Hchain).
  split; [unfold zlength in *; rewrite with_lat_width_length; auto|].
  split.
  { rewrite nth_error_with_lat_width, Hfirst by auto.
    eexists. split; [reflexivity|]. simpl. auto. }
  split; [exact Hnum|]. split; [lia|]. split; [exact Hchain|].
  intros i j c c' Hi Hj Hlt.
  destruct (Nat.le_gt_cases i j) as [Hle|Hgt]; [exact Hle|exfalso].
  destruct Hi as (l & Hl & Hin), Hj as (l' & Hl' & Hin').
  destruct (contiguous_base _ _ _ _ _ Hcontig Hl) as [Hfront _].
  assert (Hl'' : nth_error (firstn i (with_lat_width (scan_layers s) nv)) j = Some l').
  { rewrite nth_error_firstn. destruct (Nat.ltb_spec j i); [exact Hl'|lia]. }
  pose proof (contiguous_bounds _ _ _ _ _ _ Hfront Hl'' Hin') as Hb.
  unfold in_layer in Hin. lia.
Qed.

Lemma layer_records_witness :
  well_shaped example_structure 2 3 /\
  make_structures example_structure 2 3 = Ok example_structures /\
  2 <= zlength (layers_vec example_structures) /\
  (exists l0, nth_error (layers_vec example_structures) 0 = Some l0 /\
              idx l0 = 0 /\ base l0 = 0 /\ num l0 = 0) /\
  Forall (fun l => 0 <= num l) (layers_vec example_structures) /\
  zsum num (layers_vec example_structures) = 3 /\
  (forall i l l', nth_error (layers_vec example_structures) i = Some l ->
                  nth_error (layers_vec example_structures) (S i) = Some l' ->
                  base l' = base l + num l) /\
  (forall i j c c', at_layer (layers_vec example_structures) i c ->
                    at_layer (layers_vec example_structures) j c' ->
                    c < c' -> (i <= j)%nat).
Proof.
  split; [exact example_well_shaped|]. split; [exact example_structures_run|].
  exact (layer_records example_structure 2 3 example_structures
           example_well_shaped example_structures_run).
Defined.

(** ** When a layer is opened *)

Lemma scan_parent_opens structure L V c s p s' :
  well_shaped structure L V -> 0 <= c < V -> - L <= p < V ->
  scan_parent structure L V c s p = Ok s' ->
  if edge structure L p c && (p >=? layer_max s)
  then scan_layers s' =
         scan_layers s ++ [SEMNANLayerData_new (zlength (scan_layers s)) c] /\
       layer_max s' = c
  else scan_layers s' = scan_layers s /\ layer_max s' = layer_max s.
Proof.
  intros Hshape Hc Hp. unfold scan_parent.
  rewrite (item2_edge structure L V Hshape p c Hp Hc). simpl bind.
  destruct (edge structure L p c); cbn [andb]; [|intros [= <-]; auto].
  destruct (vec_modify (parents_vec s) c (fun ps => ps ++ [p])); simpl bind;
    [|discriminate].
  destruct (p >=? layer_max s); intros [= <-]; simpl; auto.
Qed.

Lemma link_parent_layers structure L c s p s' :
  link_parent structure L c s p = Ok s' ->
  scan_layers s' = scan_layers s /\ layer_max s' = layer_max s.
Proof.
  unfold link_parent.
  destruct (item2 structure (p + L) c) as [[|]|]; simpl bind;
    [|intros [= <-]; auto|discriminate].
  match goal with
  | |- bind ?m _ = _ -> _ => destruct m; simpl bind; [|discriminate]
  end.
  destruct (vec_back (children_vec s)); simpl bind; [|discriminate].
  match goal with
  | |- bind ?m _ = _ -> _ => destruct m; simpl bind; [|discriminate]
  end.
  match goal with
  | |- bind ?m _ = _ -> _ => destruct m; simpl bind; [|discriminate]
  end.
  intros [= <-]. auto.
Qed.

Lemma vec_modify_back_inv {A} (v v' : list A) f :
  vec_modify_back v f = Ok v' ->
  exists front a, v = front ++ [a] /\ v' = front ++ [f a].
Proof.
  unfold vec_modify_back, vec_modify.
  destruct (vec_get v (zlength v - 1)) as [a|] eqn:E; simpl; [|discriminate].
  intros [= <-]. apply vec_get_inv in E. destruct E as [Hb Ha].
  destruct (exists_last (l := v)) as (front & a' & ->).
  { intros ->. unfold zlength in Hb. simpl in Hb. lia. }
  assert (Hn : Z.to_nat (zlength (front ++ [a']) - 1) = length front).
  { rewrite zlength_app. unfold zlength. simpl. lia. }
  rewrite Hn in *. rewrite nth_error_app2, Nat.sub_diag in Ha by lia.
  simpl in Ha. inversion Ha. subst a'.
  exists front, a. split; [reflexivity|]. apply list_set_app_last.
Qed.

(** One round of the loop over [c], when every parent of [c] comes before
    it: either no parent reaches the marker and [c] joins the last layer,
    or some parent does and [c] begins a new one. *)
Lemma scan_child_layers structure L V c s s' :
  well_shaped structure L V -> 0 <= c < V ->
  (forall p, - L <= p < V -> edge structure L p c = true -> p < c) ->
  scan_child structure L V s c = Ok s' ->
  (exists front lastl,
      scan_layers s = front ++ [lastl] /\
      scan_layers s' = front ++ [incr_num lastl] /\
      layer_max s' = layer_max s)
  \/
  (scan_layers s' =
     scan_layers s ++ [incr_num (SEMNANLayerData_new (zlength (scan_layers s)) c)] /\
   layer_max s' = c /\
   exists p, - L <= p < c /\ edge structure L p c = true /\ layer_max s <= p).
Proof.
  intros Hshape Hc Htopo. pose proof Hshape as (HL & HV & _).
  unfold scan_child.
  destruct (foldM (scan_parent structure L V c) (zrange (- L) V) s)
    as [s1|] eqn:E1; simpl bind; [|discriminate].
  destruct (foldM (link_parent structure L c) (zrange (- L) V) s1)
    as [s2|] eqn:E2; simpl bind; [|discriminate].
  destruct (vec_modify_back (scan_layers s2) incr_num) as [ls|] eqn:E3;
    simpl bind; [|discriminate].
  intros [= <-]. cbn [scan_layers layer_max].
  assert (H2 : scan_layers s2 = scan_layers s1 /\ layer_max s2 = layer_max s1).
  { apply (foldM_zrange_ok (link_parent structure L c)
             (fun _ t => scan_layers t = scan_layers s1
                         /\ layer_max t = layer_max s1)
             (- L) V s1 s2); auto; try lia.
    intros p t t' _ [Ht1 Ht2] Hrun.
    destruct (link_parent_layers _ _ _ _ _ _ Hrun). split; congruence. }
  destruct H2 as [Hl2 Hm2]. rewrite Hl2 in E3. rewrite Hm2.
  assert (H1 : (scan_layers s1 = scan_layers s /\ layer_max s1 = layer_max s)
               \/ (scan_layers s1 =
                     scan_layers s ++ [SEMNANLayerData_new (zlength (scan_layers s)) c]
                   /\ layer_max s1 = c
                   /\ exists p, - L <= p < V /\ edge structure L p c = true
                                /\ layer_max s <= p)).
  { apply (foldM_zrange_ok (scan_parent structure L V c)
             (fun k t =>
                (scan_layers t = scan_layers s /\ layer_max t = layer_max s)
                \/ (scan_layers t =
                      scan_layers s ++ [SEMNANLayerData_new (zlength (scan_layers s)) c]
                    /\ layer_max t = c
                    /\ exists p, - L <= p < V /\ edge structure L p c = true
                                 /\ layer_max s <= p))
             (- L) V s s1); auto; try lia.
    intros p t t' Hp Ht Hrun.
    pose proof (scan_parent_opens _ _ _ _ _ _ _ Hshape Hc Hp Hrun) as Hstep.
    destruct (edge structure L p c) eqn:Ee; cbn [andb] in Hstep.
    - destruct (Z.geb_spec p (layer_max t)) as [Hge|Hlt].
      + destruct Ht as [[Ht1 Ht2]|(Ht1 & Ht2 & _)].
        * right. destruct Hstep as [Hs1 Hs2]. rewrite Ht1 in Hs1.
          split; [exact Hs1|]. split; [exact Hs2|].
          exists p. repeat split; auto; lia.
        * specialize (Htopo p Hp Ee). lia.
      + destruct Hstep as [Hs1 Hs2]. rewrite Hs1, Hs2. exact Ht.
    - destruct Hstep as [Hs1 Hs2]. rewrite Hs1, Hs2. exact Ht. }
  destruct (vec_modify_back_inv _ _ _ E3) as (front & lastl & Hfl & ->).
  destruct H1 as [[H1 H1m]|(H1 & H1m & p & Hp & Ee & Hge)].
  - left. exists front, lastl. rewrite <- H1. split; [exact Hfl|].
    split; [reflexivity|exact H1m].
  - right. rewrite H1 in Hfl. apply app_inj_tail in Hfl. destruct Hfl as [<- <-].
    split; [reflexivity|]. split; [exact H1m|].
    exists p. specialize (Htopo p Hp Ee). repeat split; auto; lia.
Qed.

Lemma at_layer_app layers more i x :
  at_layer layers i x -> at_layer (layers ++ more) i x.
Proof.
  intros (l & Hl & Hin). exists l. split; [|exact Hin].
  rewrite nth_error_app1; auto. apply nth_error_Some. congruence.
Qed.

Lemma at_layer_incr_last front lastl i x :
  at_layer (front ++ [lastl]) i x -> at_layer (front ++ [incr_num lastl]) i x.
Proof.
  intros (l & Hl & Hin). unfold at_layer.
  destruct (Nat.lt_ge_cases i (length front)) as [Hi|Hi].
  - rewrite nth_error_app1 in Hl |- * by auto. eauto.
  - rewrite nth_error_app2 in Hl |- * by auto.
    destruct (i - length front)%nat as [|k]; simpl in *.
    + inversion Hl. subst l. eexists. split; [reflexivity|].
      unfold in_layer in *. simpl. lia.
    + destruct k; discriminate.
Qed.

(** The layers opened so far, when the column order is topological: the
    marker is -1 until a layer is opened and the base of the last layer
    afterwards; every record after the second counts a node, and its
    first node has a parent in the record before it (or, for the third
    record, the latent -1). *)
Definition tight (structure : Tensor bool) (L : Z) (s : Scan) : Prop :=
  nth_error (scan_layers s) 0 = Some SEMNANLayerData_default /\
  ((layer_max s = -1 /\ zlength (scan_layers s) = 2) \/
   (3 <= zlength (scan_layers s) /\
    layer_max s = base (last (scan_layers s) SEMNANLayerData_default))) /\
  forall i l, (2 <= i)%nat -> nth_error (scan_layers s) i = Some l ->
    1 <= num l /\
    exists p, - L <= p < base l /\ edge structure L p (base l) = true /\
              ((i = 2%nat /\ p = -1) \/ at_layer (scan_layers s) (i - 1) p).

Lemma tight_init structure L V : tight structure L (scan_init L V).
Proof.
  split; [reflexivity|]. split; [left; split; reflexivity|].
  intros [|[|[|i]]] l Hi; simpl; try lia; discriminate.
Qed.

Lemma tight_step structure L V c s s' :
  well_shaped structure L V -> 0 <= c < V ->
  topological structure L V ->
  scan_shape L V s -> scan_inv structure L V c s -> tight structure L s ->
  scan_child structure L V s c = Ok s' ->
  tight structure L s'.
Proof.
  intros Hshape Hc Htopo Hsh Hinv (Hfirst & Hmax & Hrec) Hrun.
  pose proof Hshape as (HL & HV & _).
  pose proof (sh_layers _ _ _ Hsh) as Hll.
  pose proof (inv_contig _ _ _ _ _ Hinv) as Hcontig.
  destruct (scan_child_layers structure L V c s s' Hshape Hc
              ltac:(intros p Hp He; apply (Htopo p c); auto) Hrun)
    as [(front & lastl & Hfl & Hls' & Hlm')
       |(Hls' & Hlm' & p & Hp & Ee & Hge)].
  - (* [c] joins the last layer *)
    assert (Hf : (1 <= length front)%nat).
    { rewrite Hfl, zlength_app in Hll. unfold zlength in Hll. simpl in Hll. lia. }
    unfold tight. rewrite Hfl in *. rewrite Hls', Hlm'.
    split; [|split].
    + rewrite nth_error_app1 in Hfirst |- * by lia. exact Hfirst.
    + rewrite !zlength_app, !last_last in *. exact Hmax.
    + intros i l' Hi Hl'.
      assert (H : exists l, nth_error (front ++ [lastl]) i = Some l /\
                            base l' = base l /\ num l <= num l').
      { destruct (Nat.lt_ge_cases i (length front)) as [Hlt|Hge'].
        - rewrite nth_error_app1 in Hl' |- * by auto. exists l'. split; auto. lia.
        - rewrite nth_error_app2 in Hl' |- * by auto.
          destruct (i - length front)%nat as [|k]; simpl in *.
          + inversion Hl'. subst l'. exists lastl. simpl. split; auto. lia.
          + destruct k; discriminate. }
      destruct H as (l & Hl & Hb & Hn).
      destruct (Hrec i l Hi Hl) as (Hnum & q & Hq & Heq & Hpos).
      split; [lia|]. exists q. rewrite Hb. split; [exact Hq|]. split; [exact Heq|].
      destruct Hpos as [Hpos|Hat]; [left; exact Hpos|right].
      now apply at_layer_incr_last.
  - (* [c] begins a new layer *)
    unfold tight. rewrite Hls', Hlm'. split; [|split].
    + rewrite nth_error_app1; auto. unfold zlength in Hll. lia.
    + right. rewrite zlength_app, last_last. change (zlength [_]) with 1.
      split; [lia|reflexivity].
    + intros i l' Hi Hl'.
      destruct (Nat.lt_ge_cases i (length (scan_layers s))) as [Hlt|Hge'].
      * rewrite nth_error_app1 in Hl' by auto.
        destruct (Hrec i l' Hi Hl') as (Hnum & q & Hq & Heq & Hpos).
        split; [exact Hnum|]. exists q. split; [exact Hq|]. split; [exact Heq|].
        destruct Hpos as [Hpos|Hat]; [left; exact Hpos|right].
        now apply at_layer_app.
      * rewrite nth_error_app2 in Hl' by auto.
        destruct (i - length (scan_layers s))%nat as [|k] eqn:Ek; simpl in Hl';
          [|destruct k; discriminate].
        inversion Hl'. subst l'. simpl. split; [lia|].
        exists p. split; [exact Hp|]. split; [exact Ee|].
        assert (Hi' : i = length (scan_layers s)) by lia.
        destruct (exists_last (l := scan_layers s)) as (front & lastl & Hfl).
        { intros E. rewrite E in Hll. unfold zlength in Hll. simpl in Hll. lia. }
        rewrite Hfl in Hcontig. pose proof Hcontig as Hc2.
        apply contiguous_app in Hc2. destruct Hc2 as (m & Hfront & Hb & Hn & He).
        simpl in He. subst m.
        assert (Hlen : length (scan_layers s) = S (length front)).
        { rewrite Hfl, length_app. simpl. lia. }
        destruct Hmax as [[Hm1 Hm2]|[Hm1 Hm2]].
        -- (* no layer was opened before *)
           assert (Hfront1 : front = [SEMNANLayerData_default]).
           { rewrite Hfl in Hfirst, Hm2. rewrite zlength_app in Hm2.
             unfold zlength in Hm2. simpl in Hm2.
             destruct front as [|f0 [|f1 front]]; simpl in *; try lia.
             inversion Hfirst. reflexivity. }
           subst front. simpl in Hfront. destruct Hfront as (_ & _ & Hb0).
           simpl in Hb0.
           destruct (Z.eq_dec p (-1)) as [->|Hne].
           ++ left. split; [simpl in Hlen; lia|reflexivity].
           ++ right. apply at_layer_app. rewrite Hfl. exists lastl.
              replace (i - 1)%nat with 1%nat by (simpl in Hlen; lia).
              split; [reflexivity|]. unfold in_layer. lia.
        -- right. apply at_layer_app. rewrite Hfl. exists lastl.
           replace (i - 1)%nat with (length front) by lia.
           split; [now rewrite nth_error_app2, Nat.sub_diag by lia|].
           rewrite Hfl, last_last in Hm2. unfold in_layer. lia.
Qed.

Lemma scan_edges_tight structure L V :
  well_shaped structure L V -> topological structure L V ->
  exists s, scan_edges structure L V = Ok s /\ tight structure L s.
Proof.
  intros Hshape Htopo. pose proof Hshape as (HL & HV & _).
  destruct (foldM_zrange_inv (scan_child structure L V)
              (fun c s => scan_shape L V s /\ scan_inv structure L V c s /\
                          tight structure L s)
              0 V (scan_init L V) HV) as (s & Hrun & _ & _ & Ht).
  - split; [apply (scan_init_shape structure); exact Hshape|].
    split; [apply scan_inv_init; exact HV|apply tight_init].
  - intros c s Hc (Hsh & Hinv & Ht).
    destruct (scan_child_spec structure L V Hshape c s Hc Hsh)
      as (s' & Hrun & Hstep & Hsh').
    exists s'. split; [exact Hrun|]. split; [exact Hsh'|]. split.
    + exact (scan_inv_step structure L V c s s' HL Hc Hsh Hinv Hstep Hsh').
    + exact (tight_step structure L V c s s' Hshape Hc Htopo Hsh Hinv Ht Hrun).
  - exists s. auto.
Qed.

Lemma zsum_lower {X} (f : X -> Z) ls : forall k,
  Forall (fun l => 0 <= f l) ls ->
  (forall i l, (k <= i)%nat -> nth_error ls i = Some l -> 1 <= f l) ->
  zlength ls - Z.of_nat k <= zsum f ls.
Proof.
  induction ls as [|a ls IH]; intros k Hall Hpos.
  - unfold zsum, zlength. simpl. lia.
  - rewrite zsum_cons. inversion Hall as [|? ? Ha Hrest]. subst.
    change (zlength (a :: ls)) with (Z.of_nat (S (length ls))).
    destruct k as [|k].
    + specialize (IH 0%nat Hrest
                     (fun i l _ Hl => Hpos (S i) l ltac:(lia) Hl)).
      specialize (Hpos 0%nat a ltac:(lia) eq_refl).
      unfold zlength in IH. lia.
    + specialize (IH k Hrest
                     (fun i l Hi Hl => Hpos (S i) l ltac:(lia) Hl)).
      unfold zlength in IH. lia.
Qed.

(** The layering is tight, when the column order is topological: every
    layer record after the second counts at least one node, and its first
    node has a parent counted in the record just before it (for the third
    record the parent may instead be the latent -1, which the marker's
    initial value -1 lets open a layer); so there are at most [V + 2]
    records. *)
Theorem layers_tight structure L V out :
  well_shaped structure L V -> topological structure L V ->
  make_structures structure L V = Ok out ->
  zlength (layers_vec out) <= V + 2 /\
  forall i l, (2 <= i)%nat -> nth_error (layers_vec out) i = Some l ->
    1 <= num l /\
    exists p, - L <= p < base l /\ edge structure L p (base l) = true /\
              ((i = 2%nat /\ p = -1) \/ at_layer (layers_vec out) (i - 1) p).
Proof.
  intros Hshape Htopo Hout.
  destruct (make_structures_compiled structure L V out Hshape Hout)
    as (s & Hrun & Hsh & Hinv & _ & ->).
  destruct (scan_edges_tight structure L V Hshape Htopo) as (s0 & Hrun0 & Ht).
  rewrite Hrun in Hrun0. inversion Hrun0. subst s0. clear Hrun0.
  destruct Ht as (_ & _ & Hrec).
  pose proof (neighbors_length s L) as Hnl.
  unfold structures_of. cbn [layers_vec].
  set (nv := map (neighbors_of (scan_ranges s) L 0)
                 (zrange 0 (zlength (scan_layers s)))) in *.
  assert (Hrec' : forall i l, (2 <= i)%nat ->
            nth_error (with_lat_width (scan_layers s) nv) i = Some l ->
            1 <= num l /\
            exists p, - L <= p < base l /\ edge structure L p (base l) = true /\
                      ((i = 2%nat /\ p = -1) \/
                       at_layer (with_lat_width (scan_layers s) nv) (i - 1) p)).
  { intros i l Hi Hl. rewrite nth_error_with_lat_width in Hl by auto.
    destruct (nth_error (scan_layers s) i) as [l0|] eqn:El0; [|discriminate].
    inversion Hl. subst l. simpl.
    destruct (Hrec i l0 Hi El0) as (Hnum & p & Hp & Ee & Hpos).
    split; [exact Hnum|]. exists p. split; [exact Hp|]. split; [exact Ee|].
    destruct Hpos as [Hpos|Hat]; [left; exact Hpos|right].
    now apply at_layer_with_lat_width. }
  split; [|exact Hrec'].
  pose proof (contiguous_with_lat_width _ nv 0 V Hnl (inv_contig _ _ _ _ _ Hinv))
    as Hcontig.
  destruct (contiguous_chain _ _ _ Hcontig) as (Hnum & Hsum & _).
  pose proof (zsum_lower num (with_lat_width (scan_layers s) nv) 2 Hnum
                (fun i l Hi Hl => proj1 (Hrec' i l Hi Hl))) as Hlow.
  lia.
Qed.

Lemma example_topological : topological example_structure 2 3.
Proof. apply topologicalb_spec. vm_compute. reflexivity. Qed.

Lemma layers_tight_witness :
  well_shaped example_structure 2 3 /\
  topological example_structure 2 3 /\
  make_structures example_structure 2 3 = Ok example_structures /\
  zlength (layers_vec example_structures) <= 3 + 2 /\
  forall i l, (2 <= i)%nat -> nth_error (layers_vec example_structures) i = Some l ->
    1 <= num l /\
    exists p, - 2 <= p < base l /\ edge example_structure 2 p (base l) = true /\
              ((i = 2%nat /\ p = -1) \/
               at_layer (layers_vec example_structures) (i - 1) p).
Proof.
  split; [exact example_well_shaped|]. split; [exact example_topological|].
  split; [exact example_structures_run|].
  exact (layers_tight example_structure 2 3 example_structures
           example_well_shaped example_topological example_structures_run).
Defined.

(** * Further properties of the losses and their caches *)

Lemma put_sample_covariance_inv_same this :
  put_sample_covariance_inv (sample_covariance_inv this) this = this.
Proof. destruct this. reflexivity. Qed.

Lemma put_sample_covariance_logdet_same this :
  put_sample_covariance_logdet (sample_covariance_logdet this) this = this.
Proof. destruct this. reflexivity. Qed.

Section CacheProperties.

Variable inverse_values : Z -> list R -> option (list R).
Variable logdet_value : Z -> list R -> R.

(** The proxy loss, from the inverse it is handed. *)
Definition proxy_from (inv Sigma : Tensor R) : result R :=
  prod <- torch_mm inv Sigma ;;
  tr <- torch_trace prod ;;
  ld <- torch_logdet logdet_value Sigma ;;
  Ok (tr - item ld)%R.

Lemma proxy_loss_unfold this :
  kullback_leibler_proxy_loss inverse_values logdet_value this =
  match get_sample_covariance_inv inverse_values this with
  | (Ok inv, this') => (proxy_from inv (visible_covariance_value this'), this')
  | (Err e, this') => (Err e, this')
  end.
Proof.
  unfold kullback_leibler_proxy_loss, proxy_from, bindM at 1.
  destruct (get_sample_covariance_inv inverse_values this) as [[inv|e] this'];
    [|reflexivity].
  run_method.
  destruct (torch_mm inv (visible_covariance_value this')) as [prod|e];
    run_method; [|reflexivity].
  simpl bind.
  destruct (torch_trace prod) as [tr|e]; run_method; [|reflexivity].
  simpl bind.
  destruct (torch_logdet logdet_value (visible_covariance_value this')) as [l|e];
    run_method; reflexivity.
Qed.

Lemma kl_loss_unfold this :
  kullback_leibler_loss inverse_values logdet_value this =
  match kullback_leibler_proxy_loss inverse_values logdet_value this with
  | (Ok proxy, this') =>
      match get_sample_covariance_logdet logdet_value this' with
      | (Ok l, this'') =>
          (Ok ((proxy - IZR (visible_size this') + item l) / 2)%R, this'')
      | (Err e, this'') => (Err e, this'')
      end
  | (Err e, this') => (Err e, this')
  end.
Proof.
  unfold kullback_leibler_loss, bindM at 1.
  destruct (kullback_leibler_proxy_loss inverse_values logdet_value this)
    as [[proxy|e] this']; [|reflexivity].
  run_method. unfold bindM.
  destruct (get_sample_covariance_logdet logdet_value this') as [[l|e] this''];
    reflexivity.
Qed.

(** A query of the cached inverse changes at most the cache, and a second
    query returns the same tensor and changes nothing. *)
Lemma get_sample_covariance_inv_again this inv this' :
  get_sample_covariance_inv inverse_values this = (Ok inv, this') ->
  this' = put_sample_covariance_inv inv this /\
  get_sample_covariance_inv inverse_values this' = (Ok inv, this').
Proof.
  unfold get_sample_covariance_inv.
  destruct (numel (sample_covariance_inv this) =? 0) eqn:En.
  - destruct (torch_inverse inverse_values (sample_covariance this))
      as [i|] eqn:Ei; [|discriminate].
    intros [= <- <-]. split; [reflexivity|].
    destruct this; cbn in *.
    destruct (numel i =? 0); [|reflexivity].
    rewrite Ei. reflexivity.
  - intros [= <- <-]. rewrite En.
    split; [symmetry; apply put_sample_covariance_inv_same|reflexivity].
Qed.

Lemma get_sample_covariance_logdet_again this l this' :
  get_sample_covariance_logdet logdet_value this = (Ok l, this') ->
  this' = put_sample_covariance_logdet l this /\
  get_sample_covariance_logdet logdet_value this' = (Ok l, this').
Proof.
  unfold get_sample_covariance_logdet.
  destruct (numel (sample_covariance_logdet this) =? 0) eqn:En.
  - destruct (torch_logdet logdet_value (sample_covariance this))
      as [i|] eqn:Ei; [|discriminate].
    intros [= <- <-]. split; [reflexivity|].
    destruct this; cbn in *.
    destruct (numel i =? 0); [|reflexivity].
    rewrite Ei. reflexivity.
  - intros [= <- <-]. rewrite En.
    split; [symmetry; apply put_sample_covariance_logdet_same|reflexivity].
Qed.

Lemma proxy_loss_again this x this' :
  kullback_leibler_proxy_loss inverse_values logdet_value this = (Ok x, this') ->
  this' = put_sample_covariance_inv (sample_covariance_inv this') this /\
  kullback_leibler_proxy_loss inverse_values logdet_value this' = (Ok x, this').
Proof.
  rewrite proxy_loss_unfold.
  destruct (get_sample_covariance_inv inverse_values this) as [[inv|e] t] eqn:Eg;
    [|discriminate].
  intros [= Hx <-].
  destruct (get_sample_covariance_inv_again this inv t Eg) as [Ht Hagain].
  split.
  - rewrite Ht at 1. f_equal. rewrite Ht. destruct this; reflexivity.
  - rewrite proxy_loss_unfold, Hagain, Hx. reflexivity.
Qed.

(** The losses are computed from the caches once filled: a KL loss that
    was returned is returned again by the next query, which changes
    nothing; and the first query changed nothing but the two caches. *)
Theorem loss_query_repeated this x this' :
  kullback_leibler_loss inverse_values logdet_value this = (Ok x, this') ->
  this' = put_sample_covariance_logdet (sample_covariance_logdet this')
            (put_sample_covariance_inv (sample_covariance_inv this') this) /\
  kullback_leibler_loss inverse_values logdet_value this' = (Ok x, this').
Proof.
  rewrite kl_loss_unfold.
  destruct (kullback_leibler_proxy_loss inverse_values logdet_value this)
    as [[proxy|e] t] eqn:Ep; [|discriminate].
  destruct (get_sample_covariance_logdet logdet_value t) as [[l|e] t'] eqn:El;
    [|discriminate].
  intros [= Hx <-].
  destruct (proxy_loss_again this proxy t Ep) as [Ht Hagain].
  destruct (get_sample_covariance_logdet_again t l t' El) as [Ht' Hlagain].
  assert (Hinv : sample_covariance_inv t' = sample_covariance_inv t).
  { rewrite Ht'. destruct t; reflexivity. }
  assert (Hld : sample_covariance_logdet t' = l).
  { rewrite Ht'. destruct t; reflexivity. }
  split.
  - rewrite Hinv, Hld, <- Ht. exact Ht'.
  - (* the second query *)
    assert (Hp' : kullback_leibler_proxy_loss inverse_values logdet_value t'
                  = (Ok proxy, t')).
    { rewrite proxy_loss_unfold in Hagain |- *.
      assert (Hg : get_sample_covariance_inv inverse_values t'
                   = (let '(r, u) := get_sample_covariance_inv inverse_values t in
                      (r, put_sample_covariance_logdet l u))).
      { rewrite Ht'. unfold get_sample_covariance_inv.
        destruct t; cbn.
        destruct (numel _ =? 0); [|reflexivity].
        destruct (torch_inverse _ _); reflexivity. }
      rewrite Hg.
      destruct (get_sample_covariance_inv inverse_values t) as [[inv|e] u];
        [|discriminate].
      injection Hagain as Hv Hu. subst u.
      assert (Hvc : visible_covariance_value (put_sample_covariance_logdet l t)
                    = visible_covariance_value t) by (destruct t; reflexivity).
      rewrite Hvc, Hv, <- Ht'. reflexivity. }
    rewrite kl_loss_unfold, Hp', Hlagain.
    assert (Hvs : visible_size t' = visible_size t)
      by (rewrite Ht'; destruct t; reflexivity).
    rewrite Hvs, Hx. reflexivity.
Qed.

End CacheProperties.

(** ** What the methods leave alone *)

(** A method [m] preserves the observation [f] of the object, whatever
    its outcome. *)
Definition preserves {X A : Type} (f : Solver -> X) (m : M A) : Prop :=
  forall this, f (snd (m this)) = f this.

Lemma preserves_bind {X A B} (f : Solver -> X) (m : M A) (k : A -> M B) :
  preserves f m -> (forall a, preserves f (k a)) -> preserves f (bindM m k).
Proof.
  intros Hm Hk this. unfold bindM. specialize (Hm this).
  destruct (m this) as [[a|e] t]; simpl in *; [|exact Hm].
  rewrite (Hk a t). exact Hm.
Qed.

Lemma preserves_lift {X A} (f : Solver -> X) (r : result A) : preserves f (lift r).
Proof. intros this. reflexivity. Qed.

Lemma preserves_ret {X A} (f : Solver -> X) (a : A) : preserves f (ret a).
Proof. intros this. reflexivity. Qed.

Lemma preserves_get {X A} (f : Solver -> X) (g : Solver -> A) : preserves f (get g).
Proof. intros this. reflexivity. Qed.

Lemma preserves_check {X} (f : Solver -> X) c msg : preserves f (TORCH_CHECK c msg).
Proof. intros this. unfold TORCH_CHECK. destruct c; reflexivity. Qed.

Lemma preserves_modify {X} (f : Solver -> X) g :
  (forall this, f (g this) = f this) -> preserves f (modify g).
Proof. intros H this. apply H. Qed.

Lemma preserves_new_tensor {X} (f : Solver -> X) szs init :
  (forall m this, f (put_mem m this) = f this) -> preserves f (new_tensor szs init).
Proof. intros H this. unfold new_tensor, alloc. apply H. Qed.

Ltac preserve :=
  repeat first
    [ apply preserves_bind; [|intro]
    | apply preserves_lift
    | apply preserves_ret
    | apply preserves_get
    | apply preserves_check
    | apply preserves_modify; intro; reflexivity
    | apply preserves_new_tensor; intros; reflexivity ].

(** The sample covariance and its two caches, and the number of visible
    nodes. *)
Definition sample_members (this : Solver) : Tensor R * Tensor R * Tensor R :=
  (sample_covariance this, sample_covariance_inv this, sample_covariance_logdet this).

Lemma init_parameters_sample_members randn_like structure_arg parameters dtype_arg :
  preserves sample_members
    (init_parameters randn_like structure_arg parameters dtype_arg).
Proof. unfold init_parameters, new_zeros. cbv zeta. preserve. Qed.

Lemma make_structures_method_preserves {X} (f : Solver -> X) :
  (forall out this, f (put_structures out this) = f this) ->
  preserves f make_structures_method.
Proof.
  intros H this. unfold make_structures_method.
  destruct (make_structures _ _ _); simpl; auto.
Qed.

Lemma SEMNANSolver_new_sample_members randn_like structure_arg parameters dtype_arg
  this0 this :
  SEMNANSolver_new randn_like structure_arg parameters dtype_arg this0 = Ok this ->
  sample_members this = sample_members this0.
Proof.
  unfold SEMNANSolver_new.
  pose proof (preserves_bind sample_members
                (init_parameters randn_like structure_arg parameters dtype_arg)
                (fun _ => make_structures_method)
                (init_parameters_sample_members _ _ _ _)
                (fun _ => make_structures_method_preserves sample_members
                            (fun _ _ => eq_refl)) this0) as H.
  destruct ((init_parameters randn_like structure_arg parameters dtype_arg ;;;
             make_structures_method) this0) as [[u|e] t]; [|discriminate].
  intros [= <-]. exact H.
Qed.

(** ** The losses after the first sample covariance *)

Section Calls.

Variable inverse_values : Z -> list R -> option (list R).
Variable logdet_value : Z -> list R -> R.
Variable semnan_cuda_forward : list SEMNANLayerData -> Solver -> Store.
Variable semnan_cuda_backward : list SEMNANLayerData -> Solver -> Store.

(** The methods a caller has besides [set_sample_covariance]. *)
Inductive call : Type := Forward | Backward | ProxyLoss | KLLoss.

Definition perform (c : call) : M unit :=
  match c with
  | Forward => forward semnan_cuda_forward
  | Backward => backward inverse_values semnan_cuda_backward
  | ProxyLoss => kullback_leibler_proxy_loss inverse_values logdet_value ;;; ret tt
  | KLLoss => kullback_leibler_loss inverse_values logdet_value ;;; ret tt
  end.

(** The object after a series of calls; an exception leaves the object as
    the failed call left it, for the caller to go on with. *)
Fixpoint after_calls (cs : list call) (this : Solver) : Solver :=
  match cs with
  | [] => this
  | c :: rest => after_calls rest (snd (perform c this))
  end.

Lemma coherent_put_mem m this : cache_coherent inverse_values logdet_value this -> cache_coherent inverse_values logdet_value (put_mem m this).
Proof. intros H. exact H. Qed.

Lemma get_sample_covariance_inv_keeps this :
  cache_coherent inverse_values logdet_value this ->
  cache_coherent inverse_values logdet_value (snd (get_sample_covariance_inv inverse_values this)) /\
  sample_covariance (snd (get_sample_covariance_inv inverse_values this))
    = sample_covariance this /\
  visible_size (snd (get_sample_covariance_inv inverse_values this))
    = visible_size this.
Proof.
  intros H. pose proof H as [Hi Hl]. unfold get_sample_covariance_inv.
  destruct (numel (sample_covariance_inv this) =? 0);
    [|simpl; split; [exact H|split; reflexivity]].
  destruct (torch_inverse inverse_values (sample_covariance this)) as [inv|] eqn:E;
    [|simpl; split; [exact H|split; reflexivity]].
  simpl. split; [|split; reflexivity].
  split; [right; exact E|exact Hl].
Qed.

Lemma get_sample_covariance_logdet_keeps this :
  cache_coherent inverse_values logdet_value this ->
  cache_coherent inverse_values logdet_value (snd (get_sample_covariance_logdet logdet_value this)) /\
  sample_covariance (snd (get_sample_covariance_logdet logdet_value this))
    = sample_covariance this /\
  visible_size (snd (get_sample_covariance_logdet logdet_value this))
    = visible_size this.
Proof.
  intros H. pose proof H as [Hi Hl]. unfold get_sample_covariance_logdet.
  destruct (numel (sample_covariance_logdet this) =? 0);
    [|simpl; split; [exact H|split; reflexivity]].
  destruct (torch_logdet logdet_value (sample_covariance this)) as [l|] eqn:E;
    [|simpl; split; [exact H|split; reflexivity]].
  simpl. split; [|split; reflexivity].
  split; [exact Hi|right; exact E].
Qed.

Lemma proxy_loss_keeps this :
  cache_coherent inverse_values logdet_value this ->
  cache_coherent inverse_values logdet_value (snd (kullback_leibler_proxy_loss inverse_values logdet_value this)) /\
  sample_covariance (snd (kullback_leibler_proxy_loss inverse_values logdet_value this))
    = sample_covariance this /\
  visible_size (snd (kullback_leibler_proxy_loss inverse_values logdet_value this))
    = visible_size this.
Proof.
  intros H. rewrite proxy_loss_state. now apply get_sample_covariance_inv_keeps.
Qed.

Lemma kl_loss_keeps this :
  cache_coherent inverse_values logdet_value this ->
  cache_coherent inverse_values logdet_value (snd (kullback_leibler_loss inverse_values logdet_value this)) /\
  sample_covariance (snd (kullback_leibler_loss inverse_values logdet_value this))
    = sample_covariance this /\
  visible_size (snd (kullback_leibler_loss inverse_values logdet_value this))
    = visible_size this.
Proof.
  intros H. rewrite kl_loss_unfold.
  destruct (proxy_loss_keeps this H) as (Hc & Hs & Hv).
  destruct (kullback_leibler_proxy_loss inverse_values logdet_value this)
    as [[proxy|e] t]; simpl in *; [|auto].
  destruct (get_sample_covariance_logdet_keeps t Hc) as (Hc' & Hs' & Hv').
  destruct (get_sample_covariance_logdet logdet_value t) as [[l|e] t'];
    simpl in *; repeat split; try apply Hc'; congruence.
Qed.

(** The seed is written into the buffers; besides, only the cached
    inverse may change. *)
Lemma backward_seed_state this :
  snd (kullback_leibler_loss_backward inverse_values this) = this \/
  exists m',
    snd (kullback_leibler_loss_backward inverse_values this)
    = put_mem m' (snd (get_sample_covariance_inv inverse_values this)).
Proof.
  destruct (kullback_leibler_loss_backward inverse_values this) as [res t'] eqn:E.
  cbn [snd]. revert E.
  unfold kullback_leibler_loss_backward, bindM at 1.
  destruct (select (visible_covariance_grad this) (Z.rem (num_layers this + 1) 2))
    as [grad|e]; [|intros [= _ <-]; left; reflexivity].
  unfold bindM at 1.
  destruct (get_sample_covariance_inv inverse_values this) as [[inv|e] t];
    [|intros [= _ <-]; right; exists (mem t); destruct t; reflexivity].
  run_method.
  destruct (torch_inverse inverse_values _) as [vinv|e]; run_method;
    unfold modify; intros [= _ <-]; right; eexists; reflexivity.
Qed.

Lemma backward_seed_keeps this :
  cache_coherent inverse_values logdet_value this ->
  cache_coherent inverse_values logdet_value
    (snd (kullback_leibler_loss_backward inverse_values this)) /\
  sample_covariance (snd (kullback_leibler_loss_backward inverse_values this))
    = sample_covariance this /\
  visible_size (snd (kullback_leibler_loss_backward inverse_values this))
    = visible_size this.
Proof.
  intros H.
  destruct (backward_seed_state this) as [->|(m' & ->)]; [auto|].
  destruct (get_sample_covariance_inv_keeps this H) as (Hc & Hs & Hv).
  split; [exact Hc|]. split; [exact Hs|exact Hv].
Qed.

(** Every call keeps the caches coherent, and keeps the sample covariance
    and the number of visible nodes. *)
Lemma perform_keeps c this :
  cache_coherent inverse_values logdet_value this ->
  cache_coherent inverse_values logdet_value (snd (perform c this)) /\
  sample_covariance (snd (perform c this)) = sample_covariance this /\
  visible_size (snd (perform c this)) = visible_size this.
Proof.
  intros H. destruct c; unfold perform.
  - unfold forward. run_method.
    destruct (is_floating (dtype this)); run_method; unfold modify; simpl; auto.
  - unfold backward. run_method.
    destruct (is_floating (dtype this)); run_method; [|auto].
    unfold bindM.
    destruct (backward_seed_keeps this H) as (Hc & Hs & Hv).
    destruct (kullback_leibler_loss_backward inverse_values this) as [[u|e] t];
      simpl in *; auto.
  - unfold bindM.
    destruct (proxy_loss_keeps this H) as (Hc & Hs & Hv).
    destruct (kullback_leibler_proxy_loss inverse_values logdet_value this)
      as [[u|e] t]; simpl in *; auto.
  - unfold bindM.
    destruct (kl_loss_keeps this H) as (Hc & Hs & Hv).
    destruct (kullback_leibler_loss inverse_values logdet_value this)
      as [[u|e] t]; simpl in *; auto.
Qed.

Lemma after_calls_keeps cs : forall this,
  cache_coherent inverse_values logdet_value this ->
  cache_coherent inverse_values logdet_value (after_calls cs this) /\
  sample_covariance (after_calls cs this) = sample_covariance this /\
  visible_size (after_calls cs this) = visible_size this.
Proof.
  induction cs as [|c cs IH]; intros this H; simpl; [auto|].
  destruct (perform_keeps c this H) as (Hc & Hs & Hv).
  destruct (IH _ Hc) as (Hc' & Hs' & Hv').
  split; [exact Hc'|]. split; congruence.
Qed.

(** On a solver built by the constructor, after one
    [set_sample_covariance] and any series of forward, backward and loss
    calls, failed or not, the two losses are those of the closed formulas
    for the sample covariance that was set, the number of visible nodes
    and the visible covariance of the moment. *)
Theorem losses_after_first_sample_covariance randn_like structure_arg parameters
  dtype_arg vs ls dev dt m sc this1 this2 cs :
  SEMNANSolver_new randn_like structure_arg parameters dtype_arg
    (fresh_solver vs ls dev dt m) = Ok this1 ->
  set_sample_covariance sc this1 = (Ok tt, this2) ->
  sizes (sample_covariance (after_calls cs this2)) = sizes sc /\
  data (sample_covariance (after_calls cs this2)) = data sc /\
  fst (kullback_leibler_proxy_loss inverse_values logdet_value (after_calls cs this2))
    = claimed_proxy_loss inverse_values logdet_value
        (sample_covariance (after_calls cs this2))
        (visible_covariance_value (after_calls cs this2)) /\
  fst (kullback_leibler_loss inverse_values logdet_value (after_calls cs this2))
    = claimed_kl_loss inverse_values logdet_value
        (visible_size (after_calls cs this2))
        (sample_covariance (after_calls cs this2))
        (visible_covariance_value (after_calls cs this2)).
Proof.
  intros Hnew Hset.
  pose proof (SEMNANSolver_new_sample_members _ _ _ _ _ _ Hnew) as Hm.
  unfold sample_members in Hm. simpl in Hm. injection Hm as _ Hinv1 Hld1.
  destruct (set_sample_covariance_keeps_cache sc this1 this2 Hset)
    as (Hsz & Hdt & Hinv2 & Hld2).
  assert (Hcoh : cache_coherent inverse_values logdet_value this2).
  { split; left; [rewrite Hinv2, Hinv1|rewrite Hld2, Hld1]; reflexivity. }
  destruct (after_calls_keeps cs this2 Hcoh) as (Hc & Hs & _).
  rewrite Hs. split; [exact Hsz|]. split; [exact Hdt|].
  rewrite <- Hs. split.
  - apply proxy_loss_coherent. exact Hc.
  - apply kl_loss_coherent. exact Hc.
Qed.

End Calls.

(** The solver with one visible node, as the constructor leaves it, and
    after its sample covariance is set to [[1]]. *)
Definition lone_this : Solver :=
  Eval cbv -[IZR Rmult Rminus Rplus Rinv Rdiv Ropp ln] in
  match lone_solver with
  | Ok this => this
  | Err _ => example_this0
  end.

Definition lone_with_sample : Solver :=
  Eval cbv -[IZR Rmult Rminus Rplus Rinv Rdiv Ropp ln] in
  snd (set_sample_covariance (sample 1) lone_this).

Lemma lone_solver_built :
  SEMNANSolver_new no_randn lone_structure (undefined R) kFloat
    (fresh_solver 0 0 0 kFloat []) = Ok lone_this.
Proof. cbv -[IZR Rmult Rminus Rplus Rinv Rdiv Ropp ln]. reflexivity. Qed.

Lemma lone_sample_set :
  set_sample_covariance (sample 1) lone_this = (Ok tt, lone_with_sample).
Proof. cbv -[IZR Rmult Rminus Rplus Rinv Rdiv Ropp ln]. reflexivity. Qed.

Lemma losses_after_first_sample_covariance_witness :
  SEMNANSolver_new no_randn lone_structure (undefined R) kFloat
    (fresh_solver 0 0 0 kFloat []) = Ok lone_this /\
  set_sample_covariance (sample 1) lone_this = (Ok tt, lone_with_sample) /\
  sizes (sample_covariance
           (after_calls scalar_inverse scalar_logdet forward_two backward_none
              [Forward; KLLoss; Backward; ProxyLoss] lone_with_sample))
    = sizes (sample 1) /\
  data (sample_covariance
          (after_calls scalar_inverse scalar_logdet forward_two backward_none
             [Forward; KLLoss; Backward; ProxyLoss] lone_with_sample))
    = data (sample 1) /\
  fst (kullback_leibler_proxy_loss scalar_inverse scalar_logdet
         (after_calls scalar_inverse scalar_logdet forward_two backward_none
            [Forward; KLLoss; Backward; ProxyLoss] lone_with_sample))
    = claimed_proxy_loss scalar_inverse scalar_logdet
        (sample_covariance
           (after_calls scalar_inverse scalar_logdet forward_two backward_none
              [Forward; KLLoss; Backward; ProxyLoss] lone_with_sample))
        (visible_covariance_value
           (after_calls scalar_inverse scalar_logdet forward_two backward_none
              [Forward; KLLoss; Backward; ProxyLoss] lone_with_sample)) /\
  fst (kullback_leibler_loss scalar_inverse scalar_logdet
         (after_calls scalar_inverse scalar_logdet forward_two backward_none
            [Forward; KLLoss; Backward; ProxyLoss] lone_with_sample))
    = claimed_kl_loss scalar_inverse scalar_logdet
        (visible_size
           (after_calls scalar_inverse scalar_logdet forward_two backward_none
              [Forward; KLLoss; Backward; ProxyLoss] lone_with_sample))
        (sample_covariance
           (after_calls scalar_inverse scalar_logdet forward_two backward_none
              [Forward; KLLoss; Backward; ProxyLoss] lone_with_sample))
        (visible_covariance_value
           (after_calls scalar_inverse scalar_logdet forward_two backward_none
              [Forward; KLLoss; Backward; ProxyLoss] lone_with_sample)).
Proof.
  split; [exact lone_solver_built|]. split; [exact lone_sample_set|].
  exact (losses_after_first_sample_covariance scalar_inverse scalar_logdet
           forward_two backward_none no_randn lone_structure (undefined R) kFloat
           0 0 0 kFloat [] (sample 1) lone_this lone_with_sample
           [Forward; KLLoss; Backward; ProxyLoss]
           lone_solver_built lone_sample_set).
Defined.

(** The same solver after a forward pass that left the variance 2. *)
Definition ready_solver : Solver :=
  Eval cbv -[IZR Rmult Rminus Rplus Rinv Rdiv Ropp ln] in
  snd (forward forward_two lone_with_sample).

Definition ready_after_loss : Solver :=
  snd (kullback_leibler_loss scalar_inverse scalar_logdet ready_solver).

Lemma ready_solver_loss :
  kullback_leibler_loss scalar_inverse scalar_logdet ready_solver
  = (Ok ((1 - ln 2) / 2)%R, ready_after_loss).
Proof.
  unfold ready_after_loss.
  rewrite (surjective_pairing
             (kullback_leibler_loss scalar_inverse scalar_logdet ready_solver)) at 1.
  f_equal.
  evaluate. unfold scalar_logdet. rewrite ln_1, Rinv_1. f_equal. lra.
Qed.

Lemma loss_query_repeated_witness :
  kullback_leibler_loss scalar_inverse scalar_logdet ready_solver
    = (Ok ((1 - ln 2) / 2)%R, ready_after_loss) /\
  ready_after_loss =
    put_sample_covariance_logdet (sample_covariance_logdet ready_after_loss)
      (put_sample_covariance_inv (sample_covariance_inv ready_after_loss)
         ready_solver) /\
  kullback_leibler_loss scalar_inverse scalar_logdet ready_after_loss
    = (Ok ((1 - ln 2) / 2)%R, ready_after_loss).
Proof.
  split; [exact ready_solver_loss|].
  exact (loss_query_repeated scalar_inverse scalar_logdet ready_solver
           ((1 - ln 2) / 2)%R ready_after_loss ready_solver_loss).
Defined.

(** ** The sample covariance: what is accepted, and queries without one *)



Section NoInverse.

Variable inverse_values : Z -> list R -> option (list R).
Variable logdet_value : Z -> list R -> R.
Variable semnan_cuda_backward : list SEMNANLayerData -> Solver -> Store.

(** No sample covariance was set: [torch::inverse] gets a tensor that is
    not a matrix. *)
Lemma torch_inverse_undefined :
  torch_inverse inverse_values (undefined R)
  = Err (CheckFailed "inverse: A must have at least 2 dimensions").
Proof. reflexivity. Qed.


End NoInverse.


(** * In-place updates of a block of a buffer *)

(** [f] applied in place to the elements of [buf] from position [off] on,
    with the elements of [src] as second arguments. *)
Fixpoint update_run (f : R -> R -> R) (buf : list R) (off : nat) (src : list R)
  : list R :=
  match src with
  | [] => buf
  | x :: rest => update_run f (list_set buf off (f (nth off buf 0%R) x)) (S off) rest
  end.

Lemma update_run_length f src : forall buf off,
  length (update_run f buf off src) = length buf.
Proof.
  induction src as [|x src IH]; intros buf off; simpl; [reflexivity|].
  rewrite IH. apply list_set_length.
Qed.

Lemma nth_list_set {A} (l : list A) n k x d :
  nth k (list_set l n x) d =
  if (n =? k)%nat && (k <? length l)%nat then x else nth k l d.
Proof.
  rewrite !nth_as_nth_error, nth_error_list_set.
  destruct (Nat.eqb_spec n k) as [->|Hne]; simpl; [|reflexivity].
  destruct (Nat.ltb_spec k (length l)) as [Hlt|Hge].
  - destruct (nth_error l k) eqn:E; [reflexivity|].
    apply nth_error_None in E. lia.
  - assert (E : nth_error l k = None) by (apply nth_error_None; lia).
    now rewrite E.
Qed.

Lemma nth_update_run f src : forall buf off k,
  (off + length src <= length buf)%nat ->
  nth k (update_run f buf off src) 0%R =
  if (off <=? k)%nat && (k <? off + length src)%nat
  then f (nth k buf 0%R) (nth (k - off) src 0%R)
  else nth k buf 0%R.
Proof.
  induction src as [|x src IH]; intros buf off k Hlen; simpl in *.
  - destruct (Nat.leb_spec off k), (Nat.ltb_spec k (off + 0)); simpl; auto; lia.
  - rewrite IH by (rewrite list_set_length; lia).
    rewrite nth_list_set.
    destruct (Nat.leb_spec (S off) k), (Nat.ltb_spec k (S off + length src));
      destruct (Nat.leb_spec off k), (Nat.ltb_spec k (off + S (length src)));
      destruct (Nat.eqb_spec off k), (Nat.ltb_spec k (length buf));
      simpl; try lia; auto.
    + replace (k - off)%nat with (S (k - S off)) by lia. reflexivity.
    + subst k. now rewrite Nat.sub_diag.
Qed.

(** The addresses of a row-major block: one after another, from the
    offset on. *)
Definition row_major (t : TensorRef) (n m : Z) : Prop :=
  ref_sizes t = [n; m] /\ strides t = [m * 1; 1] /\
  0 <= n /\ 0 <= m /\ 0 <= storage_offset t.

Lemma zrange_app a b c : a <= b <= c -> zrange a c = zrange a b ++ zrange b c.
Proof.
  intros H. remember (Z.to_nat (c - b)) as n eqn:Hn.
  revert c H Hn. induction n as [|n IH]; intros c H Hn.
  - assert (c = b) by lia. subst c.
    rewrite (zrange_nil b b) by lia. now rewrite app_nil_r.
  - replace c with (c - 1 + 1) by lia.
    rewrite (zrange_snoc a), (zrange_snoc b) by lia.
    rewrite (IH (c - 1)) by lia. now rewrite app_assoc.
Qed.

Lemma flat_map_single {A B} (g : A -> B) l :
  flat_map (fun i => [g i]) l = map g l.
Proof. induction l as [|a l IH]; simpl; [reflexivity|]. now rewrite IH. Qed.

Lemma indices_one m : indices [m] = map (fun j => [j]) (zrange 0 m).
Proof.
  change (indices [m]) with (flat_map (fun i : Z => [[i]]) (zrange 0 m)).
  apply (flat_map_single (fun j : Z => [j])).
Qed.

Lemma addresses_row_major t n m :
  row_major t n m ->
  map (address t) (indices [n; m]) =
  map (fun k => storage_offset t + k) (zrange 0 (n * m)).
Proof.
  intros (Hsz & Hst & Hn & Hm & _).
  change (indices [n; m])
    with (flat_map (fun i => map (cons i) (indices [m])) (zrange 0 n)).
  rewrite indices_one.
  assert (G : forall k, 0 <= k ->
            map (address t)
                (flat_map (fun i => map (cons i) (map (fun j => [j]) (zrange 0 m)))
                          (zrange 0 k))
            = map (fun a => storage_offset t + a) (zrange 0 (k * m))).
  { intros k Hk. pattern k. apply natlike_ind; [| |exact Hk].
    - reflexivity.
    - intros x Hx IH. unfold Z.succ.
      rewrite zrange_snoc, flat_map_app, map_app, IH by lia.
      rewrite (zrange_app 0 (x * m) ((x + 1) * m)) by nia.
      rewrite map_app. f_equal. simpl. rewrite app_nil_r, !map_map.
      assert (E : zrange (x * m) ((x + 1) * m)
                  = map (fun i => i + x * m) (zrange 0 m)).
      { rewrite <- zrange_shift. f_equal; lia. }
      rewrite E, map_map.
      apply map_ext. intros j. unfold address. rewrite Hst. simpl. lia. }
  apply G. exact Hn.
Qed.

Lemma indices_length_two n m :
  0 <= n -> 0 <= m -> length (indices [n; m]) = Z.to_nat (n * m).
Proof.
  intros Hn Hm.
  pose proof (f_equal (@length _)
                (addresses_row_major
                   {| storage := 0; storage_offset := 0;
                      ref_sizes := [n; m]; strides := [m * 1; 1] |} n m
                   ltac:(repeat split; auto; simpl; lia))) as H.
  rewrite !length_map, zrange_length in H. rewrite H. f_equal. lia.
Qed.

(** [t.copy_(src)], [t.subtract_(src)] and [t *= src] are instances of one
    loop over the elements of [t]. *)
Definition apply_ (f : R -> R -> R) (mem : Store) (t : TensorRef) (src : list R)
  : Store :=
  fold_left (fun m '(ix, x) => write_at m t ix (f (read_at m t ix) x))
            (combine (indices (ref_sizes t)) src) mem.

Lemma copy__apply mem t src : copy_ mem t src = apply_ (fun _ x => x) mem t (data src).
Proof. reflexivity. Qed.

Lemma subtract__apply mem t src :
  subtract_ mem t src = apply_ Rminus mem t (data src).
Proof. reflexivity. Qed.


Lemma buffer_list_set mem t b :
  (storage t < length mem)%nat -> buffer (list_set mem (storage t) b) t = b.
Proof.
  intros H. unfold buffer. rewrite nth_list_set.
  rewrite Nat.eqb_refl. destruct (Nat.ltb_spec (storage t) (length mem)); [|lia].
  reflexivity.
Qed.

Lemma fold_update f t : forall ixs src mem off,
  (storage t < length mem)%nat -> length src = length ixs -> 0 <= off ->
  map (address t) ixs = map (fun k => off + Z.of_nat k) (seq 0 (length ixs)) ->
  fold_left (fun m '(ix, x) => write_at m t ix (f (read_at m t ix) x))
            (combine ixs src) mem
  = list_set mem (storage t) (update_run f (buffer mem t) (Z.to_nat off) src).
Proof.
  induction ixs as [|ix ixs IH]; intros [|x src] mem off Hs Hlen Hoff Ha;
    simpl in Hlen; try discriminate.
  - simpl. symmetry. apply list_set_same. unfold buffer.
    apply nth_error_nth'. exact Hs.
  - cbn [combine fold_left update_run].
    cbn [length seq map] in Ha. injection Ha as Ha0 Ha'.
    rewrite Z.add_0_r in Ha0.
    rewrite (IH src _ (off + 1)).
    + unfold write_at, read_at. rewrite Ha0.
      rewrite buffer_list_set by exact Hs.
      rewrite list_set_twice.
      replace (Z.to_nat (off + 1)) with (S (Z.to_nat off)) by lia.
      reflexivity.
    + rewrite write_at_length. exact Hs.
    + lia.
    + lia.
    + rewrite Ha', <- seq_shift, map_map. apply map_ext. intros k. lia.
Qed.

(** What the loop leaves in the buffer of a row-major block that lies
    within its buffer. *)
Lemma apply_buffer f mem t n m src :
  row_major t n m -> (storage t < length mem)%nat ->
  length src = Z.to_nat (n * m) ->
  buffer (apply_ f mem t src) t =
  update_run f (buffer mem t) (Z.to_nat (storage_offset t)) src /\
  apply_ f mem t src =
  list_set mem (storage t)
    (update_run f (buffer mem t) (Z.to_nat (storage_offset t)) src).
Proof.
  intros Hrm Hs Hlen. pose proof Hrm as (Hsz & Hst & Hn & Hm & Hoff).
  assert (E : apply_ f mem t src =
              list_set mem (storage t)
                (update_run f (buffer mem t) (Z.to_nat (storage_offset t)) src)).
  { unfold apply_. rewrite Hsz. apply fold_update; auto.
    - rewrite indices_length_two by auto. exact Hlen.
    - rewrite (addresses_row_major t n m Hrm).
      rewrite indices_length_two by auto. unfold zrange.
      rewrite map_map. replace (n * m - 0) with (n * m) by lia.
      apply map_ext. intros k. lia. }
  split; [|exact E]. rewrite E. apply buffer_list_set. exact Hs.
Qed.

Lemma apply_length f t src : forall mem, length (apply_ f mem t src) = length mem.
Proof.
  unfold apply_. generalize (combine (indices (ref_sizes t)) src). intros l.
  induction l as [|[ix x] l IH]; intros mem; simpl; [reflexivity|].
  rewrite IH. apply write_at_length.
Qed.

(** The loop writes into the buffer of [t] and no other. *)
Lemma apply_other f t t' src : forall mem,
  storage t' <> storage t -> buffer (apply_ f mem t src) t' = buffer mem t'.
Proof.
  unfold apply_. generalize (combine (indices (ref_sizes t)) src). intros l.
  induction l as [|[ix x] l IH]; intros mem Hne; simpl; [reflexivity|].
  rewrite IH by exact Hne. unfold write_at, buffer.
  rewrite nth_list_set.
  destruct (Nat.eqb_spec (storage t) (storage t')); [congruence|reflexivity].
Qed.

Lemma address_two t i j sm :
  strides t = [sm; 1] -> address t [i; j] = storage_offset t + i * sm + j.
Proof. intros H. unfold address. rewrite H. simpl. lia. Qed.

(** Element (i, j) of a row-major block after the loop. *)
Lemma apply_read f mem t n m src i j :
  row_major t n m -> (storage t < length mem)%nat ->
  length src = Z.to_nat (n * m) ->
  (Z.to_nat (storage_offset t) + length src <= length (buffer mem t))%nat ->
  0 <= i < n -> 0 <= j < m ->
  read_at (apply_ f mem t src) t [i; j] =
  f (read_at mem t [i; j]) (nth (Z.to_nat (i * m + j)) src 0%R).
Proof.
  intros Hrm Hs Hlen Hfit Hi Hj. pose proof Hrm as (Hsz & Hst & Hn & Hm & Hoff).
  destruct (apply_buffer f mem t n m src Hrm Hs Hlen) as [Hb _].
  unfold read_at. rewrite Hb, (address_two t i j (m * 1) Hst).
  rewrite nth_update_run by exact Hfit.
  assert (Hk : 0 <= i * m + j < n * m) by nia.
  destruct (Nat.leb_spec (Z.to_nat (storage_offset t))
              (Z.to_nat (storage_offset t + i * (m * 1) + j))); [|lia].
  destruct (Nat.ltb_spec (Z.to_nat (storage_offset t + i * (m * 1) + j))
              (Z.to_nat (storage_offset t) + length src)); [|lia].
  simpl. do 2 f_equal. lia.
Qed.

(** * The buffers [init_parameters] allocates *)



Definition matrix_ref (s : nat) (off n m : Z) : TensorRef :=
  {| storage := s; storage_offset := off; ref_sizes := [n; m];
     strides := [m * 1; 1] |}.

Definition cube_ref (s : nat) (off k n m rows : Z) : TensorRef :=
  {| storage := s; storage_offset := off; ref_sizes := [k; n; m];
     strides := [rows * (m * 1); m * 1; 1] |}.



Lemma read_at_buffer mem mem' t ix :
  buffer mem t = buffer mem' t -> read_at mem t ix = read_at mem' t ix.
Proof. intros H. unfold read_at. now rewrite H. Qed.

Lemma row_major_matrix_ref s off n m :
  0 <= n -> 0 <= m -> 0 <= off -> row_major (matrix_ref s off n m) n m.
Proof. intros. unfold row_major, matrix_ref. simpl. auto. Qed.





Lemma nth_app_at {A : Type} (l : list A) x rest d k :
  k = length l -> nth k (l ++ x :: rest) d = x.
Proof. intros ->. rewrite app_nth2, Nat.sub_diag by lia. reflexivity. Qed.





(** * The seed of the backward pass *)

Section Seed.

Variable inverse_values : Z -> list R -> option (list R).

Lemma select_cube s off k n m rows p :
  0 <= p < k ->
  select (cube_ref s off k n m rows) p
  = Ok (matrix_ref s (off + p * (rows * (m * 1))) n m).
Proof.
  intros Hp. unfold select, cube_ref. cbn [ref_sizes strides storage storage_offset].
  rewrite wrap_index_ok by exact Hp. reflexivity.
Qed.

Lemma rem_two n : 0 <= n -> 0 <= Z.rem (n + 1) 2 < 2.
Proof.
  intros H. rewrite Z.rem_mod_nonneg by lia. apply Z.mod_pos_bound. lia.
Qed.

Lemma get_sample_covariance_inv_frame this inv :
  fst (get_sample_covariance_inv inverse_values this) = Ok inv ->
  exists t,
    get_sample_covariance_inv inverse_values this = (Ok inv, t) /\
    mem t = mem this /\ visible_covariance t = visible_covariance this /\
    visible_covariance_grad t = visible_covariance_grad this /\
    cuda_device_number t = cuda_device_number this.
Proof.
  unfold get_sample_covariance_inv.
  destruct (numel _ =? 0).
  - destruct (torch_inverse _ _) as [x|e]; simpl; [|discriminate].
    intros [= ->]. eexists. split; [reflexivity|]. simpl. auto.
  - simpl. intros [= ->]. eexists. split; [reflexivity|]. auto.
Qed.

Lemma to_value_buffer mem mem' t dev :
  buffer mem t = buffer mem' t -> to_value mem t dev = to_value mem' t dev.
Proof.
  intros H. unfold to_value. f_equal. apply map_ext. intros ix.
  now apply read_at_buffer.
Qed.

Lemma read_at_same mem t t' ix ix' :
  storage t = storage t' -> address t ix = address t' ix' ->
  read_at mem t ix = read_at mem t' ix'.
Proof. intros Hs Ha. unfold read_at, buffer. now rewrite Hs, Ha. Qed.

(** The block of the buffer that plane [k] of the gradient of the visible
    covariance takes. *)
Definition grad_plane (s : nat) (L V k : Z) : TensorRef :=
  matrix_ref s (L * (V * 1) + k * ((L + V) * (V * 1))) V V.

(** The seed of the backward pass.  With the gradient of the visible
    covariance laid out as the constructor leaves it, the seed written is
    the inverse of the sample covariance minus the inverse of the visible
    covariance, element by element, in plane [(num_layers + 1) % 2]; the
    other plane and every other buffer are left as they were. *)
Theorem backward_seed_values this s L V inv vinv :
  0 <= L -> 0 < V ->
  visible_covariance_grad this = cube_ref s (L * (V * 1)) 2 V V (L + V) ->
  length (nth s (mem this) []) = Z.to_nat (2 * ((L + V) * V)) ->
  storage (visible_covariance this) <> s ->
  fst (get_sample_covariance_inv inverse_values this) = Ok inv ->
  torch_inverse inverse_values (visible_covariance_value this) = Ok vinv ->
  length (data inv) = Z.to_nat (V * V) ->
  length (data vinv) = Z.to_nat (V * V) ->
  exists this',
    kullback_leibler_loss_backward inverse_values this = (Ok tt, this') /\
    visible_covariance_grad this' = visible_covariance_grad this /\
    (forall i j, 0 <= i < V -> 0 <= j < V ->
       read_at (mem this') (visible_covariance_grad this')
               [Z.rem (num_layers this + 1) 2; i; j]
       = (matrix_at V V (data inv) i j - matrix_at V V (data vinv) i j)%R) /\
    (forall i j, 0 <= i < V -> 0 <= j < V ->
       read_at (mem this') (visible_covariance_grad this')
               [1 - Z.rem (num_layers this + 1) 2; i; j]
       = read_at (mem this) (visible_covariance_grad this)
                 [1 - Z.rem (num_layers this + 1) 2; i; j]) /\
    (forall t, storage t <> s -> buffer (mem this') t = buffer (mem this) t).
Proof.
  intros HL HV Hvg Hbuf Hne Hinv Hvinv Hli Hlv.
  assert (Hk : 0 <= Z.rem (num_layers this + 1) 2 < 2).
  { apply rem_two. unfold num_layers, zlength. lia. }
  set (k := Z.rem (num_layers this + 1) 2) in *.
  destruct (get_sample_covariance_inv_frame this inv Hinv)
    as (t & Hget & Hmem & Hvc & Hvgt & Hdev).
  set (grad := grad_plane s L V k).
  assert (Hs : (s < length (mem this))%nat).
  { destruct (Nat.lt_ge_cases s (length (mem this))) as [H|H]; [exact H|].
    rewrite nth_overflow in Hbuf by exact H. cbn [length] in Hbuf.
    assert (0 < 2 * ((L + V) * V)) by nia. lia. }
  assert (Hrm : row_major grad V V).
  { apply row_major_matrix_ref; nia. }
  set (mem1 := copy_ (mem this) grad inv).
  set (mem2 := subtract_ mem1 grad vinv).
  assert (Hl1 : length mem1 = length (mem this)).
  { unfold mem1. rewrite copy__apply. apply apply_length. }
  assert (Hvc1 : visible_covariance_value (put_mem mem1 t)
                 = visible_covariance_value this).
  { unfold visible_covariance_value. simpl. rewrite Hvc, Hdev.
    apply to_value_buffer. unfold mem1. rewrite copy__apply.
    apply apply_other. exact Hne. }
  assert (Hrun : kullback_leibler_loss_backward inverse_values this
                 = (Ok tt, put_mem mem2 t)).
  { unfold kullback_leibler_loss_backward. unfold bindM at 1.
    rewrite Hvg, (select_cube s _ 2 V V (L + V) k Hk).
    fold (grad_plane s L V k). fold grad.
    unfold bindM at 1. rewrite Hget.
    unfold bindM at 1. unfold modify at 1. rewrite Hmem. fold mem1.
    unfold bindM at 1. unfold get at 1. rewrite Hvc1.
    unfold bindM at 1. unfold lift at 1. rewrite Hvinv.
    unfold modify. reflexivity. }
  exists (put_mem mem2 t). split; [exact Hrun|].
  cbn [visible_covariance_grad put_mem mem]. rewrite Hvgt.
  split; [reflexivity|]. rewrite Hvg.
  assert (Hoff : (Z.to_nat (storage_offset grad) + Z.to_nat (V * V)
                  <= length (nth s (mem this) []))%nat).
  { rewrite Hbuf. unfold grad, grad_plane, matrix_ref. cbn [storage_offset]. nia. }
  assert (Hb1 : length (buffer mem1 grad) = length (nth s (mem this) [])).
  { unfold mem1. rewrite copy__apply.
    destruct (apply_buffer (fun _ x => x) (mem this) grad V V (data inv) Hrm Hs Hli)
      as [-> _].
    apply update_run_length. }
  repeat split.
  - intros i j Hi Hj.
    rewrite (read_at_same _ _ grad [k; i; j] [i; j]);
      [|reflexivity|unfold address; simpl; ring].
    unfold mem2. rewrite subtract__apply.
    rewrite (apply_read Rminus mem1 grad V V (data vinv) i j); auto;
      [|now rewrite Hl1|rewrite Hb1, Hlv; exact Hoff].
    unfold mem1. rewrite copy__apply.
    rewrite (apply_read (fun _ x => x) (mem this) grad V V (data inv) i j); auto.
    rewrite Hli. exact Hoff.
  - intros i j Hi Hj.
    unfold read_at.
    change (buffer mem2 (cube_ref s (L * (V * 1)) 2 V V (L + V)))
      with (buffer mem2 grad).
    change (buffer (mem this) (cube_ref s (L * (V * 1)) 2 V V (L + V)))
      with (buffer (mem this) grad).
    unfold mem2. rewrite subtract__apply.
    assert (Hs1 : (storage grad < length mem1)%nat) by now rewrite Hl1.
    destruct (apply_buffer Rminus mem1 grad V V (data vinv) Hrm Hs1 Hlv) as [-> _].
    unfold mem1 at 1. rewrite copy__apply.
    destruct (apply_buffer (fun _ x => x) (mem this) grad V V (data inv) Hrm Hs Hli)
      as [-> _].
    rewrite !nth_update_run;
      [|rewrite Hli; exact Hoff|rewrite update_run_length, Hlv; exact Hoff].
    set (a := address (cube_ref s (L * (V * 1)) 2 V V (L + V)) [1 - k; i; j]).
    assert (Ha : a = L * V + (1 - k) * ((L + V) * V) + i * V + j).
    { unfold a, address. simpl. ring. }
    assert (Ho : storage_offset grad = L * V + k * ((L + V) * V)).
    { unfold grad, grad_plane, matrix_ref. cbn [storage_offset]. ring. }
    rewrite Hli, Hlv, Ho.
    assert (Hout : ((Z.to_nat (L * V + k * ((L + V) * V)) <=? Z.to_nat a)%nat
                    && (Z.to_nat a <? Z.to_nat (L * V + k * ((L + V) * V))
                                      + Z.to_nat (V * V))%nat) = false).
    { apply andb_false_iff.
      assert (Hk' : k = 0 \/ k = 1) by lia.
      destruct Hk' as [Hk0 | Hk1].
      - right. apply Nat.ltb_ge. rewrite Ha, Hk0. nia.
      - left. apply Nat.leb_gt. rewrite Ha, Hk1. nia. }
    rewrite Hout. reflexivity.
  - intros t' Ht'. unfold mem2, mem1. rewrite subtract__apply, copy__apply.
    rewrite !apply_other by exact Ht'. reflexivity.
Qed.

End Seed.

(** The solver of the single-edge structure, with the sample covariance
    [[1]] and the variance 2 of its visible node in the covariance. *)
Definition edge_ready : Solver :=
  Eval cbv -[IZR Rmult Rminus Rplus Rinv Rdiv Ropp ln] in
  match SEMNANSolver_new no_randn single_edge_structure (undefined R) kFloat
          example_this0 with
  | Ok this0 =>
      let this := snd (set_sample_covariance (sample 1) this0) in
      put_mem (write_at (mem this) (visible_covariance this) [0; 0] 2%R) this
  | Err _ => example_this0
  end.

Definition edge_sample_inverse : Tensor R :=
  {| sizes := [1; 1]; data := [(/ 1)%R]; device := CUDA 0 |}.

Definition edge_visible_inverse : Tensor R :=
  {| sizes := [1; 1]; data := [(/ 2)%R]; device := CUDA 0 |}.

Lemma edge_ready_sample_inverse :
  fst (get_sample_covariance_inv scalar_inverse edge_ready) = Ok edge_sample_inverse.
Proof. evaluate. reflexivity. Qed.

Lemma edge_ready_visible_inverse :
  torch_inverse scalar_inverse (visible_covariance_value edge_ready)
  = Ok edge_visible_inverse.
Proof. evaluate. reflexivity. Qed.

Lemma backward_seed_values_witness :
  0 <= 1 /\ 0 < 1 /\
  visible_covariance_grad edge_ready = cube_ref 4 (1 * (1 * 1)) 2 1 1 (1 + 1) /\
  length (nth 4 (mem edge_ready) []) = Z.to_nat (2 * ((1 + 1) * 1)) /\
  storage (visible_covariance edge_ready) <> 4%nat /\
  fst (get_sample_covariance_inv scalar_inverse edge_ready)
    = Ok edge_sample_inverse /\
  torch_inverse scalar_inverse (visible_covariance_value edge_ready)
    = Ok edge_visible_inverse /\
  length (data edge_sample_inverse) = Z.to_nat (1 * 1) /\
  length (data edge_visible_inverse) = Z.to_nat (1 * 1) /\
  exists this',
    kullback_leibler_loss_backward scalar_inverse edge_ready = (Ok tt, this') /\
    visible_covariance_grad this' = visible_covariance_grad edge_ready /\
    (forall i j, 0 <= i < 1 -> 0 <= j < 1 ->
       read_at (mem this') (visible_covariance_grad this')
               [Z.rem (num_layers edge_ready + 1) 2; i; j]
       = (matrix_at 1 1 (data edge_sample_inverse) i j
          - matrix_at 1 1 (data edge_visible_inverse) i j)%R) /\
    (forall i j, 0 <= i < 1 -> 0 <= j < 1 ->
       read_at (mem this') (visible_covariance_grad this')
               [1 - Z.rem (num_layers edge_ready + 1) 2; i; j]
       = read_at (mem edge_ready) (visible_covariance_grad edge_ready)
                 [1 - Z.rem (num_layers edge_ready + 1) 2; i; j]) /\
    (forall t, storage t <> 4%nat -> buffer (mem this') t = buffer (mem edge_ready) t).
Proof.
  split; [lia|]. split; [lia|]. split; [reflexivity|]. split; [reflexivity|].
  split; [simpl; lia|].
  split; [exact edge_ready_sample_inverse|].
  split; [exact edge_ready_visible_inverse|].
  split; [reflexivity|]. split; [reflexivity|].
  refine (backward_seed_values scalar_inverse edge_ready 4 1 1 edge_sample_inverse
            edge_visible_inverse _ _ eq_refl eq_refl _
            edge_ready_sample_inverse edge_ready_visible_inverse eq_refl eq_refl).
  - lia.
  - lia.
  - simpl. lia.
Defined.
